(** * Probing datasets and subword pooling: a shallow embedding

    The development follows two modules of the repository:
    - [probing/data/sentence_probe_data.py]: raw sample extraction,
      indexing ([to_idx]) and batching ([batched_iter]);
    - [probing/models/contextual_embedding_classifier.py]: layer pooling,
      subword pooling and the pooling cache.

    Python exceptions are values of [exn]; a computation that may raise
    has type [result A].  Python lists are Rocq lists, dictionaries are
    [gmap]s, sets are [gset]s.  The external collaborators (tokenizer,
    encoder, trained heads, [int] parsing) are section variables. *)

From Stdlib Require Import ZArith QArith Ascii String.
From stdpp Require Import base option list gmap strings sorting.

Local Open Scope string_scope.
Local Open Scope nat_scope.
Local Open Scope list_scope.

(** ** Exceptions and results *)

Inductive exn : Type :=
  | ValueError (msg : string)
  | KeyError (key : string)
  | IndexError
  | RuntimeError
  | UnboundLocalError
  | TypeError (msg : string)
  | OverflowError.

Inductive result (A : Type) : Type :=
  | Ok (a : A)
  | Raise (e : exn).
Arguments Ok {A} a.
Arguments Raise {A} e.

Global Instance result_ret : MRet result := λ A a, Ok a.
Global Instance result_bind : MBind result := λ A B k m,
  match m with
  | Ok a => k a
  | Raise e => Raise e
  end.
Global Instance result_fmap : FMap result := λ A B f m,
  match m with
  | Ok a => Ok (f a)
  | Raise e => Raise e
  end.

(** [for x in xs: ys.append(f(x))] where [f] may raise. *)
Fixpoint rmapM {A B} (f : A → result B) (xs : list A) : result (list B) :=
  match xs with
  | [] => Ok []
  | x :: xs' => y ← f x ; ys ← rmapM f xs' ; Ok (y :: ys)
  end.


(** ** Python sequences *)

(** [l[i]] on a Python list or a one-dimensional array: a negative index
    counts from the end, an index out of range raises [IndexError]. *)
Definition py_index {A} (l : list A) (i : Z) : result A :=
  let n := Z.of_nat (length l) in
  let j := if (i <? 0)%Z then (i + n)%Z else i in
  if (j <? 0)%Z then Raise IndexError
  else match l !! Z.to_nat j with
       | Some x => Ok x
       | None => Raise IndexError
       end.

(** [l[a:b]] for non-negative bounds: both ends are clipped to the length,
    and the slice is empty when [b <= a]. *)
Definition slice {A} (a b : nat) (l : list A) : list A :=
  take (b - a) (drop a l).

(** ** Numpy integers *)

(** The bounds of [int64], the type of the array that numpy makes of
    Python integers of that range. *)
Definition int64_min : Z := (- 2 ^ 63)%Z.
Definition int64_max : Z := (2 ^ 63 - 1)%Z.

Definition in_int64 (z : Z) : bool :=
  (int64_min <=? z)%Z && (z <=? int64_max)%Z.

(** Arithmetic on an [int64] array wraps around silently. *)
Definition wrap_int64 (z : Z) : Z :=
  ((z - int64_min) mod 2 ^ 64 + int64_min)%Z.

(** ** Python strings *)

Definition newline : ascii := "010"%char.
Definition tab : ascii := "009"%char.
Definition space : ascii := " "%char.

(** [str.split(sep)] for a one-character separator: the result is never
    empty, and adjacent separators delimit empty strings. *)
Fixpoint split (sep : ascii) (s : string) : list string :=
  match s with
  | EmptyString => [EmptyString]
  | String c s' =>
      if Ascii.eqb c sep then EmptyString :: split sep s'
      else match split sep s' with
           | w :: ws => String c w :: ws
           | [] => [String c EmptyString]
           end
  end.

(** [str.rstrip("\n")]: drops every trailing newline. *)
Fixpoint rstrip_nl (s : string) : string :=
  match s with
  | EmptyString => EmptyString
  | String c s' =>
      let r := rstrip_nl s' in
      if Ascii.eqb c newline && String.eqb r EmptyString then EmptyString
      else String c r
  end.

(** Whitespace as [str.strip()] sees it on ASCII text: tab, newline,
    vertical tab, form feed, carriage return, the four separators
    0x1c-0x1f and the space. *)
Definition is_space (c : ascii) : bool :=
  let n := nat_of_ascii c in
  ((9 <=? n) && (n <=? 13)) || ((28 <=? n) && (n <=? 32)).

Fixpoint lstrip (s : string) : string :=
  match s with
  | EmptyString => EmptyString
  | String c s' => if is_space c then lstrip s' else s
  end.

Fixpoint rstrip (s : string) : string :=
  match s with
  | EmptyString => EmptyString
  | String c s' =>
      let r := rstrip s' in
      if is_space c && String.eqb r EmptyString then EmptyString
      else String c r
  end.

Definition strip (s : string) : string := rstrip (lstrip s).

(** Truth value of a string: [not s] holds for the empty string only. *)
Definition str_truthy (s : string) : bool := negb (String.eqb s EmptyString).

(** ** Field records of the datasets *)

(** [SequenceClassificationWithSubwordsDataFields] *)
Record SequenceClassificationWithSubwordsDataFields : Type := {
  sc_raw_sentence : list string;
  sc_labels : option (list string);
  sc_sentence_len : nat;
  sc_tokens : list string;
  sc_sentence_subword_len : nat;
  sc_token_starts : list nat;
}.

(** [TokenInSequenceProberFields] *)
Record TokenInSequenceProberFields : Type := {
  raw_sentence : string;
  raw_target : string;
  raw_idx : Z;
  tokens : list string;
  num_tokens : nat;
  target_idx : Z;
  label : option string;
  token_starts : list nat;
}.

(** ** Raw sample extraction *)

(** [np.argsort] of an integer array: the indices in increasing order of
    their values.  The insertion below is stable; on arrays without
    repeated values (such as a shuffled [arange]) every sorting algorithm
    yields the same indices. *)
Fixpoint argsort_insert (a : list nat) (i : nat) (sorted : list nat) : list nat :=
  match sorted with
  | [] => [i]
  | j :: rest =>
      if (a !!! j) <=? (a !!! i) then j :: argsort_insert a i rest
      else i :: j :: rest
  end.

Definition argsort (a : list nat) : list nat :=
  foldl (λ acc i, argsort_insert a i acc) [] (seq 0 (length a)).

Section Extraction.

(** The subword tokenizer ([self.tokenizer.tokenize]) and its mask symbol
    ([self.tokenizer.mask_token]). *)
Variable tokenize : string → list string.
Variable MASK : string.

(** Python's [int(s)] on a field of the line; [Raise] stands for its
    [ValueError]. *)
Variable py_int : string → result Z.

(** *** [SequenceClassificationWithSubwords.create_sentence_from_lines] *)

(** The four lists the loop appends to. *)
Record csfl_state : Type := {
  st_sent : list string;
  st_labels : list string;
  st_token_starts : list nat;
  st_subwords : list string;
}.

Definition csfl_step (st : csfl_state) (line : string) : csfl_state :=
  let fd := split tab (rstrip_nl line) in
  let w := hd EmptyString fd in
  {| st_sent := st_sent st ++ [w];
     st_labels := match fd with
                  | _ :: l :: _ => st_labels st ++ [l]
                  | _ => st_labels st
                  end;
     st_token_starts := st_token_starts st ++ [length (st_subwords st)];
     st_subwords := st_subwords st ++ tokenize w |}.

Definition csfl_init : csfl_state :=
  {| st_sent := []; st_labels := []; st_token_starts := []; st_subwords := [] |}.

Definition create_sentence_from_lines (lines : list string)
  : SequenceClassificationWithSubwordsDataFields :=
  let st := foldl csfl_step csfl_init lines in
  let token_starts := st_token_starts st ++ [length (st_subwords st)] in
  {| sc_raw_sentence := st_sent st;
     sc_labels := match st_labels st with [] => None | ls => Some ls end;
     sc_sentence_len := length (st_sent st);
     sc_tokens := st_subwords st;
     sc_sentence_subword_len := length (st_subwords st);
     sc_token_starts := token_starts |}.

(** *** [SentenceProberDataset.extract_sample_from_line] *)

(** The loop [for pieces in tokenized] that concatenates the per-word
    groups and records where each begins. *)
Definition merge_step (st : list string * list nat) (pieces : list string)
  : list string * list nat :=
  (st.1 ++ pieces, st.2 ++ [length st.1]).

Definition merge_pieces (tokenized : list (list string)) : list string * list nat :=
  foldl merge_step ([], []) tokenized.

(** [for ti, token in enumerate(raw_sent.split(" "))] *)
Definition tokenize_words (mask_positions : gset Z) (raw_idx : Z)
    (words : list string) : list (list string) :=
  imap (λ ti token,
          if decide ((Z.of_nat ti - raw_idx)%Z ∈ mask_positions)
          then [MASK] else tokenize token) words.

(** [bow] is [self.config.bow]; [shuffle] is the effect of
    [np.random.shuffle] on [all_idx] for this call.  The result carries
    the sample together with the value the local variable [target_idx]
    holds when the function returns. *)
Definition extract_sample_from_line_full (mask_positions : gset Z) (bow : bool)
    (shuffle : list nat → list nat) (line : string)
  : result (TokenInSequenceProberFields * nat) :=
  let fd := split tab (rstrip_nl line) in
  match take 3 fd with
  | [raw_sent; raw_tgt; raw_idx_s] =>
      let label := fd !! 3 in
      raw_idx ← py_int raw_idx_s ;
      let tokenized := tokenize_words mask_positions raw_idx (split space raw_sent) in
      r ← (if bow then
             let all_idx := shuffle (seq 0 (length tokenized)) in
             tokenized' ← rmapM (λ i, py_index tokenized (Z.of_nat i)) all_idx ;
             let target_map := argsort all_idx in
             t ← py_index target_map raw_idx ;
             Ok (tokenized', Z.of_nat t)
           else Ok (tokenized, raw_idx)) ;
      let '(tokenized, target_idx0) := r in
      let '(merged, token_starts) := merge_pieces tokenized in
      target_idx1 ← py_index token_starts target_idx0 ;
      Ok ({| raw_sentence := raw_sent;
             raw_target := raw_tgt;
             raw_idx := raw_idx;
             tokens := merged;
             num_tokens := length merged;
             target_idx := raw_idx;
             token_starts := token_starts;
             label := label |}, target_idx1)
  | _ => Raise (ValueError "not enough values to unpack")
  end.

Definition extract_sample_from_line (mask_positions : gset Z) (bow : bool)
    (shuffle : list nat → list nat) (line : string)
  : result TokenInSequenceProberFields :=
  r ← extract_sample_from_line_full mask_positions bow shuffle line ; Ok r.1.

End Extraction.

(** A tokenizer that splits each word into its characters. *)
Fixpoint char_tokenizer (s : string) : list string :=
  match s with
  | EmptyString => []
  | String c s' => String c EmptyString :: char_tokenizer s'
  end.

(** Decimal [int] parsing of an unsigned digit string, enough for the
    examples; [int] itself accepts more (signs, surrounding blanks). *)
Fixpoint decimal_digits (acc : Z) (s : string) : result Z :=
  match s with
  | EmptyString => Ok acc
  | String c s' =>
      let n := nat_of_ascii c in
      if (48 <=? n) && (n <=? 57)
      then decimal_digits (10 * acc + Z.of_nat (n - 48))%Z s'
      else Raise (ValueError "invalid literal for int()")
  end.

Definition decimal_int (s : string) : result Z :=
  match s with
  | EmptyString => Raise (ValueError "invalid literal for int()")
  | _ => decimal_digits 0 s
  end.

Definition tab_s : string := String tab EmptyString.

(** ** Specification vocabulary for the alignment *)

(** The cumulative offsets of a list of groups, starting from [k]: what the
    two alignment loops record before each word. *)
Fixpoint offsets {A} (k : nat) (gs : list (list A)) : list nat :=
  match gs with
  | [] => []
  | g :: gs' => k :: offsets (k + length g) gs'
  end.


(** The word of a line of a block: its first tab-separated field. *)
Definition line_word (line : string) : string :=
  hd EmptyString (split tab (rstrip_nl line)).

(** ** Loading a sequence-tagging file *)

(** [SequenceClassificationWithSubwords.ignore_sample] *)
Definition ignore_sample (sample : SequenceClassificationWithSubwordsDataFields) : bool :=
  500 <? sc_sentence_subword_len sample.

(** [not line.strip()]: the line is blank. *)
Definition blank (line : string) : bool := negb (str_truthy (strip line)).

(** [self.max_samples and len(self.raw) >= self.max_samples]: [None] and [0]
    are both false as a condition. *)
Definition max_samples_reached (max_samples : option Z) (raw_len : nat) : bool :=
  match max_samples with
  | None => false
  | Some k => negb (k =? 0)%Z && (k <=? Z.of_nat raw_len)%Z
  end.

(** [self.max_samples is None or len(self.raw) < self.max_samples] *)
Definition max_samples_room (max_samples : option Z) (raw_len : nat) : bool :=
  match max_samples with
  | None => true
  | Some k => (Z.of_nat raw_len <? k)%Z
  end.

Section LoadStream.

Variable tokenize : string → list string.
Variable max_samples : option Z.

Local Abbreviation sample := SequenceClassificationWithSubwordsDataFields.

(** [sample = create_sentence_from_lines(sent)] followed by the guarded
    [self.raw.append(sample)]. *)
Definition append_sample (raw : list sample) (sent : list string) : list sample :=
  let sample := create_sentence_from_lines tokenize sent in
  if ignore_sample sample then raw else raw ++ [sample].

(** The [for line in stream] loop of [load_stream]; the result is the
    pair [(self.raw, sent)] when the loop is left, by exhaustion or by
    [break] (which skips the reset of [sent]). *)
Fixpoint load_stream_loop (stream : list string) (raw : list sample)
    (sent : list string) : list sample * list string :=
  match stream with
  | [] => (raw, sent)
  | line :: stream' =>
      if blank line then
        match sent with
        | [] => load_stream_loop stream' raw []
        | _ =>
            let raw' := append_sample raw sent in
            if max_samples_reached max_samples (length raw') then (raw', sent)
            else load_stream_loop stream' raw' []
        end
      else load_stream_loop stream' raw (sent ++ [rstrip_nl line])
  end.

(** The statements after the loop: a pending sentence is added when
    there is room left. *)
Definition finish (st : list sample * list string) : list sample :=
  match st.2 with
  | [] => st.1
  | _ => if max_samples_room max_samples (length st.1)
         then append_sample st.1 st.2 else st.1
  end.

(** [SequenceClassificationWithSubwords.load_stream]: the value of
    [self.raw] afterwards. *)
Definition load_stream (stream : list string) : list sample :=
  finish (load_stream_loop stream [] []).

End LoadStream.

(** The blank-line-delimited blocks of a stream, each line without its
    trailing newline: the sentences the file contains. *)
Fixpoint blocks_from (cur : list string) (stream : list string) : list (list string) :=
  match stream with
  | [] => match cur with [] => [] | _ => [cur] end
  | line :: stream' =>
      if blank line then
        match cur with
        | [] => blocks_from [] stream'
        | _ => cur :: blocks_from [] stream'
        end
      else blocks_from (cur ++ [rstrip_nl line]) stream'
  end.

Definition blocks (stream : list string) : list (list string) := blocks_from [] stream.

(** ** Indexing: the part of [to_idx] that follows [super().to_idx()] *)

(** The containers of [self.mtx] that the three [to_idx] methods read or
    rebind once [BaseDataset.to_idx] has built them; every other container
    is left as it is.  The target indices are Python integers of the
    [int64] range: [np.array] makes an [int64] array of them, on which the
    addition wraps around. *)

(** [SequenceClassificationWithSubwords]: token ids and token starts. *)
Record TaggingMtx : Type := {
  tm_tokens : list (list Z);
  tm_token_starts : list (list nat);
}.

(** [SentenceProberDataset]: token ids, token starts and target indices. *)
Record ProberMtx : Type := {
  pm_tokens : list (list Z);
  pm_token_starts : list (list nat);
  pm_target_idx : list Z;
}.

(** [MidSentenceProberDataset]: target indices (there are no token starts). *)
Record MidMtx : Type := {
  mm_target_idx : list Z;
}.

(** [for ti, tokstarts in enumerate(self.mtx.token_starts)] *)
Definition prefixed_token_starts (mtx_tokens : list (list Z))
    (mtx_token_starts : list (list nat)) : result (list (list nat)) :=
  rmapM (λ '(ti, tokstarts),
           toks ← py_index mtx_tokens (Z.of_nat ti);
           let tokstarts := (λ t, t + 1) <$> tokstarts in
           Ok ([0] ++ tokstarts ++ [length toks + 1]))
        (zip (seq 0 (length mtx_token_starts)) mtx_token_starts).

(** [SequenceClassificationWithSubwords.to_idx] *)
Definition SequenceClassificationWithSubwords_to_idx (m : TaggingMtx) : result TaggingMtx :=
  pts ← prefixed_token_starts (tm_tokens m) (tm_token_starts m);
  Ok {| tm_tokens := tm_tokens m; tm_token_starts := pts |}.

(** [SentenceProberDataset.to_idx] *)
Definition SentenceProberDataset_to_idx (m : ProberMtx) : result ProberMtx :=
  pts ← prefixed_token_starts (pm_tokens m) (pm_token_starts m);
  Ok {| pm_tokens := pm_tokens m;
        pm_token_starts := pts;
        pm_target_idx := (λ t, wrap_int64 (t + 1)) <$> pm_target_idx m |}.

(** [MidSentenceProberDataset.to_idx] *)
Definition MidSentenceProberDataset_to_idx (m : MidMtx) : MidMtx :=
  {| mm_target_idx := (λ t, wrap_int64 (t + 1)) <$> mm_target_idx m |}.

(** ** Batching *)

Definition pad : nat := 1000.

(** The body of the [for batch in super().batched_iter(batch_size)] loop
    shared by [SequenceClassificationWithSubwords.batched_iter] and
    [SentenceProberDataset.batched_iter], on the token starts of one batch.
    [max] of an empty sequence raises [ValueError]. *)
Definition pad_token_starts (batch_token_starts : list (list nat))
  : result (list (list nat)) :=
  match batch_token_starts with
  | [] => Raise (ValueError "max() arg is an empty sequence")
  | _ =>
      let maxlen := max_list (length <$> batch_token_starts) in
      Ok ((λ sample, sample ++ replicate (maxlen - length sample) pad)
            <$> batch_token_starts)
  end.

(** A batch as the two subword-aware variants see it: the token starts and,
    for the tagging variant, the per-sentence label ids. *)
Inductive batch_labels : Type :=
  | NoLabels
  | PerSentence (ls : list (list Z))
  | Flat (ls : list Z).

Record DataBatch : Type := {
  db_token_starts : list (list nat);
  db_labels : batch_labels;
}.

(** [SentenceProberDataset.batched_iter], given the batches that
    [super().batched_iter(batch_size)] yields: one outcome per batch. *)
Definition SentenceProberDataset_batched_iter (super_batches : list DataBatch)
  : list (result DataBatch) :=
  (λ b, ts ← pad_token_starts (db_token_starts b);
        Ok {| db_token_starts := ts; db_labels := db_labels b |}) <$> super_batches.

(** [SequenceClassificationWithSubwords.batched_iter]: the same padding,
    then [np.concatenate] of the labels when there are any. *)
Definition SequenceClassificationWithSubwords_batched_iter (super_batches : list DataBatch)
  : list (result DataBatch) :=
  (λ b, ts ← pad_token_starts (db_token_starts b);
        Ok {| db_token_starts := ts;
              db_labels := match db_labels b with
                           | PerSentence (l :: ls) => Flat (concat (l :: ls))
                           | other => other
                           end |}) <$> super_batches.

(** [range(0, n, step)] for a positive step. *)
Definition range_step (n step : nat) : list nat :=
  (λ k, k * step) <$> seq 0 (Nat.div (n + step - 1) step).

Section EmbeddingBatches.

Context {V L : Type}.

(** [EmbeddingProberDataset.batched_iter].  [len_self] is [len(self)],
    [shuffle] the effect of [np.random.shuffle] on [starts] for this
    iteration; [target_word] and [label] are the containers of
    [self.mtx].  A zero batch size makes [range] raise. *)
Definition EmbeddingProberDataset_batched_iter (len_self : nat)
    (is_unlabeled shuffle_batches : bool) (shuffle : list nat → list nat)
    (target_word : list V) (label : list L) (batch_size : nat)
  : result (list (list V * list L)) :=
  match batch_size with
  | 0 => Raise (ValueError "range() arg 3 must not be zero")
  | _ =>
      let starts := range_step len_self batch_size in
      let starts := if negb is_unlabeled && shuffle_batches
                    then shuffle starts else starts in
      Ok ((λ start,
             let end_ := start + batch_size in
             (slice start end_ target_word, slice start end_ label)) <$> starts)
  end.

End EmbeddingBatches.

(** ** Word embeddings *)

Section Embedding.

(** The entries of an embedding vector and Python's [float(s)]. *)
Context {F : Type}.
Variable py_float : string → result F.

Record Embedding : Type := {
  emb_mtx : list (list F);
  emb_vocab : gmap string nat;
}.

(** [self.filter_ and word not in self.filter_]: no filter and an empty
    filter both let every word through. *)
Definition filtered_out (filter_ : option (gset string)) (word : string) : bool :=
  match filter_ with
  | None => false
  | Some f => negb (bool_decide (f = ∅)) && negb (bool_decide (word ∈ f))
  end.

(** One iteration of the loop of [Embedding.load_stream]. *)
Definition emb_step (filter_ : option (gset string)) (e : Embedding) (line : string)
  : result Embedding :=
  let fd := split space (strip line) in
  if length fd =? 2 then Ok e
  else
    let word := hd EmptyString fd in
    if filtered_out filter_ word then Ok e
    else
      row ← rmapM py_float (tail fd);
      Ok {| emb_vocab := <[word := length (emb_mtx e)]> (emb_vocab e);
            emb_mtx := emb_mtx e ++ [row] |}.

Fixpoint emb_loop (filter_ : option (gset string)) (e : Embedding)
    (stream : list string) : result Embedding :=
  match stream with
  | [] => Ok e
  | line :: stream' => e' ← emb_step filter_ e line; emb_loop filter_ e' stream'
  end.

(** [Embedding.load_stream] *)
Definition Embedding_load_stream (filter_ : option (gset string)) (stream : list string)
  : result Embedding :=
  emb_loop filter_ {| emb_mtx := []; emb_vocab := ∅ |} stream.

(** [Embedding.__getitem__] *)
Definition Embedding_getitem (e : Embedding) (key : string) : result (list F) :=
  match emb_vocab e !! key with
  | None => py_index (emb_mtx e) 0
  | Some i => py_index (emb_mtx e) (Z.of_nat i)
  end.

End Embedding.

Arguments Embedding F : clear implicits.

(** The samples of a list of blocks that are not oversized, in order. *)
Definition kept (tokenize : string → list string) (bs : list (list string))
  : list SequenceClassificationWithSubwordsDataFields :=
  filter (λ s, sc_sentence_subword_len s ≤ 500)
         (create_sentence_from_lines tokenize <$> bs).

Definition short_samples (tokenize : string → list string) (stream : list string)
  : list SequenceClassificationWithSubwordsDataFields :=
  kept tokenize (blocks stream).

(** One token-start array after indexing, as the spec words it: every raw
    start moved by one, [0] in front and [token_count + 1] behind. *)
Definition bracketed (tokstarts : list nat) (toks : list Z) : list nat :=
  0 :: ((λ t, t + 1) <$> tokstarts) ++ [length toks + 1].

(** The batch that starts at offset [start]. *)
Definition batch_at {V L} (target_word : list V) (label : list L)
    (batch_size start : nat) : list V * list L :=
  (slice start (start + batch_size) target_word,
   slice start (start + batch_size) label).

(** A line of an embedding file is loaded unless it has exactly two fields
    (the header) or its word is filtered out. *)
Definition loaded_line (filter_ : option (gset string)) (line : string) : bool :=
  let fd := split space (strip line) in
  negb (length fd =? 2) && negb (filtered_out filter_ (hd EmptyString fd)).

(** * The models *)

(** ** Tensors *)

(** The entries of a tensor with the three operations the pooling code
    applies to them: addition, maximum and division by a count (the mean of
    an empty span divides zero by zero).  Nothing is assumed about these
    operations here; what a theorem needs is stated where it is used. *)
Class Scalar (R : Type) : Type := {
  szero : R;
  sadd : R → R → R;
  smax : R → R → R;
  sdivn : R → nat → R;
}.

(** Rational entries: exact arithmetic, used for the worked examples. *)
Global Instance Q_scalar : Scalar Q := {|
  szero := 0%Q;
  sadd := Qplus;
  smax := λ a b, if Qle_bool a b then b else a;
  sdivn := λ a n, (a / inject_Z (Z.of_nat n))%Q;
|}.

(** The index arrays of [a[rows, cols]] are paired up, an array of length
    one being repeated; other length mismatches raise [e]. *)
Definition broadcast2 {A B} (e : exn) (xs : list A) (ys : list B) : result (list (A * B)) :=
  if length xs =? length ys then Ok (zip xs ys)
  else match xs, ys with
       | [x], _ => Ok ((λ y, (x, y)) <$> ys)
       | _, [y] => Ok ((λ x, (x, y)) <$> xs)
       | _, _ => Raise e
       end.

(** [a[rows, cols]] on a two-dimensional array, or on the first two axes of
    a tensor. *)
Definition index2 {A} (a : list (list A)) (rows cols : list Z) : result (list A) :=
  pairs ← broadcast2 IndexError rows cols;
  rmapM (λ '(r, c), row ← py_index a r; py_index row c) pairs.

(** [np.arange(n)] as indices. *)
Definition arange (n : nat) : list Z := Z.of_nat <$> seq 0 n.

Section Reductions.

Context {R : Type} `{Scalar R}.

(** [hidden_size] of the encoder: the length of every vector. *)
Variable hidden_size : nat.

Definition vec : Type := list R.

Definition vadd (u v : vec) : vec := zip_with sadd u v.
Definition vmax (u v : vec) : vec := zip_with smax u v.

(** [t.sum(axis=0)] on a (span, hidden) tensor. *)
Definition sum0 (rows : list vec) : vec :=
  foldl vadd (replicate hidden_size szero) rows.

(** [t.mean(axis=0)] *)
Definition mean0 (rows : list vec) : vec :=
  (λ x, sdivn x (length rows)) <$> sum0 rows.

(** [t.max(axis=0).values]: an empty span has no maximum and raises. *)
Definition max0 (rows : list vec) : result vec :=
  match rows with
  | [] => Raise RuntimeError
  | r :: rows' => Ok (foldl vmax r rows')
  end.

(** [torch.stack(vs)] of a list of vectors raises on the empty list. *)
Definition stack {A} (vs : list A) : result (list A) :=
  match vs with
  | [] => Raise RuntimeError
  | _ => Ok vs
  end.

(** [t.sum(0)] on a stack of equally shaped tensors with at least one
    layer: the layers are added entry by entry. *)
Definition sum_layers2 (ls : list (list vec)) : result (list vec) :=
  match ls with
  | [] => Raise RuntimeError
  | l :: ls' => Ok (foldl (zip_with vadd) l ls')
  end.

Definition sum_layers3 (ls : list (list (list vec))) : result (list (list vec)) :=
  match ls with
  | [] => Raise RuntimeError
  | l :: ls' => Ok (foldl (zip_with (zip_with vadd)) l ls')
  end.

End Reductions.

(** ** Configuration and batches *)

(** [layer_pooling] is an integer or a name. *)
Inductive layer_pooling : Type :=
  | LPInt (i : Z)
  | LPStr (s : string).

(** The keys of the [pooling_func] tables. *)
Inductive strategy : Type :=
  | First | Last | Max | Sum | Avg | Last2 | FirstPlusLast | Lstm | Attn.

(** [self.pooling_func[subword_pooling]]: a dictionary lookup. *)
Definition pooling_func (subword_pooling : string) : result strategy :=
  if String.eqb subword_pooling "first" then Ok First
  else if String.eqb subword_pooling "last" then Ok Last
  else if String.eqb subword_pooling "max" then Ok Max
  else if String.eqb subword_pooling "sum" then Ok Sum
  else if String.eqb subword_pooling "avg" then Ok Avg
  else if String.eqb subword_pooling "last2" then Ok Last2
  else if String.eqb subword_pooling "f+l" then Ok FirstPlusLast
  else if String.eqb subword_pooling "lstm" then Ok Lstm
  else if String.eqb subword_pooling "attn" then Ok Attn
  else Raise (KeyError subword_pooling).

(** A batch as the models read it.  [b_input] is the padded matrix of token
    ids (rows of equal length); [b_input_len] the subword lengths
    ([input_len], alias [sentence_subword_len]); [b_token_starts] the padded
    token-start matrix. *)
Record ModelBatch : Type := {
  b_input : list (list Z);
  b_input_len : list Z;
  b_sentence_len : list nat;
  b_token_starts : list (list nat);
  b_probe_target_idx : list Z;
}.

(** [tuple(np.array(batch.input).flat)] *)
Definition flat (m : list (list Z)) : list Z := concat m.

(** The batches of which [torch.LongTensor] and [np.array] make integer
    tensors: the rows of the token-id matrix have one length, and the token
    ids and the lengths fit [int64].  The models are described on these. *)
Definition rectangular {A} (rows : list (list A)) : bool :=
  match rows with
  | [] => true
  | row :: rows' => forallb (λ r, length r =? length row) rows'
  end.

Definition tensor_rows (rows : list (list Z)) : bool :=
  rectangular rows && forallb (forallb in_int64) rows.

Definition tensor_batch (b : ModelBatch) : bool :=
  tensor_rows (b_input b) && forallb in_int64 (b_input_len b).

(** ** State of a model: the pooling cache and a count of encoder calls *)

Section ModelState.

Context {K : Type} `{Countable K} {C : Type}.

Record model_state : Type := {
  cache : gmap K C;
  encoder_calls : nat;
}.

(** Computations that read and update the model and may raise. *)
Definition M (A : Type) : Type := model_state → result A * model_state.

Definition ret {A} (a : A) : M A := λ st, (Ok a, st).
Definition raise {A} (e : exn) : M A := λ st, (Raise e, st).
Definition lift {A} (r : result A) : M A := λ st, (r, st).
Definition bind {A B} (m : M A) (k : A → M B) : M B :=
  λ st, match m st with
        | (Ok a, st') => k a st'
        | (Raise e, st') => (Raise e, st')
        end.

Definition cache_lookup (key : K) : M (option C) :=
  λ st, (Ok (cache st !! key), st).
Definition cache_store (key : K) (v : C) : M unit :=
  λ st, (Ok tt, {| cache := <[key := v]> (cache st);
                   encoder_calls := encoder_calls st |}).
(** [self._cache[key]] *)
Definition cache_get (key : K) : M C :=
  λ st, match cache st !! key with
        | Some v => (Ok v, st)
        | None => (Raise (KeyError "cache"), st)
        end.
Definition count_encoder_call : M unit :=
  λ st, (Ok tt, {| cache := cache st; encoder_calls := S (encoder_calls st) |}).

End ModelState.

Arguments model_state K {_ _} C.
Arguments M K {_ _} C A.

Global Instance M_ret {K} `{Countable K} {C} : MRet (M K C) := λ A, ret.
Global Instance M_bind {K} `{Countable K} {C} : MBind (M K C) := λ A B k m, bind m k.

(** ** [Embedder] *)

(** [t.size(1)] of the tensor that [torch.LongTensor] makes of a list of
    rows: without any row the tensor has a single dimension, and the call
    raises. *)
Definition size1 {A} (t : list (list A)) : result nat :=
  match t with
  | [] => Raise IndexError
  | row :: _ => Ok (length row)
  end.

(** What [Embedder.embed] returns: a (batch, position, hidden) tensor, or
    for the pooling ['all'] the stack of all layers. *)
Inductive embedded (R : Type) : Type :=
  | E3 (t : list (list (list R)))
  | E4 (t : list (list (list (list R)))).
Arguments E3 {R} t.
Arguments E4 {R} t.

(** What a pooling function returns: one vector per target, or (for stacked
    layers) one matrix per target. *)
Inductive pooled (R : Type) : Type :=
  | P2 (t : list (list R))
  | P3 (t : list (list (list R))).
Arguments P2 {R} t.
Arguments P3 {R} t.

Module Embedder.
Section Embedder.

Context {R : Type} `{Scalar R} {K : Type} `{Countable K}.

(** The pretrained encoder: from the token-id matrix and the sentence
    lengths to the hidden states of all layers ([out[-1]] of the model
    output), or to the exception that the model raises on them. *)
Variable encoder : list (list Z) → list Z → result (list (list (list (list R)))).

(** The trained softmax-weighted sum of the layers
    ([(w[:, None, None, None] * torch.stack(out)).sum(0)]). *)
Variable weighted_sum : list (list (list (list R))) → list (list (list R)).

(** [Embedder.forward]: the width of the batch is read for the mask, then
    the encoder is called once. *)
Definition forward (sentences : list (list Z)) (sentence_lens : list Z)
  : M K (pooled R) (list (list (list (list R)))) :=
  _ ← lift (size1 sentences);
  _ ← count_encoder_call;
  lift (encoder sentences sentence_lens).

(** [Embedder.embed] *)
Definition embed (layer_pooling : layer_pooling) (sentences : list (list Z))
    (sentence_lens : list Z) : M K (pooled R) (embedded R) :=
  out ← forward sentences sentence_lens;
  lift (match layer_pooling with
        | LPStr s =>
            if String.eqb s "weighted_sum" then Ok (E3 (weighted_sum out))
            else if String.eqb s "all" then E4 <$> stack out
            else if String.eqb s "sum" then E3 <$> (stack out ≫= sum_layers3)
            else if String.eqb s "last" then E3 <$> py_index out (-1)
            else if String.eqb s "first" then E3 <$> py_index out 0
            else Raise (ValueError ("Unknown pooling mechanism: " +:+ s))
        | LPInt i => E3 <$> py_index out i
        end).

End Embedder.
End Embedder.

(** ** [TransformerForSequenceTagging] *)

Module TransformerForSequenceTagging.
Section Tagger.

Context {R : Type} `{Scalar R}.
Variable hidden_size : nat.
Variable encoder : list (list Z) → list Z → result (list (list (list (list R)))).
Variable weighted_sum : list (list (list (list R))) → list (list (list R)).

(** [self.config.subword_pooling] and [self.config.layer_pooling] (the
    latter as [Embedder.__init__] stores it). *)
Variable subword_pooling : string.
Variable layer_pooling : layer_pooling.

(** What the code does with a four-dimensional [embedded] (stacked
    layers), which the pooling loops are not written for, and the four
    strategies without cache, beyond their call of [embed]: left
    uninterpreted. *)
Variable pool_stacked : strategy → list (list (list (list R))) → ModelBatch → result (pooled R).
Variable pool_uncached : strategy → embedded R → ModelBatch → result (pooled R).

(** [self.dropout] followed by [self.mlp]. *)
Context {Pred : Type}.
Variable head : pooled R → result Pred.

Local Abbreviation St := (M (list Z) (pooled R)).

(** The branch [subword_pooling in ('first', 'last')] of
    [_forward_with_cache]. *)
Definition pool_first_last (last : bool) (embedded : list (list (list R)))
    (batch : ModelBatch) : result (pooled R) :=
  let batch_size := length (b_input batch) in
  ids ← rmapM (λ bi : nat,
           sentence_len ← py_index (b_sentence_len batch) (Z.of_nat bi);
           row ← py_index (b_token_starts batch) (Z.of_nat bi);
           Ok (replicate sentence_len (Z.of_nat bi),
               if last
               then (λ t, Z.of_nat t - 1)%Z <$> slice 2 (sentence_len + 2) row
               else Z.of_nat <$> slice 1 (sentence_len + 1) row))
         (seq 0 batch_size);
  match ids with
  | [] => Raise (ValueError "need at least one array to concatenate")
  | _ =>
      let batch_ids := concat (fst <$> ids) in
      let token_ids := concat (snd <$> ids) in
      P2 <$> index2 embedded batch_ids token_ids
  end.

(** The branch [subword_pooling in ('max', 'avg', 'sum')]. *)
Definition pool_span (s : strategy) (embedded : list (list (list R)))
    (batch : ModelBatch) : result (pooled R) :=
  let batch_size := length (b_input batch) in
  outs ← rmapM (λ bi : nat,
           sentence_len ← py_index (b_sentence_len batch) (Z.of_nat bi);
           rmapM (λ ti : nat,
               row ← py_index (b_token_starts batch) (Z.of_nat bi);
               first ← py_index row (Z.of_nat (ti + 1));
               row' ← py_index (b_token_starts batch) (Z.of_nat bi);
               last ← py_index row' (Z.of_nat (ti + 2));
               sent ← py_index embedded (Z.of_nat bi);
               let span := slice first last sent in
               match s with
               | Sum => Ok (sum0 hidden_size span)
               | Avg => Ok (mean0 hidden_size span)
               | Max => max0 span
               | _ => Raise UnboundLocalError
               end)
             (seq 0 sentence_len))
         (seq 0 batch_size);
  P2 <$> stack (concat outs).

(** [_forward_with_cache], entered for one of the five cached strategies. *)
Definition _forward_with_cache (s : strategy) (batch : ModelBatch) : St (pooled R) :=
  let cache_key := flat (b_input batch) in
  hit ← cache_lookup cache_key;
  _ ← match hit with
      | Some _ => mret tt
      | None =>
          embedded ← Embedder.embed encoder weighted_sum layer_pooling
                       (b_input batch) (b_input_len batch);
          out ← lift (match embedded with
                      | E3 e =>
                          match s with
                          | First => pool_first_last false e batch
                          | Last => pool_first_last true e batch
                          | Max | Sum | Avg => pool_span s e batch
                          | _ => Raise UnboundLocalError
                          end
                      | E4 e => pool_stacked s e batch
                      end);
          cache_store cache_key out
      end;
  cache_get cache_key.

(** The strategies without cache all begin with a call of [embed]. *)
Definition _forward_uncached (s : strategy) (batch : ModelBatch) : St (pooled R) :=
  embedded ← Embedder.embed encoder weighted_sum layer_pooling
               (b_input batch) (b_input_len batch);
  lift (pool_uncached s embedded batch).

(** The pooling step of [forward]:
    [out = self.pooling_func[subword_pooling](batch)]. *)
Definition pool (batch : ModelBatch) : St (pooled R) :=
  s ← lift (pooling_func subword_pooling);
  match s with
  | First | Last | Max | Sum | Avg => _forward_with_cache s batch
  | _ => _forward_uncached s batch
  end.

(** [TransformerForSequenceTagging.forward] *)
Definition forward (batch : ModelBatch) : St Pred :=
  out ← pool batch;
  lift (head out).

End Tagger.
End TransformerForSequenceTagging.

(** ** [SentenceRepresentationProber] *)

Module SentenceRepresentationProber.
Section Prober.

Context {R : Type} `{Scalar R}.
Variable hidden_size : nat.
Variable encoder : list (list Z) → list Z → result (list (list (list (list R)))).
Variable weighted_sum : list (list (list (list R))) → list (list (list R)).

(** [self.config.subword_pooling], [self.layer_pooling] (taken from the
    configuration as it is) and [self.config.shift_target]. *)
Variable subword_pooling : string.
Variable layer_pooling : layer_pooling.
Variable shift_target : Z.

(** The exception torch raises when a tensor is indexed by a string. *)
Variable str_index_error : string → exn.

(** [(w[:, None, None] * target_vecs).sum(0)] with the trained weights,
    and the strategies other than the five of this development. *)
Variable apply_layer_weights : pooled R → pooled R.
Variable pool_other : strategy → list (list (list R)) → ModelBatch → result (pooled R).

(** [self.mlp] *)
Context {Pred : Type}.
Variable head : pooled R → result Pred.

Local Abbreviation St := (M (list Z * list Z) (pooled R)).

(** [_forward_elementwise_pool]: the two [if] statements of the loop body
    follow each other, so the value bound by the first is always
    rebound by the [if]/[else] that comes second. *)
Definition _forward_elementwise_pool (embedded : list (list (list R)))
    (batch : ModelBatch) : result (pooled R) :=
  let batch_size := length embedded in
  let helper := arange batch_size in
  let target_idx := b_probe_target_idx batch in
  last ← index2 (b_token_starts batch) helper ((λ t, t + 1)%Z <$> target_idx);
  first ← index2 (b_token_starts batch) helper target_idx;
  target_vecs ← rmapM (λ wi : nat,
      f ← py_index first (Z.of_nat wi);
      l ← py_index last (Z.of_nat wi);
      sent ← py_index embedded (Z.of_nat wi);
      let span := slice f l sent in
      o ← (if String.eqb subword_pooling "max" then Some <$> max0 span else Ok None);
      let o := if String.eqb subword_pooling "sum"
               then sum0 hidden_size span
               else mean0 hidden_size span in
      Ok o)
    (seq 0 batch_size);
  P2 <$> stack target_vecs.

(** [shift_max = np.array(batch.input_len) - 1], the in-place
    [idx += shift_target] on the [int64] array of indices (which wraps
    around, and refuses a shift outside [int64]), [np.minimum(idx,
    shift_max)] and [np.clip(idx, 0, shift_max.max())]. *)
Definition shift_and_clamp (idx : list Z) (input_len : list Z) : result (list Z) :=
  let shift_max : list Z := (λ n, wrap_int64 (n - 1)) <$> input_len in
  shifted ← (if in_int64 shift_target
             then Ok ((λ i, wrap_int64 (i + shift_target)) <$> idx)
             else Raise OverflowError);
  pairs ← broadcast2 (ValueError "operands could not be broadcast together")
            shifted shift_max;
  let lowered : list Z := (λ p : Z * Z, Z.min p.1 p.2) <$> pairs in
  match shift_max with
  | [] => Raise (ValueError "zero-size array to reduction operation maximum")
  | m :: ms =>
      let top := foldl Z.max m ms in
      Ok ((λ i, Z.min (Z.max i 0) top) <$> lowered)
  end.

(** The layer pooling applied to the gathered target vectors before they
    are stored. *)
Definition pool_layers (target_vecs : list (list (list R))) : result (pooled R) :=
  match layer_pooling with
  | LPStr s =>
      if String.eqb s "weighted_sum" then Ok (P3 target_vecs)
      else if String.eqb s "sum" then P2 <$> sum_layers2 target_vecs
      else Raise (str_index_error s)
  | LPInt i => P2 <$> py_index target_vecs i
  end.

(** The weighting of the layers that follows the cache. *)
Definition finish_layers (target_vecs : pooled R) : pooled R :=
  match layer_pooling with
  | LPStr s => if String.eqb s "weighted_sum"
               then apply_layer_weights target_vecs else target_vecs
  | LPInt _ => target_vecs
  end.

(** [_forward_first_last] *)
Definition _forward_first_last (batch : ModelBatch) : St (pooled R) :=
  let cache_key := (flat (b_input batch), b_probe_target_idx batch) in
  hit ← cache_lookup cache_key;
  _ ← match hit with
      | Some _ => mret tt
      | None =>
          embedded ← Embedder.embed encoder weighted_sum (LPStr "all")
                       (b_input batch) (b_input_len batch);
          target_vecs ← lift (
            layers ← match embedded with
                     | E4 e => Ok e
                     | E3 _ => Raise RuntimeError
                     end;
            first_layer ← py_index layers 0;
            let batch_size := length first_layer in
            let helper := arange batch_size in
            let target_idx := b_probe_target_idx batch in
            idx ← (if String.eqb subword_pooling "first"
                   then fmap Z.of_nat <$> index2 (b_token_starts batch) helper target_idx
                   else if String.eqb subword_pooling "last"
                   then fmap (λ t, Z.of_nat t - 1)%Z
                          <$> index2 (b_token_starts batch) helper
                                ((λ t, t + 1)%Z <$> target_idx)
                   else Raise (ValueError ("Subword pooling " +:+ subword_pooling
                                 +:+ " with caching is not supported.")));
            idx ← (if (shift_target =? 0)%Z then Ok idx
                   else shift_and_clamp idx (b_input_len batch));
            tv ← rmapM (λ layer, index2 layer helper idx) layers;
            pool_layers tv);
          cache_store cache_key target_vecs
      end;
  target_vecs ← cache_get cache_key;
  mret (finish_layers target_vecs).

(** [embedded.sum(0)] or [embedded[self.layer_pooling]] on the stack of
    layers. *)
Definition select_layer (embedded : embedded R) : result (list (list (list R))) :=
  layers ← match embedded with
           | E4 e => Ok e
           | E3 _ => Raise RuntimeError
           end;
  match layer_pooling with
  | LPStr s =>
      if String.eqb s "sum" then sum_layers3 layers
      else Raise (str_index_error s)
  | LPInt i => py_index layers i
  end.

(** The [else] branch of [forward]: no cache. *)
Definition _forward_uncached (batch : ModelBatch) : St (pooled R) :=
  embedded ← Embedder.embed encoder weighted_sum (LPStr "all")
               (b_input batch) (b_input_len batch);
  embedded ← lift (select_layer embedded);
  s ← lift (pooling_func subword_pooling);
  lift (match s with
        | Max | Sum | Avg => _forward_elementwise_pool embedded batch
        | other => pool_other other embedded batch
        end).

(** The pooling step of [forward]. *)
Definition pool (batch : ModelBatch) : St (pooled R) :=
  if String.eqb subword_pooling "first" || String.eqb subword_pooling "last"
  then _ ← lift (pooling_func subword_pooling); _forward_first_last batch
  else _forward_uncached batch.

(** [SentenceRepresentationProber.forward] *)
Definition forward (batch : ModelBatch) : St Pred :=
  target_vecs ← pool batch;
  lift (head target_vecs).

End Prober.
End SentenceRepresentationProber.

(** ** Specification vocabulary for the pooling *)

(** [v] is the element-wise maximum of the vectors [rows] for the order
    [sle]: each entry of [v] occurs at its position in one of the vectors
    and bounds that position of every vector. *)
Definition elementwise_max {R} (sle : R → R → Prop) (rows : list (list R))
    (v : list R) : Prop :=
  ∀ j x, v !! j = Some x →
    (∃ r, r ∈ rows ∧ r !! j = Some x)
    ∧ ∀ r, r ∈ rows → ∃ y, r !! j = Some y ∧ sle y x.

(** A worked batch: one sentence of one word whose two subwords have the
    vectors (1, 5) and (3, 2), between the start and end markers. *)
Definition ex_embedded : list (list (list Q)) :=
  [[[0; 0]; [1; 5]; [3; 2]; [0; 0]]]%Q.

Definition ex_batch : ModelBatch :=
  {| b_input := [[101; 7; 8; 102]%Z];
     b_input_len := [4%Z];
     b_sentence_len := [1];
     b_token_starts := [[0; 1; 3; 5]];
     b_probe_target_idx := [1%Z] |}.

(** Worked inputs for the data side. *)
Definition bow_line : string := "a bb" +:+ tab_s +:+ "a" +:+ tab_s +:+ "0".

Definition emb_example : Embedding Z :=
  {| emb_mtx := [[1; 2]%Z; [3; 4]%Z]; emb_vocab := {[ "cat" := 0; "dog" := 1 ]} |}.

Definition sample_line : string :=
  "a bb ccc" +:+ tab_s +:+ "bb" +:+ tab_s +:+ "1".

Definition mtx_example : ProberMtx :=
  {| pm_tokens := [[101; 7; 8; 8; 9; 9; 9; 102]%Z];
     pm_token_starts := [[0; 1; 3; 6]];
     pm_target_idx := [1%Z] |}.

(** A stub encoder with a single layer, and stand-ins for the trained
    parts, for the worked examples. *)
Definition ex_encoder (sentences : list (list Z)) (lens : list Z)
  : result (list (list (list (list Q)))) := Ok [ex_embedded].

Definition ex_weighted_sum (out : list (list (list (list Q)))) : list (list (list Q)) :=
  default [] (head out).

Definition no_pool4 (s : strategy) (e : list (list (list (list Q)))) (b : ModelBatch)
  : result (pooled Q) := Raise RuntimeError.
Definition no_pool_e (s : strategy) (e : embedded Q) (b : ModelBatch)
  : result (pooled Q) := Raise RuntimeError.
Definition no_pool3 (s : strategy) (e : list (list (list Q))) (b : ModelBatch)
  : result (pooled Q) := Raise RuntimeError.

Definition empty_state {K} `{Countable K} : model_state K (pooled Q) :=
  {| cache := ∅; encoder_calls := 0 |}.

(** The tagger and the prober of the examples, by subword pooling. *)
Definition ex_tagger_pool (subword_pooling : string) :=
  TransformerForSequenceTagging.pool 2 ex_encoder ex_weighted_sum subword_pooling
    (LPStr "last") no_pool4 no_pool_e.

Definition ex_prober_pool (subword_pooling : string) :=
  SentenceRepresentationProber.pool 2 ex_encoder ex_weighted_sum subword_pooling
    (LPInt 0) 0 (λ _, TypeError "string index") id no_pool3.

(** The names the two dispatches know. *)
Definition layer_pooling_names : list string :=
  ["weighted_sum"; "all"; "sum"; "last"; "first"].

Definition subword_pooling_names : list string :=
  ["first"; "last"; "max"; "sum"; "avg"; "last2"; "f+l"; "lstm"; "attn"].

(** The model after one more call of the encoder. *)
Definition after_encoder_call {K} `{Countable K} {C} (st : model_state K C)
  : model_state K C :=
  {| cache := cache st; encoder_calls := S (encoder_calls st) |}.


(** * Further functions of the two modules *)

(** ** [MidSentenceProberDataset.extract_sample_from_line] *)

(** [MidSequenceProberFields]; [list(raw_sent)] is the list of the
    characters of the sentence. *)
Record MidSequenceProberFields : Type := {
  mid_raw_sentence : string;
  mid_raw_target : string;
  mid_raw_idx : Z;
  mid_input : list ascii;
  mid_input_len : nat;
  mid_target_idx : Z;
  mid_label : option string;
}.

(** [l[:k]]: a negative bound counts from the end. *)
Definition py_take {A} (k : Z) (l : list A) : list A :=
  if (k <? 0)%Z then take (Z.to_nat (Z.of_nat (length l) + k)) l
  else take (Z.to_nat k) l.

(** [sum(len(w) for w in ws)] *)
Definition sum_len (ws : list string) : nat :=
  sum_list_with String.length ws.

Section MidExtraction.

Variable py_int : string → result Z.

(** [probe_first_char] is [self.config.probe_first_char]. *)
Definition Mid_extract_sample_from_line (probe_first_char : bool) (line : string)
  : result MidSequenceProberFields :=
  let fd := split tab (rstrip_nl line) in
  match take 3 fd with
  | [raw_sent; raw_tgt; raw_idx_s] =>
      let label := fd !! 3 in
      raw_idx ← py_int raw_idx_s;
      let input := list_ascii_of_string raw_sent in
      let words := split space raw_sent in
      let target_idx :=
        if probe_first_char
        then (Z.of_nat (sum_len (py_take raw_idx words)) + raw_idx)%Z
        else (Z.of_nat (sum_len (py_take raw_idx words)) + raw_idx
              + Z.of_nat (String.length raw_tgt) - 1)%Z in
      Ok {| mid_raw_sentence := raw_sent;
            mid_raw_target := raw_tgt;
            mid_raw_idx := raw_idx;
            mid_input := input;
            mid_input_len := length input;
            mid_target_idx := target_idx;
            mid_label := label |}
  | _ => Raise (ValueError "not enough values to unpack")
  end.

End MidExtraction.

(** The characters of words joined by single separators. *)
Fixpoint join_chars (sep : ascii) (ws : list string) : list ascii :=
  match ws with
  | [] => []
  | [w] => list_ascii_of_string w
  | w :: ws' => list_ascii_of_string w ++ sep :: join_chars sep ws'
  end.

Definition mid_line : string :=
  "a bb ccc" +:+ tab_s +:+ "bb" +:+ tab_s +:+ "1".

(** ** Words of an embedding file *)

(** The word of a line of an embedding file: its first field. *)
Definition emb_word (line : string) : string :=
  hd EmptyString (split space (strip line)).

(** Every index of the vocabulary designates a row of the matrix. *)
Definition vocab_in_range {F} (e : Embedding F) : Prop :=
  ∀ w i, emb_vocab e !! w = Some i → i < length (emb_mtx e).

Definition emb_file_example : list string := ["2 2"; "cat 1 2"; "dog 3 4"; "cat 5 6"].

(** A sample made from a non-empty block, and not oversized. *)
Definition loaded_ok (tokenize : string → list string)
    (s : SequenceClassificationWithSubwordsDataFields) : Prop :=
  ∃ b, b ≠ [] ∧ s = create_sentence_from_lines tokenize b
       ∧ sc_sentence_subword_len s ≤ 500.

(** ** Printing samples *)

Definition newline_s : string := String newline EmptyString.

(** [c in s] *)
Fixpoint has_char (c : ascii) (s : string) : bool :=
  match s with
  | EmptyString => false
  | String d s' => Ascii.eqb d c || has_char c s'
  end.

(** ["{}".format(label)]: [None] is written as the word None. *)
Definition format_label (label : option string) : string := default "None" label.

Section Printing.

(** ["{}".format(i)] for an integer. *)
Variable py_str : Z → string.

(** [SentenceProberDataset.print_sample]: the text written to the stream. *)
Definition SentenceProberDataset_print_sample (sample : TokenInSequenceProberFields)
  : string :=
  raw_sentence sample +:+ tab_s +:+ raw_target sample +:+ tab_s
  +:+ py_str (raw_idx sample) +:+ tab_s +:+ format_label (label sample) +:+ newline_s.

End Printing.

(** The sample with another label. *)
Definition with_label (s : TokenInSequenceProberFields) (l : option string)
  : TokenInSequenceProberFields :=
  {| raw_sentence := raw_sentence s; raw_target := raw_target s; raw_idx := raw_idx s;
     tokens := tokens s; num_tokens := num_tokens s; target_idx := target_idx s;
     label := l; token_starts := token_starts s |}.

(** Fields joined by tabs. *)
Fixpoint tab_join (fs : list string) : string :=
  match fs with
  | [] => EmptyString
  | [f] => f
  | f :: fs' => f +:+ String tab (tab_join fs')
  end.

(** A decimal rendering of the integers 0-9, for the worked examples. *)
Definition digit_str (k : Z) : string :=
  String (ascii_of_nat (48 + Z.to_nat k)) EmptyString.

(** ** How a call may change the model *)

(** From [st] to [st']: at most one more encoder call, no entry of the
    cache changed or removed, and no entry added except under [key]. *)
Definition cache_step {K} `{Countable K} {C} (key : K)
    (st st' : model_state K C) : Prop :=
  encoder_calls st ≤ encoder_calls st'
  ∧ encoder_calls st' ≤ S (encoder_calls st)
  ∧ (∀ k v, cache st !! k = Some v → cache st' !! k = Some v)
  ∧ (∀ k, k ≠ key → cache st' !! k = cache st !! k).

(** ** Shapes *)

(** Every vector of a (batch, position, hidden) tensor has [h] entries. *)
Definition well_shaped {R} (h : nat) (e : list (list (list R))) : Prop :=
  ∀ sent v, sent ∈ e → v ∈ sent → length v = h.

(** ** The 'last2' pooling *)

Section Last2.

Context {R : Type} `{Scalar R}.

(** [hidden_size] as [embedded.size()] gives it. *)
Variable hidden_size : nat.

(** [SentenceRepresentationProber._forward_last2] *)
Definition prober_forward_last2 (embedded : list (list (list R)))
    (batch : ModelBatch) : result (pooled R) :=
  let batch_size := length embedded in
  let helper := arange batch_size in
  let target_idx := b_probe_target_idx batch in
  last ← fmap (λ t, Z.of_nat t - 1)%Z
         <$> index2 (b_token_starts batch) helper ((λ t, t + 1)%Z <$> target_idx);
  first ← fmap Z.of_nat <$> index2 (b_token_starts batch) helper target_idx;
  target_vecs ← rmapM (λ wi : nat,
      l ← py_index last (Z.of_nat wi);
      sent ← py_index embedded (Z.of_nat wi);
      last1 ← py_index sent l;
      f ← py_index first (Z.of_nat wi);
      last2 ← (if (f =? l)%Z then Ok (replicate (length last1) szero)
               else py_index sent (l - 1)%Z);
      Ok (last1 ++ last2))
    (seq 0 batch_size);
  P2 <$> stack target_vecs.

(** The loop of [TransformerForSequenceTagging._forward_last2] on the
    three-dimensional tensor that [embed] returned. *)
Definition tagger_forward_last2 (embedded : list (list (list R)))
    (batch : ModelBatch) : result (pooled R) :=
  let batch_size := length embedded in
  outs ← rmapM (λ bi : nat,
           sentence_len ← py_index (b_sentence_len batch) (Z.of_nat bi);
           rmapM (λ ti : nat,
               row ← py_index (b_token_starts batch) (Z.of_nat bi);
               first ← py_index row (Z.of_nat (ti + 1));
               row' ← py_index (b_token_starts batch) (Z.of_nat bi);
               l ← py_index row' (Z.of_nat (ti + 2));
               let last := (Z.of_nat l - 1)%Z in
               sent ← py_index embedded (Z.of_nat bi);
               last1 ← py_index sent last;
               if (Z.of_nat first =? last)%Z
               then Ok (last1 ++ replicate hidden_size szero)
               else last2 ← py_index sent (last - 1)%Z; Ok (last1 ++ last2))
             (seq 0 sentence_len))
         (seq 0 batch_size);
  P2 <$> stack (concat outs).

(** The last vector of a span followed by the one before it, or by zeros
    when the span has a single vector. *)
Definition last_two (span : list (list R)) : option (list R) :=
  match reverse span with
  | [] => None
  | [x] => Some (x ++ replicate (length x) szero)
  | x :: y :: _ => Some (x ++ y)
  end.

End Last2.

(** ** Decoding the output of the tagger *)

(** [sample.labels = labels] *)
Definition set_labels (sample : SequenceClassificationWithSubwordsDataFields)
    (labels : list string) : SequenceClassificationWithSubwordsDataFields :=
  {| sc_raw_sentence := sc_raw_sentence sample;
     sc_labels := Some labels;
     sc_sentence_len := sc_sentence_len sample;
     sc_tokens := sc_tokens sample;
     sc_sentence_subword_len := sc_sentence_subword_len sample;
     sc_token_starts := sc_token_starts sample |}.

Section Decode.

(** A row of [model_output], and
    [self.vocabs.labels.inv_lookup(row.argmax())]. *)
Context {Row : Type}.
Variable label_of : Row → result string.

(** The loop of [SequenceClassificationWithSubwords.decode] from one
    sample on, [offset] being the rows already read.  The outcome of a
    completed loop is the list of the samples with their new labels. *)
Fixpoint decode_loop (model_output : list Row) (offset : nat)
    (raw : list SequenceClassificationWithSubwordsDataFields)
  : result (list SequenceClassificationWithSubwordsDataFields) :=
  match raw with
  | [] => Ok []
  | sample :: raw' =>
      labels ← rmapM (λ ti : nat,
                  row ← py_index model_output (Z.of_nat (offset + ti));
                  label_of row)
                (seq 0 (sc_sentence_len sample));
      rest ← decode_loop model_output (offset + sc_sentence_len sample) raw';
      Ok (set_labels sample labels :: rest)
  end.

(** [SequenceClassificationWithSubwords.decode] *)
Definition SequenceClassificationWithSubwords_decode (model_output : list Row)
    (raw : list SequenceClassificationWithSubwordsDataFields)
  : result (list SequenceClassificationWithSubwordsDataFields) :=
  decode_loop model_output 0 raw.

End Decode.

(** A sentence of two words and one of one word, and rows that are the
    labels themselves. *)
Definition decode_example : list SequenceClassificationWithSubwordsDataFields :=
  [ {| sc_raw_sentence := ["a"; "b"]; sc_labels := None; sc_sentence_len := 2;
       sc_tokens := ["[CLS]"; "a"; "b"; "[SEP]"]; sc_sentence_subword_len := 4;
       sc_token_starts := [0; 1; 2; 3] |};
    {| sc_raw_sentence := ["c"]; sc_labels := None; sc_sentence_len := 1;
       sc_tokens := ["[CLS]"; "c"; "[SEP]"]; sc_sentence_subword_len := 3;
       sc_token_starts := [0; 1; 2] |} ].
(** * Properties of raw sample extraction *)

Lemma length_offsets {A} k (gs : list (list A)) :
  length (offsets k gs) = length gs.
Proof. revert k; induction gs as [|g gs IH]; intros k; simpl; [done|]. by rewrite IH. Qed.

Lemma offsets_app {A} k (gs hs : list (list A)) :
  offsets k (gs ++ hs) = offsets k gs ++ offsets (k + length (concat gs)) hs.
Proof.
  revert k; induction gs as [|g gs IH]; intros k; simpl.
  - by rewrite Nat.add_0_r.
  - rewrite IH, length_app. do 3 f_equal. lia.
Qed.

Lemma offsets_lookup {A} k (gs : list (list A)) i :
  i < length gs →
  offsets k gs !! i = Some (k + length (concat (take i gs))).
Proof.
  revert k i; induction gs as [|g gs IH]; intros k i Hi; simpl in *; [lia|].
  destruct i as [|i]; simpl.
  - by rewrite Nat.add_0_r.
  - rewrite IH by lia. rewrite length_app. f_equal. lia.
Qed.

Lemma offsets_closed_lookup {A} (gs : list (list A)) i :
  i ≤ length gs →
  (offsets 0 gs ++ [length (concat gs)]) !! i = Some (length (concat (take i gs))).
Proof.
  intros Hi. destruct (decide (i = length gs)) as [->|Hne].
  - rewrite lookup_app_r by (rewrite length_offsets; lia).
    rewrite length_offsets, Nat.sub_diag. simpl. by rewrite firstn_all.
  - rewrite lookup_app_l by (rewrite length_offsets; lia).
    by rewrite offsets_lookup by lia.
Qed.

Lemma concat_take_S {A} (gs : list (list A)) i g :
  gs !! i = Some g → concat (take (S i) gs) = concat (take i gs) ++ g.
Proof.
  intros Hg. rewrite (take_S_r _ _ _ Hg), concat_app. simpl. by rewrite app_nil_r.
Qed.

(** The span between two consecutive closed offsets is the group itself. *)
Lemma slice_concat_group {A} (gs : list (list A)) i g :
  gs !! i = Some g →
  slice (length (concat (take i gs))) (length (concat (take (S i) gs))) (concat gs) = g.
Proof.
  intros Hg. unfold slice.
  rewrite (concat_take_S _ _ _ Hg), length_app.
  replace (length (concat (take i gs)) + length g - length (concat (take i gs)))
    with (length g) by lia.
  rewrite <- (take_drop_middle gs i g Hg) at 2.
  rewrite concat_app. simpl.
  rewrite drop_app_length. by rewrite take_app_length.
Qed.


Section ExtractionFacts.

Variable tokenize : string → list string.
Variable MASK : string.
Variable py_int : string → result Z.

Lemma csfl_loop lines st :
  st_sent (foldl (csfl_step tokenize) st lines)
    = st_sent st ++ (line_word <$> lines)
  ∧ st_subwords (foldl (csfl_step tokenize) st lines)
    = st_subwords st ++ concat ((λ l, tokenize (line_word l)) <$> lines)
  ∧ st_token_starts (foldl (csfl_step tokenize) st lines)
    = st_token_starts st
      ++ offsets (length (st_subwords st)) ((λ l, tokenize (line_word l)) <$> lines).
Proof.
  revert st; induction lines as [|l lines IH]; intros st; simpl.
  - by rewrite !app_nil_r.
  - destruct (IH (csfl_step tokenize st l)) as (-> & -> & ->).
    simpl. fold (line_word l).
    rewrite <- !app_assoc, length_app. done.
Qed.

Lemma merge_loop (gs : list (list string)) acc :
  foldl merge_step acc gs
  = (acc.1 ++ concat gs, acc.2 ++ offsets (length acc.1) gs).
Proof.
  revert acc; induction gs as [|g gs IH]; intros [m ts]; simpl.
  - by rewrite !app_nil_r.
  - rewrite IH. unfold merge_step; simpl.
    by rewrite <- !app_assoc, length_app.
Qed.

Lemma merge_pieces_spec (gs : list (list string)) :
  merge_pieces gs = (concat gs, offsets 0 gs).
Proof. unfold merge_pieces. by rewrite merge_loop. Qed.

End ExtractionFacts.

(** ** Facts about [argsort] and the monadic list loop *)

Lemma argsort_insert_perm a i l : argsort_insert a i l ≡ₚ i :: l.
Proof.
  induction l as [|j l IH]; simpl; [done|].
  destruct (_ <=? _); [|done].
  rewrite IH. apply perm_swap.
Qed.

Lemma argsort_fold_perm a l acc :
  foldl (λ acc i, argsort_insert a i acc) acc l ≡ₚ acc ++ l.
Proof.
  revert acc; induction l as [|i l IH]; intros acc; simpl.
  - by rewrite app_nil_r.
  - rewrite IH, argsort_insert_perm. simpl. apply Permutation_middle.
Qed.

Lemma argsort_perm a : argsort a ≡ₚ seq 0 (length a).
Proof. unfold argsort. by rewrite argsort_fold_perm. Qed.


Lemma argsort_bound a i t : argsort a !! i = Some t → t < length a.
Proof.
  intros Ht. apply list_elem_of_lookup_2 in Ht.
  rewrite argsort_perm in Ht. apply elem_of_seq in Ht. lia.
Qed.

Lemma rmapM_length {A B} (f : A → result B) xs ys :
  rmapM f xs = Ok ys → length ys = length xs.
Proof.
  revert ys; induction xs as [|x xs IH]; intros ys; simpl.
  - by intros [= <-].
  - destruct (f x); simpl; [|done].
    destruct (rmapM f xs); simpl; [|done].
    intros [= <-]. simpl. by rewrite (IH _ eq_refl).
Qed.



Lemma py_index_nat {A} (l : list A) (i : nat) :
  py_index l (Z.of_nat i) = match l !! i with Some x => Ok x | None => Raise IndexError end.
Proof.
  unfold py_index. cbv zeta.
  destruct (Z.of_nat i <? 0)%Z eqn:Hneg; [apply Z.ltb_lt in Hneg; lia|].
  rewrite Hneg. by rewrite Nat2Z.id.
Qed.

Section ExtractFacts.

Variable tokenize : string → list string.
Variable MASK : string.
Variable py_int : string → result Z.




End ExtractFacts.

(** ** Token starts of the two extraction paths *)

Lemma create_sentence_spec tokenize lines :
  let s := create_sentence_from_lines tokenize lines in
  let gs := (λ l, tokenize (line_word l)) <$> lines in
  sc_raw_sentence s = (line_word <$> lines)
  ∧ sc_tokens s = concat gs
  ∧ sc_token_starts s = offsets 0 gs ++ [length (concat gs)]
  ∧ sc_sentence_len s = length lines
  ∧ sc_sentence_subword_len s = length (sc_tokens s).
Proof.
  unfold create_sentence_from_lines. simpl.
  destruct (csfl_loop tokenize lines csfl_init) as (-> & -> & ->). simpl.
  by rewrite length_fmap.
Qed.




(** ** Loading and the length limit *)

Section LoadStreamFacts.

Variable tokenize : string → list string.

Local Abbreviation sample := SequenceClassificationWithSubwordsDataFields.

Lemma append_sample_kept raw sent :
  append_sample tokenize raw sent = raw ++ kept tokenize [sent].
Proof.
  unfold append_sample, kept, ignore_sample.
  rewrite fmap_cons, fmap_nil, filter_cons, filter_nil.
  set (s := create_sentence_from_lines tokenize sent).
  destruct (500 <? _) eqn:Hlt.
  - apply Nat.ltb_lt in Hlt. rewrite decide_False by lia. by rewrite app_nil_r.
  - apply Nat.ltb_ge in Hlt. by rewrite decide_True by lia.
Qed.

Lemma kept_cons b bs : kept tokenize (b :: bs) = kept tokenize [b] ++ kept tokenize bs.
Proof. unfold kept. rewrite !fmap_cons, fmap_nil, !filter_cons, filter_nil.
       by destruct (decide _). Qed.

Lemma length_kept_one b : length (kept tokenize [b]) ≤ 1.
Proof. unfold kept. rewrite fmap_cons, fmap_nil, filter_cons, filter_nil.
       destruct (decide _); simpl; lia. Qed.

(** Without a sample limit the loop never breaks. *)
Lemma load_loop_unlimited stream raw sent :
  finish tokenize None (load_stream_loop tokenize None stream raw sent)
  = raw ++ kept tokenize (blocks_from sent stream).
Proof.
  revert raw sent; induction stream as [|line stream IH]; intros raw sent; simpl.
  - unfold finish; simpl. destruct sent; simpl.
    + by rewrite app_nil_r.
    + apply append_sample_kept.
  - destruct (blank line).
    + destruct sent as [|l sent]; [apply IH|].
      rewrite IH, append_sample_kept, (kept_cons (l :: sent) (blocks_from [] stream)).
      by rewrite app_assoc.
    + apply IH.
Qed.

(** With a positive limit [k], the loop keeps fewer than [k] samples until
    it breaks with exactly [k]. *)
Lemma load_loop_limited (k : Z) stream raw sent :
  (Z.of_nat (length raw) < k)%Z →
  finish tokenize (Some k) (load_stream_loop tokenize (Some k) stream raw sent)
  = take (Z.to_nat k) (raw ++ kept tokenize (blocks_from sent stream)).
Proof.
  revert raw sent; induction stream as [|line stream IH]; intros raw sent Hlt; simpl.
  - unfold finish; simpl. destruct sent as [|l sent]; simpl.
    + rewrite app_nil_r. by rewrite take_ge by lia.
    + destruct (Z.ltb_spec (Z.of_nat (length raw)) k); [|lia].
      rewrite append_sample_kept.
      pose proof (length_kept_one (l :: sent)).
      rewrite take_ge; [done|]. rewrite length_app. lia.
  - destruct (blank line).
    + destruct sent as [|l sent]; [by apply IH|].
      rewrite (kept_cons (l :: sent) (blocks_from [] stream)), app_assoc,
        <- append_sample_kept.
      pose proof (length_kept_one (l :: sent)) as Hone.
      assert (length (append_sample tokenize raw (l :: sent)) ≤ length raw + 1) as Hle.
      { rewrite append_sample_kept, length_app. lia. }
      unfold max_samples_reached.
      destruct (Z.eqb_spec k 0); [lia|]. simpl.
      destruct (Z.leb_spec k (Z.of_nat (length (append_sample tokenize raw (l :: sent))))).
      * unfold finish; simpl.
        destruct (Z.ltb_spec (Z.of_nat (length (append_sample tokenize raw (l :: sent)))) k);
          [lia|].
        rewrite take_app_le by lia. by rewrite take_ge by lia.
      * by apply IH.
    + by apply IH.
Qed.

End LoadStreamFacts.

(** C5 (as amended).  [load_stream] drops every sample of more than 500
    subwords and raises nothing (it is a total function).  Without a sample
    limit the raw list is exactly the samples of at most 500 subwords, in
    input order; with a limit of [k >= 1] samples it is the first [k] of
    them. *)
Theorem load_stream_drops_oversized tokenize stream :
  load_stream tokenize None stream = short_samples tokenize stream
  ∧ (∀ k, (0 < k)%Z →
       load_stream tokenize (Some k) stream
       = take (Z.to_nat k) (short_samples tokenize stream))
  ∧ (∀ max_samples s, (max_samples = None ∨ ∃ k, max_samples = Some k ∧ (0 < k)%Z) →
       s ∈ load_stream tokenize max_samples stream →
       sc_sentence_subword_len s ≤ 500
       ∧ ∃ b, b ∈ blocks stream ∧ s = create_sentence_from_lines tokenize b)
  ∧ (∀ b, b ∈ blocks stream →
       sc_sentence_subword_len (create_sentence_from_lines tokenize b) ≤ 500 →
       create_sentence_from_lines tokenize b ∈ load_stream tokenize None stream).
Proof.
  assert (load_stream tokenize None stream = short_samples tokenize stream) as Hnone.
  { unfold load_stream. rewrite load_loop_unlimited. done. }
  assert (∀ k, (0 < k)%Z →
       load_stream tokenize (Some k) stream
       = take (Z.to_nat k) (short_samples tokenize stream)) as Hsome.
  { intros k Hk. unfold load_stream. rewrite load_loop_limited by (simpl; lia). done. }
  split_and!; [done|done| |].
  - intros max_samples s Hmax Hin.
    assert (s ∈ short_samples tokenize stream) as Hs.
    { destruct Hmax as [->|(k & -> & Hk)].
      - by rewrite Hnone in Hin.
      - rewrite (Hsome k Hk) in Hin. by eapply subseteq_take. }
    unfold short_samples, kept in Hs. apply list_elem_of_filter in Hs as [Hlen Hs].
    apply list_elem_of_fmap in Hs as (b & -> & Hb). eauto.
  - intros b Hb Hlen. rewrite Hnone. unfold short_samples, kept.
    apply list_elem_of_filter. split; [done|].
    apply list_elem_of_fmap. eauto.
Qed.

Lemma load_stream_drops_oversized_witness :
  load_stream char_tokenizer (Some 1%Z) ["a"; ""; "b"]
  = take 1 (short_samples char_tokenizer ["a"; ""; "b"]).
Proof.
  apply (proj1 (proj2 (load_stream_drops_oversized char_tokenizer ["a"; ""; "b"])) 1%Z).
  reflexivity.
Defined.

(** C5 as stated fails under a sample limit: with [max_samples = 1] the
    second sentence has one subword and is not kept. *)
Lemma load_stream_limit_drops_short_sample :
  let s := create_sentence_from_lines char_tokenizer ["b"] in
  ["b"] ∈ blocks ["a"; ""; "b"]
  ∧ sc_sentence_subword_len s ≤ 500
  ∧ (s ∉ load_stream char_tokenizer (Some 1%Z) ["a"; ""; "b"])
  ∧ (load_stream char_tokenizer (Some 1%Z) ["a"; ""; "b"]
     ≠ short_samples char_tokenizer ["a"; ""; "b"]).
Proof.
  split_and!.
  - vm_compute. apply list_elem_of_further, list_elem_of_here.
  - vm_compute. lia.
  - vm_compute. intros H. apply list_elem_of_singleton in H. discriminate.
  - vm_compute. intros H. discriminate.
Qed.

(** ** Indexing *)

Lemma prefixed_loop (T : list (list Z)) (l : list (list nat)) k :
  k + length l ≤ length T →
  rmapM (λ '(ti, tokstarts),
           toks ← py_index T (Z.of_nat ti);
           Ok ([0] ++ ((λ t, t + 1) <$> tokstarts) ++ [length toks + 1]))
        (zip (seq k (length l)) l)
  = Ok (zip_with bracketed l (drop k T)).
Proof.
  revert k; induction l as [|ts l IH]; intros k Hk; simpl in *; [done|].
  rewrite py_index_nat.
  destruct (lookup_lt_is_Some_2 T k) as [toks Htoks]; [lia|].
  rewrite Htoks. simpl.
  rewrite IH by lia. simpl.
  rewrite (drop_S _ _ _ Htoks). done.
Qed.

Lemma prefixed_token_starts_spec (toks : list (list Z)) (ts : list (list nat)) :
  length ts ≤ length toks →
  prefixed_token_starts toks ts = Ok (zip_with bracketed ts toks).
Proof.
  intros Hlen. unfold prefixed_token_starts.
  rewrite prefixed_loop by (simpl; lia). by rewrite drop_0.
Qed.

Lemma wrap_int64_id (z : Z) :
  (int64_min ≤ z ≤ int64_max)%Z → wrap_int64 z = z.
Proof.
  unfold wrap_int64, int64_min, int64_max. intros Hz.
  rewrite Z.mod_small by lia. lia.
Qed.

(** C6 (as amended).  On containers that hold one token sequence per
    token-start array, the two subword-aware [to_idx] methods succeed and
    replace every token-start array by [0], the raw starts each moved by
    exactly one, and [len(tokens) + 1]; [SentenceProberDataset.to_idx] and
    [MidSentenceProberDataset.to_idx] move every target index below the
    largest [int64] value by one. *)
Theorem to_idx_shifts_by_one (toks : list (list Z)) (starts : list (list nat))
    (targets : list Z) :
  length toks = length starts →
  (∀ t, t ∈ targets → (int64_min ≤ t < int64_max)%Z) →
  ∃ pts,
    SequenceClassificationWithSubwords_to_idx
      {| tm_tokens := toks; tm_token_starts := starts |}
    = Ok {| tm_tokens := toks; tm_token_starts := pts |}
    ∧ SentenceProberDataset_to_idx
        {| pm_tokens := toks; pm_token_starts := starts; pm_target_idx := targets |}
      = Ok {| pm_tokens := toks; pm_token_starts := pts;
              pm_target_idx := (λ t, t + 1)%Z <$> targets |}
    ∧ MidSentenceProberDataset_to_idx {| mm_target_idx := targets |}
      = {| mm_target_idx := (λ t, t + 1)%Z <$> targets |}
    ∧ length pts = length starts
    ∧ ∀ i ts tk,
        starts !! i = Some ts → toks !! i = Some tk →
        ∃ ts', pts !! i = Some ts'
          ∧ length ts' = length ts + 2
          ∧ ts' !! 0 = Some 0
          ∧ (∀ j t, ts !! j = Some t → ts' !! S j = Some (t + 1))
          ∧ last ts' = Some (length tk + 1).
Proof.
  intros Hlen Hrange.
  assert ((λ t, wrap_int64 (t + 1)) <$> targets = (λ t, t + 1)%Z <$> targets)
    as Hshift.
  { apply Forall_fmap_ext, Forall_forall. intros t Ht.
    apply wrap_int64_id. specialize (Hrange t Ht). lia. }
  unfold SequenceClassificationWithSubwords_to_idx, SentenceProberDataset_to_idx,
    MidSentenceProberDataset_to_idx. simpl.
  rewrite prefixed_token_starts_spec by lia. simpl. rewrite Hshift.
  eexists. split_and!; try reflexivity.
  - rewrite length_zip_with. lia.
  - intros i ts tk Hts Htk.
    exists (bracketed ts tk). split_and!.
    + rewrite lookup_zip_with, Hts. simpl. by rewrite Htk.
    + unfold bracketed. simpl. rewrite length_app, length_fmap. simpl. lia.
    + done.
    + intros j t Hj. unfold bracketed. simpl.
      rewrite lookup_app_l by (rewrite length_fmap; apply lookup_lt_is_Some; eauto).
      by rewrite list_lookup_fmap, Hj.
    + unfold bracketed. rewrite app_comm_cons. by rewrite last_snoc.
Qed.

Lemma to_idx_shifts_by_one_witness :
  ∃ pts,
    SentenceProberDataset_to_idx mtx_example
    = Ok {| pm_tokens := [[101; 7; 8; 8; 9; 9; 9; 102]%Z];
            pm_token_starts := pts;
            pm_target_idx := [2%Z] |}
    ∧ length pts = 1.
Proof.
  destruct (to_idx_shifts_by_one [[101; 7; 8; 8; 9; 9; 9; 102]%Z] [[0; 1; 3; 6]] [1%Z]
              eq_refl) as (pts & _ & H2 & _ & Hlen & _).
  - intros t Ht. apply list_elem_of_singleton in Ht as ->.
    unfold int64_min, int64_max. lia.
  - exists pts. split; [exact H2 | exact Hlen].
Defined.

(** C6 as stated fails at the largest [int64] value: the index array is an
    [int64] array, and adding one to it wraps around to the smallest value
    instead of moving the index by one. *)
Lemma to_idx_wraps_at_int64_max :
  SentenceProberDataset_to_idx
    {| pm_tokens := [[101; 7; 102]%Z]; pm_token_starts := [[0]];
       pm_target_idx := [int64_max] |}
  = Ok {| pm_tokens := [[101; 7; 102]%Z]; pm_token_starts := [[0; 1; 4]];
          pm_target_idx := [int64_min] |}
  ∧ MidSentenceProberDataset_to_idx {| mm_target_idx := [int64_max] |}
    = {| mm_target_idx := [int64_min] |}
  ∧ int64_min ≠ (int64_max + 1)%Z.
Proof. split_and!; [vm_compute; reflexivity..|vm_compute; discriminate]. Qed.

Example to_idx_example :
  SentenceProberDataset_to_idx mtx_example
  = Ok {| pm_tokens := [[101; 7; 8; 8; 9; 9; 9; 102]%Z];
          pm_token_starts := [[0; 1; 2; 4; 7; 9]];
          pm_target_idx := [2%Z] |}.
Proof. reflexivity. Qed.

(** ** Padding of token starts *)

Lemma max_list_elem_of_le (l : list nat) n : n ∈ l → n ≤ max_list l.
Proof.
  induction 1 as [n l|n m l _ IH]; simpl; lia.
Qed.

Lemma max_list_attained (l : list nat) : l ≠ [] → max_list l ∈ l.
Proof.
  induction l as [|n l IH]; [done|]. intros _. simpl.
  destruct l as [|m l].
  - simpl. rewrite Nat.max_0_r. left.
  - destruct (Nat.max_spec n (max_list (m :: l))) as [[_ ->]|[_ ->]].
    + right. by apply IH.
    + left.
Qed.

(** C7.  Every token-start array of a (non-empty) batch is extended on the
    right with the value 1000 up to the longest array of that batch: the
    padded row begins with the array, has the width of the batch, and holds
    1000 in every added slot.  Each batch is padded on its own, so two
    batches of one iteration may differ in width. *)
Theorem token_starts_padded_to_batch_max :
  (∀ (b : list nat) (rest : list (list nat)),
     let batch : list (list nat) := b :: rest in
     let maxlen : nat := max_list (length <$> batch) in
     ∃ rows : list (list nat),
       pad_token_starts batch = Ok rows
       ∧ length rows = length batch
       ∧ (∃ s, s ∈ batch ∧ length s = maxlen)
       ∧ ∀ i s, batch !! i = Some s →
           ∃ row, rows !! i = Some row
             ∧ length row = maxlen
             ∧ take (length s) row = s
             ∧ ∀ j, length s ≤ j → j < maxlen → row !! j = Some 1000)
  ∧ (∀ batches k b,
       batches !! k = Some b →
       SentenceProberDataset_batched_iter batches !! k
       = Some (ts ← pad_token_starts (db_token_starts b);
               Ok {| db_token_starts := ts; db_labels := db_labels b |})
       ∧ fmap (M:=result) db_token_starts
           <$> SequenceClassificationWithSubwords_batched_iter batches !! k
         = Some (pad_token_starts (db_token_starts b)))
  ∧ SentenceProberDataset_batched_iter
      [ {| db_token_starts := [[0; 1; 2]; [0; 1]]; db_labels := NoLabels |};
        {| db_token_starts := [[0; 1]; [0]]; db_labels := NoLabels |} ]
    = [ Ok {| db_token_starts := [[0; 1; 2]; [0; 1; 1000]]; db_labels := NoLabels |};
        Ok {| db_token_starts := [[0; 1]; [0; 1000]]; db_labels := NoLabels |} ].
Proof.
  split_and!.
  - intros b rest batch maxlen. eexists. split; [reflexivity|].
    fold batch. fold maxlen.
    split_and!.
    + by rewrite length_fmap.
    + assert (maxlen ∈ length <$> batch) as Hin by (by apply max_list_attained).
      apply list_elem_of_fmap in Hin as (s & Hs & Hin). eauto.
    + intros i s Hs.
      assert (length s ≤ maxlen) as Hle.
      { apply max_list_elem_of_le, list_elem_of_fmap.
        exists s. split; [done|]. by eapply list_elem_of_lookup_2. }
      eexists. split; [by rewrite list_lookup_fmap, Hs|].
      split_and!.
      * rewrite length_app, length_replicate. lia.
      * by rewrite take_app_length.
      * intros j Hj Hlt. rewrite lookup_app_r by lia.
        apply lookup_replicate_2. lia.
  - intros batches k b Hb. split.
    + unfold SentenceProberDataset_batched_iter. by rewrite list_lookup_fmap, Hb.
    + unfold SequenceClassificationWithSubwords_batched_iter.
      rewrite list_lookup_fmap, Hb. simpl.
      by destruct (pad_token_starts _).
  - reflexivity.
Qed.

Lemma token_starts_padded_to_batch_max_witness :
  SentenceProberDataset_batched_iter
    [ {| db_token_starts := [[0; 1; 2]; [0; 1]]; db_labels := NoLabels |} ] !! 0
  = Some (ts ← pad_token_starts [[0; 1; 2]; [0; 1]];
          Ok {| db_token_starts := ts; db_labels := NoLabels |}).
Proof.
  apply (proj1 (proj2 token_starts_padded_to_batch_max)
           [ {| db_token_starts := [[0; 1; 2]; [0; 1]]; db_labels := NoLabels |} ] 0
           {| db_token_starts := [[0; 1; 2]; [0; 1]]; db_labels := NoLabels |}
           eq_refl).
Defined.

(** ** Batches of the embedding dataset *)

Lemma elem_of_range_step n step x :
  0 < step → x ∈ range_step n step ↔ ∃ k, x = k * step ∧ x < n.
Proof.
  intros Hs. unfold range_step. rewrite list_elem_of_fmap.
  assert (∀ k, k < (n + step - 1) / step ↔ k * step < n) as Hdiv.
  { intros k.
    pose proof (Nat.div_mod_eq (n + step - 1) step) as Hdm.
    pose proof (Nat.mod_upper_bound (n + step - 1) step ltac:(lia)) as Hmod.
    split; intros Hk; nia. }
  split.
  - intros (k & -> & Hk). apply elem_of_seq in Hk.
    exists k. split; [done|]. apply Hdiv. lia.
  - intros (k & -> & Hk). exists k. split; [done|].
    apply elem_of_seq. apply Hdiv in Hk. lia.
Qed.

(** C8.  For a positive batch size the iterator yields, for unlabeled data
    or without the shuffle option, the slices [[start, start+batch_size)]
    in increasing order of [start]; for labeled data with the option, the
    very same slices, one per shuffled start offset: the batches are a
    permutation of the unshuffled ones. *)
Theorem batches_keep_membership {V L : Type} (len_self : nat)
    (shuffle_batches : bool) (shuffle : list nat → list nat)
    (target_word : list V) (label : list L) (batch_size : nat) :
  0 < batch_size →
  (∀ l, shuffle l ≡ₚ l) →
  let starts := range_step len_self batch_size in
  let plain := batch_at target_word label batch_size <$> starts in
  EmbeddingProberDataset_batched_iter len_self true shuffle_batches shuffle
    target_word label batch_size = Ok plain
  ∧ EmbeddingProberDataset_batched_iter len_self false false shuffle
      target_word label batch_size = Ok plain
  ∧ ∃ ys,
      EmbeddingProberDataset_batched_iter len_self false true shuffle
        target_word label batch_size = Ok ys
      ∧ ys = batch_at target_word label batch_size <$> shuffle starts
      ∧ ys ≡ₚ plain
      ∧ ∀ y, y ∈ ys ↔ ∃ k, k * batch_size < len_self
                         ∧ y = batch_at target_word label batch_size (k * batch_size).
Proof.
  intros Hpos Hperm starts plain.
  unfold EmbeddingProberDataset_batched_iter.
  destruct batch_size as [|bs]; [lia|].
  split_and!.
  - done.
  - done.
  - eexists. split; [reflexivity|]. simpl. fold starts.
    split_and!.
    + done.
    + unfold plain. by rewrite Hperm.
    + intros y. fold (batch_at target_word label (S bs)).
      rewrite list_elem_of_fmap. split.
      * intros (start & -> & Hin). rewrite Hperm in Hin.
        apply elem_of_range_step in Hin as (k & -> & Hk); [|lia].
        eauto.
      * intros (k & Hk & ->). exists (k * S bs). split; [done|].
        rewrite Hperm. apply elem_of_range_step; [lia|]. eauto.
Qed.

Lemma batches_keep_membership_witness :
  EmbeddingProberDataset_batched_iter 5 false true reverse
    ["a"; "b"; "c"; "d"; "e"] [1; 2; 3; 4; 5] 2
  = Ok [ (["e"], [5]); (["c"; "d"], [3; 4]); (["a"; "b"], [1; 2]) ]
  ∧ EmbeddingProberDataset_batched_iter 5 true true reverse
      ["a"; "b"; "c"; "d"; "e"] [1; 2; 3; 4; 5] 2
    = Ok [ (["a"; "b"], [1; 2]); (["c"; "d"], [3; 4]); (["e"], [5]) ].
Proof.
  destruct (batches_keep_membership 5 true reverse
              ["a"; "b"; "c"; "d"; "e"] [1; 2; 3; 4; 5] 2
              ltac:(lia) (@reverse_Permutation nat))
    as (Hunl & _ & ys & Hys & -> & _).
  split; [exact Hys | exact Hunl].
Defined.

(** ** Lookup in the embedding *)

Section EmbeddingFacts.

Context {F : Type}.
Variable py_float : string → result F.

Local Abbreviation row_of line := (rmapM py_float (tail (split space (strip line)))).

Lemma emb_step_loaded flt (e e' : Embedding F) line :
  emb_step py_float flt e line = Ok e' →
  if loaded_line flt line
  then ∃ row, row_of line = Ok row ∧ emb_mtx e' = emb_mtx e ++ [row]
  else e' = e.
Proof.
  unfold emb_step, loaded_line.
  destruct (length _ =? 2); simpl; [by intros [= <-]|].
  destruct (filtered_out _ _); simpl; [by intros [= <-]|].
  destruct (rmapM _ _) as [row|]; simpl; [|done].
  intros [= <-]. simpl. eauto.
Qed.

Lemma emb_loop_rows flt stream (e e' : Embedding F) :
  emb_loop py_float flt e stream = Ok e' →
  ∃ rows, rmapM (λ line, row_of line) (filter (λ l, loaded_line flt l = true) stream)
          = Ok rows
          ∧ emb_mtx e' = emb_mtx e ++ rows.
Proof.
  revert e; induction stream as [|line stream IH]; intros e; simpl.
  - intros [= <-]. exists []. split; [done|]. by rewrite app_nil_r.
  - destruct (emb_step py_float flt e line) as [e1|] eqn:Hstep; simpl; [|done].
    intros Hloop. apply emb_step_loaded in Hstep.
    destruct (IH _ Hloop) as (rows & Hrows & Hmtx).
    rewrite filter_cons.
    destruct (loaded_line flt line).
    + destruct Hstep as (row & Hrow & He1).
      rewrite decide_True by done. simpl. rewrite Hrow. simpl. rewrite Hrows. simpl.
      exists (row :: rows). split; [done|].
      rewrite Hmtx, He1. by rewrite <- app_assoc.
    + subst e1. rewrite decide_False by done. eauto.
Qed.

End EmbeddingFacts.

(** C10 (as amended).  For a key that is not in the vocabulary,
    [Embedding.__getitem__] returns row 0 of the matrix whenever the matrix
    has a row, and raises [IndexError] when it has none.  After
    [load_stream], row 0 is the vector of the first line that was loaded
    (neither a two-field header nor filtered out); when no line was loaded,
    every lookup raises. *)
Theorem getitem_unknown_word_is_row_0 {F : Type} (py_float : string → result F) :
  (∀ (e : Embedding F) key,
     emb_vocab e !! key = None →
     (∀ row rest, emb_mtx e = row :: rest → Embedding_getitem e key = Ok row)
     ∧ (emb_mtx e = [] → Embedding_getitem e key = Raise IndexError))
  ∧ (∀ flt stream (e : Embedding F) key,
       Embedding_load_stream py_float flt stream = Ok e →
       emb_vocab e !! key = None →
       match filter (λ l, loaded_line flt l = true) stream with
       | [] => Embedding_getitem e key = Raise IndexError
       | line :: _ =>
           ∃ row, rmapM py_float (tail (split space (strip line))) = Ok row
                  ∧ Embedding_getitem e key = Ok row
       end).
Proof.
  assert (∀ (e : Embedding F) key,
     emb_vocab e !! key = None →
     (∀ row rest, emb_mtx e = row :: rest → Embedding_getitem e key = Ok row)
     ∧ (emb_mtx e = [] → Embedding_getitem e key = Raise IndexError)) as Hget.
  { intros e key Hkey. unfold Embedding_getitem. rewrite Hkey.
    split; [intros row rest ->|intros ->]; reflexivity. }
  split; [exact Hget|].
  intros flt stream e key Hload Hkey.
  destruct (emb_loop_rows py_float flt stream _ e Hload) as (rows & Hrows & Hmtx).
  simpl in Hmtx.
  destruct (filter _ stream) as [|line lines]; simpl in Hrows.
  - injection Hrows as <-. by apply Hget.
  - destruct (rmapM py_float _) as [row|]; simpl in Hrows; [|done].
    destruct (rmapM _ lines) as [rows'|]; simpl in Hrows; [|done].
    injection Hrows as <-. exists row. split; [done|].
    by apply (proj1 (Hget e key Hkey) row rows').
Qed.

(** * Subword pooling *)

Lemma rmapM_lookup {A B} (f : A → result B) xs ys i y :
  rmapM f xs = Ok ys → ys !! i = Some y → ∃ x, xs !! i = Some x ∧ f x = Ok y.
Proof.
  revert ys i; induction xs as [|x xs IH]; intros ys i; simpl.
  - intros [= <-]. done.
  - destruct (f x) as [y0|] eqn:Hfx; simpl; [|done].
    destruct (rmapM f xs) as [ys0|]; simpl; [|done].
    intros [= <-]. destruct i as [|i]; simpl.
    + intros [= <-]. eauto.
    + intros Hy. by apply (IH ys0 i).
Qed.

Lemma rmapM_impl {A B} (f g : A → result B) xs ys :
  (∀ x y, f x = Ok y → g x = Ok y) → rmapM f xs = Ok ys → rmapM g xs = Ok ys.
Proof.
  intros Hfg. revert ys; induction xs as [|x xs IH]; intros ys; simpl; [done|].
  destruct (f x) as [y0|] eqn:Hfx; simpl; [|done].
  rewrite (Hfg _ _ Hfx). simpl.
  destruct (rmapM f xs) as [ys0|]; simpl; [|done].
  rewrite (IH _ eq_refl). done.
Qed.

Lemma py_index_Ok_lookup {A} (l : list A) (i : nat) x :
  py_index l (Z.of_nat i) = Ok x → l !! i = Some x.
Proof. rewrite py_index_nat. destruct (l !! i); [by intros [= ->]|done]. Qed.

Section MaxPooling.

Context {R : Type} `{Scalar R}.

(** The order of the entries, for which [smax] is the maximum. *)
Variable sle : R → R → Prop.
Hypothesis sle_refl : ∀ a, sle a a.
Hypothesis sle_trans : ∀ a b c, sle a b → sle b c → sle a c.
Hypothesis smax_either : ∀ a b, smax a b = a ∨ smax a b = b.
Hypothesis smax_l : ∀ a b, sle a (smax a b).
Hypothesis smax_r : ∀ a b, sle b (smax a b).

Lemma foldl_vmax_spec (rs : list (list R)) (r : list R) :
  elementwise_max sle (r :: rs) (foldl vmax r rs).
Proof.
  induction rs as [|t rs IH] using rev_ind; simpl.
  - intros j x Hx. split.
    + exists r. split; [left|done].
    + intros r' Hr'. apply list_elem_of_singleton in Hr' as ->. eauto.
  - rewrite foldl_app. simpl. intros j x Hx.
    unfold vmax at 1 in Hx. apply lookup_zip_with_Some in Hx as (a & b & -> & Ha & Hb).
    destruct (IH j a Ha) as [(r0 & Hr0 & Hr0j) Hbound].
    split.
    + destruct (smax_either a b) as [-> | ->].
      * exists r0. split; [|done]. rewrite app_comm_cons. apply elem_of_app. by left.
      * exists t. split; [|done]. rewrite app_comm_cons. apply elem_of_app.
        right. by apply list_elem_of_singleton.
    + intros r' Hr'. rewrite app_comm_cons in Hr'.
      apply elem_of_app in Hr' as [Hr'|Hr'].
      * destruct (Hbound r' Hr') as (y & Hy & Hle).
        exists y. split; [done|]. eapply sle_trans; [exact Hle|apply smax_l].
      * apply list_elem_of_singleton in Hr' as ->.
        exists b. split; [done|]. apply smax_r.
Qed.

Lemma length_foldl_vmax (rs : list (list R)) (r : list R) (h : nat) :
  length r = h → (∀ u, u ∈ rs → length u = h) → length (foldl vmax r rs) = h.
Proof.
  revert r; induction rs as [|t rs IH]; intros r Hr Hrs; simpl; [done|].
  apply IH.
  - unfold vmax. rewrite length_zip_with, Hr, (Hrs t) by left. lia.
  - intros u Hu. apply Hrs. by right.
Qed.

Lemma max0_spec (rows : list (list R)) v :
  max0 rows = Ok v →
  rows ≠ [] ∧ elementwise_max sle rows v
  ∧ ∀ h, (∀ u, u ∈ rows → length u = h) → length v = h.
Proof.
  destruct rows as [|r rs]; simpl; [done|].
  intros [= <-]. split_and!; [done|apply foldl_vmax_spec|].
  intros h Hh. apply length_foldl_vmax.
  - apply Hh. left.
  - intros u Hu. apply Hh. by right.
Qed.

(** X14.  In [TransformerForSequenceTagging._forward_with_cache] the vector of
    word [ti] of sentence [bi] under ['max'] is the element-wise maximum
    over the span between the token starts [ti+1] and [ti+2]: it has the
    length of the vectors of the span, and each of its entries occurs at its
    position in a vector of the span and bounds that position of them all. *)
Lemma tagger_max_is_span_max hidden_size (e : list (list (list R))) batch rows :
  TransformerForSequenceTagging.pool_span hidden_size Max e batch = Ok (P2 rows) →
  ∃ outs : list (list (list R)),
    rows = concat outs
    ∧ length outs = length (b_input batch)
    ∧ ∀ bi ti o v, outs !! bi = Some o → o !! ti = Some v →
        ∃ ts first last sent,
          b_token_starts batch !! bi = Some ts
          ∧ ts !! (ti + 1) = Some first
          ∧ ts !! (ti + 2) = Some last
          ∧ e !! bi = Some sent
          ∧ slice first last sent ≠ []
          ∧ elementwise_max sle (slice first last sent) v
          ∧ ∀ h, (∀ u, u ∈ slice first last sent → length u = h) → length v = h.
Proof.
  unfold TransformerForSequenceTagging.pool_span.
  destruct (rmapM _ (seq 0 (length (b_input batch)))) as [outs|] eqn:Houts;
    simpl; [|done].
  destruct (stack (concat outs)) as [rows'|] eqn:Hstack; simpl; [|done].
  intros [= <-]. exists outs. split_and!.
  - unfold stack in Hstack. destruct (concat outs); by simplify_eq.
  - apply rmapM_length in Houts. by rewrite length_seq in Houts.
  - intros bi ti o v Ho Hv.
    destruct (rmapM_lookup _ _ _ _ _ Houts Ho) as (bi' & Hbi & Hinner).
    apply lookup_seq in Hbi as [-> _]. simpl in Hinner.
    destruct (py_index (b_sentence_len batch) _) as [slen|]; simpl in Hinner; [|done].
    destruct (rmapM_lookup _ _ _ _ _ Hinner Hv) as (ti' & Hti & Hbody).
    apply lookup_seq in Hti as [-> _]. simpl in Hbody.
    destruct (py_index (b_token_starts batch) _) as [ts|] eqn:Hts;
      simpl in Hbody; [|done].
    destruct (py_index ts (Z.of_nat (ti + 1))) as [first|] eqn:Hfirst;
      simpl in Hbody; [|done].
    destruct (py_index ts (Z.of_nat (ti + 2))) as [last|] eqn:Hlast;
      simpl in Hbody; [|done].
    destruct (py_index e _) as [sent|] eqn:Hsent; simpl in Hbody; [|done].
    apply max0_spec in Hbody as (Hne & Hmax & Hlen).
    exists ts, first, last, sent.
    split_and!; try done; by apply py_index_Ok_lookup.
Qed.

End MaxPooling.

Section ProberMax.

Context {R : Type} `{Scalar R}.

(** X15.  In [SentenceRepresentationProber._forward_elementwise_pool] the value
    computed for ['max'] is rebound by the [else] of the second [if]:
    whenever the 'max' pooling returns, it returns what 'avg' returns. *)
Lemma prober_max_is_mean hidden_size (e : list (list (list R))) batch r :
  SentenceRepresentationProber._forward_elementwise_pool hidden_size "max" e batch
    = Ok r →
  SentenceRepresentationProber._forward_elementwise_pool hidden_size "avg" e batch
    = Ok r.
Proof.
  unfold SentenceRepresentationProber._forward_elementwise_pool.
  destruct (index2 _ _ (_ <$> _)) as [last|]; simpl; [|done].
  destruct (index2 _ _ _) as [first|]; simpl; [|done].
  destruct (rmapM _ (seq 0 (length e))) as [tv|] eqn:Htv; simpl; [|done].
  intros Hr.
  erewrite rmapM_impl; [exact Hr| |exact Htv].
  intros wi y. simpl.
  destruct (py_index first _); simpl; [|done].
  destruct (py_index last _); simpl; [|done].
  destruct (py_index e _); simpl; [|done].
  destruct (max0 _); simpl; done.
Qed.

End ProberMax.

(** C1: the claim holds in [TransformerForSequenceTagging] and fails in
    [SentenceRepresentationProber].  For the word whose subword vectors are
    (1, 5) and (3, 2), [_forward_with_cache] yields the maximum (3, 5) under
    'max', whereas [_forward_elementwise_pool] yields (4/2, 7/2), which is
    what it yields under 'avg'. *)
Theorem prober_max_pooling_yields_mean :
  SentenceRepresentationProber._forward_elementwise_pool 2 "max" ex_embedded ex_batch
    = Ok (P2 [[4 # 2; 7 # 2]%Q])
  ∧ SentenceRepresentationProber._forward_elementwise_pool 2 "avg" ex_embedded ex_batch
    = Ok (P2 [[4 # 2; 7 # 2]%Q])
  ∧ TransformerForSequenceTagging.pool_span 2 Max ex_embedded ex_batch
    = Ok (P2 [[3; 5]%Q])
  ∧ slice 1 3 [[0; 0]; [1; 5]; [3; 2]; [0; 0]]%Q = [[1; 5]; [3; 2]]%Q
  ∧ ¬ (4 # 2 == 3)%Q ∧ ¬ (7 # 2 == 5)%Q.
Proof.
  split_and!; try (vm_compute; reflexivity); intros Heq; vm_compute in Heq; discriminate.
Qed.

Lemma getitem_unknown_word_is_row_0_witness :
  Embedding_getitem emb_example "bird" = Ok [1; 2]%Z.
Proof.
  apply (proj1 (proj1 (getitem_unknown_word_is_row_0 decimal_int) emb_example "bird"
                  eq_refl) [1; 2]%Z [[3; 4]%Z] eq_refl).
Defined.

(** C10 as stated fails on an embedding without rows: a file that holds
    only its header line loads, and every lookup then raises. *)
Lemma getitem_raises_on_empty_embedding :
  ∃ e : Embedding Z,
    Embedding_load_stream decimal_int None ["2 3"] = Ok e
    ∧ emb_vocab e !! "bird" = None
    ∧ Embedding_getitem e "bird" = Raise IndexError.
Proof. eexists. split_and!; [vm_compute; reflexivity|reflexivity|reflexivity]. Qed.

(** ** Bag of words *)

(** C2: the code computes the position of the target after the shuffle and
    then stores [raw_idx].  On the sentence "a bb" with target word 0 ("a")
    and the shuffle that swaps the two words, the tokens are [b, b, a] with
    token starts [0, 2]; the local variable ends as [2], the start of "a",
    but the sample records target index 0, whose span [0, 2) holds the
    pieces of "bb". *)
Theorem bow_sample_records_raw_idx :
  extract_sample_from_line_full char_tokenizer "[MASK]" decimal_int ∅ true reverse bow_line
  = Ok ({| raw_sentence := "a bb"; raw_target := "a"; raw_idx := 0;
           tokens := ["b"; "b"; "a"]; num_tokens := 3; target_idx := 0;
           label := None; token_starts := [0; 2] |}, 2)
  ∧ reverse (seq 0 2) = [1; 0]
  ∧ argsort [1; 0] = [1; 0]
  ∧ slice 0 2 ["b"; "b"; "a"] = char_tokenizer "bb"
  ∧ slice 2 3 ["b"; "b"; "a"] = char_tokenizer "a".
Proof. split_and!; vm_compute; reflexivity. Qed.

(** * The pooling cache *)

Section EncoderPass.

Context {R : Type} `{Scalar R} {K : Type} `{Countable K}.
Variable encoder : list (list Z) → list Z → result (list (list (list (list R)))).
Variable weighted_sum : list (list (list (list R))) → list (list (list R)).

(** The encoder pass: a batch without rows fails before the encoder is
    called; otherwise the encoder is called once and its outcome is the
    outcome of the pass. *)
Lemma forward_eq (sentences : list (list Z)) (lens : list Z)
    (st : model_state K (pooled R)) :
  Embedder.forward encoder sentences lens st
  = match sentences with
    | [] => (Raise IndexError, st)
    | _ :: _ => (encoder sentences lens, after_encoder_call st)
    end.
Proof. by destruct sentences. Qed.

Lemma embed_cases lp sentences lens (st st' : model_state K (pooled R)) r :
  Embedder.embed encoder weighted_sum lp sentences lens st = (r, st') →
  (sentences = [] ∧ r = Raise IndexError ∧ st' = st)
  ∨ (sentences ≠ [] ∧ st' = after_encoder_call st).
Proof.
  unfold Embedder.embed. cbv [mbind M_bind bind]. rewrite forward_eq.
  destruct sentences as [|row rows].
  - intros [= <- <-]. by left.
  - destruct (encoder _ _) as [out|e]; cbv [lift]; intros [= <- <-]; by right.
Qed.

End EncoderPass.

Section CacheFacts.

Context {R : Type} `{Scalar R}.
Variable hidden_size : nat.
Variable encoder : list (list Z) → list Z → result (list (list (list (list R)))).
Variable weighted_sum : list (list (list (list R))) → list (list (list R)).
Variable subword_pooling : string.
Variable layer_pooling : layer_pooling.

Section Tagger.

Variable pool_stacked : strategy → list (list (list (list R))) → ModelBatch → result (pooled R).
Variable pool_uncached : strategy → embedded R → ModelBatch → result (pooled R).

Local Abbreviation fwc :=
  (TransformerForSequenceTagging._forward_with_cache hidden_size encoder weighted_sum
     layer_pooling pool_stacked).

Lemma tagger_cache_hit s batch st v :
  cache st !! flat (b_input batch) = Some v →
  fwc s batch st = (Ok v, st).
Proof.
  intros Hhit. unfold TransformerForSequenceTagging._forward_with_cache.
  unfold mbind, M_bind, bind, cache_lookup, cache_get. simpl.
  rewrite Hhit. simpl. by rewrite Hhit.
Qed.

Lemma tagger_cache_miss s batch st r st1 :
  cache st !! flat (b_input batch) = None →
  fwc s batch st = (r, st1) →
  (b_input batch = [] ∧ r = Raise IndexError ∧ st1 = st)
  ∨ (b_input batch ≠ []
     ∧ encoder_calls st1 = S (encoder_calls st)
     ∧ (∀ k, k ≠ flat (b_input batch) → cache st1 !! k = cache st !! k)
     ∧ match r with
       | Ok out => cache st1 = <[flat (b_input batch) := out]> (cache st)
       | Raise _ => cache st1 = cache st
       end).
Proof.
  intros Hmiss. unfold TransformerForSequenceTagging._forward_with_cache.
  unfold mbind at 1 2, M_bind at 1 2, bind at 1 2, cache_lookup. simpl.
  rewrite Hmiss.
  unfold mbind at 1, M_bind at 1, bind at 1.
  destruct (Embedder.embed _ _ _ _ _ st) as [[e|err] st2] eqn:Hembed.
  - apply embed_cases in Hembed as [(_ & ? & _)|(Hne & ->)]; [done|].
    unfold mbind, M_bind, bind, lift, cache_store, cache_get. simpl.
    match goal with
    | |- context [match ?p with Ok _ => _ | Raise _ => _ end] =>
        destruct p as [out|e']; simpl
    end.
    + rewrite lookup_insert_eq. intros [= <- <-]. right. simpl.
      split_and!; try done. intros k Hk. by rewrite lookup_insert_ne.
    + intros [= <- <-]. right. by split_and!.
  - apply embed_cases in Hembed as [(Hnil & [= ->] & ->)|(Hne & ->)].
    + intros [= <- <-]. by left.
    + intros [= <- <-]. right. by split_and!.
Qed.

Lemma tagger_cache_filled s batch st out st1 :
  fwc s batch st = (Ok out, st1) →
  cache st1 !! flat (b_input batch) = Some out
  ∧ (∀ k, k ≠ flat (b_input batch) → cache st1 !! k = cache st !! k)
  ∧ match cache st !! flat (b_input batch) with
    | Some _ => st1 = st
    | None => encoder_calls st1 = S (encoder_calls st)
    end.
Proof.
  intros Hcall.
  destruct (cache st !! flat (b_input batch)) as [v|] eqn:Hhit.
  - rewrite (tagger_cache_hit _ _ _ _ Hhit) in Hcall.
    injection Hcall as <- <-. by split_and!.
  - destruct (tagger_cache_miss _ _ _ _ _ Hhit Hcall)
      as [(_ & ? & _)|(_ & Hcalls & Hframe & Hstore)]; [done|].
    split_and!; try done. rewrite Hstore. apply lookup_insert_eq.
Qed.

End Tagger.

Section Prober.

Variable shift_target : Z.
Variable str_index_error : string → exn.
Variable apply_layer_weights : pooled R → pooled R.
Variable pool_other : strategy → list (list (list R)) → ModelBatch → result (pooled R).

Local Abbreviation ffl :=
  (SentenceRepresentationProber._forward_first_last encoder weighted_sum
     subword_pooling layer_pooling shift_target str_index_error apply_layer_weights).
Local Abbreviation finish :=
  (SentenceRepresentationProber.finish_layers layer_pooling apply_layer_weights).

Lemma prober_cache_hit batch st v :
  cache st !! (flat (b_input batch), b_probe_target_idx batch) = Some v →
  ffl batch st = (Ok (finish v), st).
Proof.
  intros Hhit. unfold SentenceRepresentationProber._forward_first_last.
  unfold mbind, M_bind, bind, cache_lookup, cache_get. simpl.
  rewrite Hhit. simpl. by rewrite Hhit.
Qed.

Lemma prober_cache_miss batch st r st1 :
  cache st !! (flat (b_input batch), b_probe_target_idx batch) = None →
  ffl batch st = (r, st1) →
  (b_input batch = [] ∧ r = Raise IndexError ∧ st1 = st)
  ∨ (b_input batch ≠ []
     ∧ encoder_calls st1 = S (encoder_calls st)
     ∧ (∀ k, k ≠ (flat (b_input batch), b_probe_target_idx batch) →
          cache st1 !! k = cache st !! k)
     ∧ match r with
       | Ok out =>
           ∃ v, out = finish v
                ∧ cache st1
                  = <[(flat (b_input batch), b_probe_target_idx batch) := v]> (cache st)
       | Raise _ => cache st1 = cache st
       end).
Proof.
  intros Hmiss. unfold SentenceRepresentationProber._forward_first_last.
  unfold mbind at 1 2, M_bind at 1 2, bind at 1 2, cache_lookup. simpl.
  rewrite Hmiss.
  unfold mbind at 1, M_bind at 1, bind at 1.
  destruct (Embedder.embed _ _ _ _ _ st) as [[e|err] st2] eqn:Hembed.
  - apply embed_cases in Hembed as [(_ & ? & _)|(Hne & ->)]; [done|].
    match goal with
    | |- context [lift ?p] => destruct p as [v|e']
    end.
    + unfold mbind, M_bind, bind, lift, cache_store, cache_get, mret, M_ret, ret.
      simpl. rewrite lookup_insert_eq. intros [= <- <-]. right. simpl.
      split_and!; try done; [|by eexists].
      intros k Hk. by rewrite lookup_insert_ne.
    + unfold mbind, M_bind, bind, lift. simpl.
      intros [= <- <-]. right. by split_and!.
  - apply embed_cases in Hembed as [(Hnil & [= ->] & ->)|(Hne & ->)].
    + intros [= <- <-]. by left.
    + intros [= <- <-]. right. by split_and!.
Qed.

Lemma prober_cache_filled batch st out st1 :
  ffl batch st = (Ok out, st1) →
  ∃ v, cache st1 !! (flat (b_input batch), b_probe_target_idx batch) = Some v
       ∧ out = finish v
       ∧ (∀ k, k ≠ (flat (b_input batch), b_probe_target_idx batch) →
            cache st1 !! k = cache st !! k)
       ∧ match cache st !! (flat (b_input batch), b_probe_target_idx batch) with
         | Some _ => st1 = st
         | None => encoder_calls st1 = S (encoder_calls st)
         end.
Proof.
  intros Hcall.
  destruct (cache st !! (flat (b_input batch), b_probe_target_idx batch))
    as [v|] eqn:Hhit.
  - rewrite (prober_cache_hit _ _ _ Hhit) in Hcall.
    injection Hcall as <- <-. exists v. by split_and!.
  - destruct (prober_cache_miss _ _ _ _ Hhit Hcall)
      as [(_ & ? & _)|(_ & Hcalls & Hframe & v & -> & Hstore)]; [done|].
    exists v. split_and!; try done. rewrite Hstore. apply lookup_insert_eq.
Qed.

(** Outside 'first' and 'last' the prober runs the encoder pass each time
    and leaves the cache alone. *)
Lemma prober_uncached_calls_encoder batch st r st1 :
  SentenceRepresentationProber._forward_uncached hidden_size encoder weighted_sum
    subword_pooling layer_pooling str_index_error pool_other batch st = (r, st1) →
  cache st1 = cache st
  ∧ (b_input batch ≠ [] → encoder_calls st1 = S (encoder_calls st))
  ∧ (b_input batch = [] → r = Raise IndexError ∧ st1 = st).
Proof.
  unfold SentenceRepresentationProber._forward_uncached.
  unfold mbind at 1, M_bind at 1, bind at 1.
  destruct (Embedder.embed _ _ _ _ _ st) as [[e|err] st2] eqn:Hembed.
  - apply embed_cases in Hembed as [(_ & ? & _)|(Hne & ->)]; [done|].
    unfold mbind, M_bind, bind, lift.
    destruct (SentenceRepresentationProber.select_layer _ _ _) as [e'|]; simpl;
      [|by intros [= <- <-]; split_and!].
    destruct (pooling_func subword_pooling) as [s|]; simpl;
      by intros [= <- <-]; split_and!.
  - apply embed_cases in Hembed as [(Hnil & [= ->] & ->)|(Hne & ->)];
      intros [= <- <-]; by split_and!.
Qed.

End Prober.

End CacheFacts.

Lemma cached_strategy sp :
  sp ∈ ["first"; "last"; "max"; "avg"; "sum"] →
  ∃ s, pooling_func sp = Ok s
       ∧ (s = First ∨ s = Last ∨ s = Max ∨ s = Avg ∨ s = Sum).
Proof.
  rewrite !elem_of_cons, elem_of_nil.
  intros [->|[->|[->|[->|[->|[]]]]]]; eexists; (split; [reflexivity|]); tauto.
Qed.

Lemma not_first_last sp :
  sp ∉ ["first"; "last"] →
  String.eqb sp "first" || String.eqb sp "last" = false.
Proof.
  rewrite !elem_of_cons, elem_of_nil. intros Hsp.
  destruct (String.eqb_spec sp "first"); [tauto|].
  destruct (String.eqb_spec sp "last"); [tauto|]. done.
Qed.

Lemma tagger_pool_cached {R : Type} `{Scalar R} (hidden_size : nat)
    (encoder : list (list Z) → list Z → result (list (list (list (list R)))))
    (weighted_sum : list (list (list (list R))) → list (list (list R)))
    (layer_pooling : layer_pooling) sp pool_stacked pool_uncached :
  sp ∈ ["first"; "last"; "max"; "avg"; "sum"] →
  ∃ s, ∀ b st0,
    TransformerForSequenceTagging.pool hidden_size encoder weighted_sum sp
      layer_pooling pool_stacked pool_uncached b st0
    = TransformerForSequenceTagging._forward_with_cache hidden_size encoder
        weighted_sum layer_pooling pool_stacked s b st0.
Proof.
  intros Hsp. destruct (cached_strategy sp Hsp) as (s & Hs & Hcase).
  exists s. intros b st0. unfold TransformerForSequenceTagging.pool.
  cbv [mbind M_bind bind lift]. rewrite Hs.
  destruct Hcase as [->|[->|[->|[->| ->]]]]; reflexivity.
Qed.

Lemma prober_pool_cached {R : Type} `{Scalar R} (hidden_size : nat)
    (encoder : list (list Z) → list Z → result (list (list (list (list R)))))
    (weighted_sum : list (list (list (list R))) → list (list (list R)))
    (layer_pooling : layer_pooling) sp shift_target str_index_error
    apply_layer_weights pool_other :
  sp ∈ ["first"; "last"] →
  ∀ b st0,
    SentenceRepresentationProber.pool hidden_size encoder weighted_sum sp
      layer_pooling shift_target str_index_error apply_layer_weights pool_other b st0
    = SentenceRepresentationProber._forward_first_last encoder weighted_sum
        sp layer_pooling shift_target str_index_error apply_layer_weights b st0.
Proof.
  intros Hsp b st0. unfold SentenceRepresentationProber.pool.
  rewrite !elem_of_cons, elem_of_nil in Hsp.
  destruct Hsp as [->|[->|[]]]; reflexivity.
Qed.

(** C4 (as amended).  [TransformerForSequenceTagging] caches the pooled
    tensor of each of 'first', 'last', 'max', 'avg' and 'sum' under the
    flattened token ids of the batch.  A call that returns leaves its
    tensor in the cache under that key and touches no other key; it has
    called the encoder exactly once when the key was absent and not at all
    when it was present.  A later call on a batch with the same flattened
    ids returns the same tensor and leaves the model, hence the count of
    encoder calls, unchanged; a later call on a batch (with rows) whose
    flattened ids are another, absent key is not served from the cache: it
    calls the encoder.  The later batches are batches of which the code
    makes tensors: rows of one length, ids and lengths within [int64].  [SentenceRepresentationProber] does all this for
    'first' and 'last' only, under the pair of the flattened ids and the
    target indices, the cached value being the target vectors before the
    layer weighting; for every other strategy the cache stays as it is and
    each call on a batch with rows calls the encoder once more. *)
Theorem pooled_tensors_are_cached {R : Type} `{Scalar R} (hidden_size : nat)
    (encoder : list (list Z) → list Z → result (list (list (list (list R)))))
    (weighted_sum : list (list (list (list R))) → list (list (list R)))
    (layer_pooling : layer_pooling) :
  (∀ sp pool_stacked pool_uncached batch st out st1,
     let pool := TransformerForSequenceTagging.pool hidden_size encoder weighted_sum
                   sp layer_pooling pool_stacked pool_uncached in
     let key := flat (b_input batch) in
     sp ∈ ["first"; "last"; "max"; "avg"; "sum"] →
     pool batch st = (Ok out, st1) →
     cache st1 !! key = Some out
     ∧ (∀ k, k ≠ key → cache st1 !! k = cache st !! k)
     ∧ (cache st !! key = None → encoder_calls st1 = S (encoder_calls st))
     ∧ (is_Some (cache st !! key) → st1 = st)
     ∧ (∀ batch', tensor_batch batch' = true → flat (b_input batch') = key →
          pool batch' st1 = (Ok out, st1))
     ∧ (∀ batch' r st2,
          tensor_batch batch' = true →
          cache st1 !! flat (b_input batch') = None → b_input batch' ≠ [] →
          pool batch' st1 = (r, st2) →
          encoder_calls st2 = S (encoder_calls st1)))
  ∧ (∀ sp shift_target str_index_error apply_layer_weights pool_other
       batch st out st1,
       let pool := SentenceRepresentationProber.pool hidden_size encoder weighted_sum
                     sp layer_pooling shift_target str_index_error
                     apply_layer_weights pool_other in
       let key := (flat (b_input batch), b_probe_target_idx batch) in
       sp ∈ ["first"; "last"] →
       pool batch st = (Ok out, st1) →
       (∃ v, cache st1 !! key = Some v
             ∧ out = SentenceRepresentationProber.finish_layers layer_pooling
                       apply_layer_weights v)
       ∧ (∀ k, k ≠ key → cache st1 !! k = cache st !! k)
       ∧ (cache st !! key = None → encoder_calls st1 = S (encoder_calls st))
       ∧ (is_Some (cache st !! key) → st1 = st)
       ∧ (∀ batch',
            tensor_batch batch' = true →
            (flat (b_input batch'), b_probe_target_idx batch') = key →
            pool batch' st1 = (Ok out, st1))
       ∧ (∀ batch' r st2,
            tensor_batch batch' = true →
            cache st1 !! (flat (b_input batch'), b_probe_target_idx batch') = None →
            b_input batch' ≠ [] →
            pool batch' st1 = (r, st2) →
            encoder_calls st2 = S (encoder_calls st1)))
  ∧ (∀ sp shift_target str_index_error apply_layer_weights pool_other batch st r st1,
       sp ∉ ["first"; "last"] →
       SentenceRepresentationProber.pool hidden_size encoder weighted_sum sp
         layer_pooling shift_target str_index_error apply_layer_weights pool_other
         batch st = (r, st1) →
       cache st1 = cache st
       ∧ (tensor_batch batch = true → b_input batch ≠ [] →
          encoder_calls st1 = S (encoder_calls st))
       ∧ (b_input batch = [] → r = Raise IndexError ∧ st1 = st)).
Proof.
  split_and!.
  - intros sp pool_stacked pool_uncached batch st out st1 pool key Hsp.
    destruct (tagger_pool_cached hidden_size encoder weighted_sum layer_pooling
                sp pool_stacked pool_uncached Hsp) as [s Hdisp].
    subst pool key. cbv beta. rewrite Hdisp. intros Hcall.
    apply tagger_cache_filled in Hcall as (Hfilled & Hframe & Hcalls).
    split_and!; try done.
    + intros Hmiss. by rewrite Hmiss in Hcalls.
    + intros [v Hv]. by rewrite Hv in Hcalls.
    + intros batch' _ Hkey. rewrite Hdisp. apply tagger_cache_hit. by rewrite Hkey.
    + intros batch' r st2 _ Hmiss Hrows. rewrite Hdisp. intros Hcall'.
      eapply tagger_cache_miss in Hcall' as [(Hnil & _)|(_ & Hcalls' & _)];
        done.
  - intros sp shift_target str_index_error apply_layer_weights pool_other
      batch st out st1 pool key Hsp.
    pose proof (prober_pool_cached hidden_size encoder weighted_sum layer_pooling
                  sp shift_target str_index_error apply_layer_weights pool_other Hsp)
      as Hdisp.
    subst pool key. cbv beta. rewrite Hdisp. intros Hcall.
    apply prober_cache_filled in Hcall as (v & Hfilled & -> & Hframe & Hcalls).
    split_and!; try done.
    + by exists v.
    + intros Hmiss. by rewrite Hmiss in Hcalls.
    + intros [w Hw]. by rewrite Hw in Hcalls.
    + intros batch' _ Hkey. rewrite Hdisp. apply prober_cache_hit. by rewrite Hkey.
    + intros batch' r st2 _ Hmiss Hrows. rewrite Hdisp. intros Hcall'.
      eapply prober_cache_miss in Hcall' as [(Hnil & _)|(_ & Hcalls' & _)];
        done.
  - intros sp shift_target str_index_error apply_layer_weights pool_other
      batch st r st1 Hsp.
    unfold SentenceRepresentationProber.pool.
    rewrite (not_first_last sp Hsp). intros Hcall.
    apply prober_uncached_calls_encoder in Hcall as (Hcache & Hcalls & Hnil).
    split_and!; [done| |done]. intros _. exact Hcalls.
Qed.

Lemma pooled_tensors_are_cached_witness :
  ex_tagger_pool "max" ex_batch
    {| cache := {[ flat (b_input ex_batch) := P2 [[3; 5]%Q] ]}; encoder_calls := 1 |}
  = (Ok (P2 [[3; 5]%Q]),
     {| cache := {[ flat (b_input ex_batch) := P2 [[3; 5]%Q] ]}; encoder_calls := 1 |}).
Proof.
  refine (proj1 (proj2 (proj2 (proj2 (proj2
    (proj1 (pooled_tensors_are_cached 2 ex_encoder ex_weighted_sum (LPStr "last"))
       "max" no_pool4 no_pool_e ex_batch empty_state (P2 [[3; 5]%Q])
       {| cache := {[ flat (b_input ex_batch) := P2 [[3; 5]%Q] ]};
          encoder_calls := 1 |} _ _))))) ex_batch _ _).
  - rewrite !elem_of_cons. tauto.
  - vm_compute. reflexivity.
  - reflexivity.
  - reflexivity.
Defined.

(** C4 as stated fails for 'max' in [SentenceRepresentationProber]: the
    second call on the same batch returns the same vectors but has invoked
    the encoder a second time, and nothing was cached. *)
Lemma prober_max_is_not_cached :
  ∃ out st1 st2,
    ex_prober_pool "max" ex_batch empty_state = (Ok out, st1)
    ∧ ex_prober_pool "max" ex_batch st1 = (Ok out, st2)
    ∧ encoder_calls st1 = 1
    ∧ encoder_calls st2 = 2
    ∧ cache st2 = ∅.
Proof.
  do 3 eexists. split_and!; [vm_compute; reflexivity..|reflexivity].
Qed.

(** * Unknown strategy names *)

Lemma unknown_layer_name s :
  s ∉ layer_pooling_names →
  String.eqb s "weighted_sum" = false ∧ String.eqb s "all" = false
  ∧ String.eqb s "sum" = false ∧ String.eqb s "last" = false
  ∧ String.eqb s "first" = false.
Proof.
  unfold layer_pooling_names. rewrite !elem_of_cons, elem_of_nil. intros Hs.
  split_and!; apply String.eqb_neq; intros ->; tauto.
Qed.

Lemma unknown_subword_name sp :
  sp ∉ subword_pooling_names → pooling_func sp = Raise (KeyError sp).
Proof.
  unfold subword_pooling_names. rewrite !elem_of_cons, elem_of_nil. intros Hs.
  unfold pooling_func.
  repeat (match goal with
          | |- context [String.eqb sp ?n] =>
              destruct (String.eqb_spec sp n); [tauto|]
          end).
  done.
Qed.

Section UnknownNames.

Context {R : Type} `{Scalar R}.
Variable encoder : list (list Z) → list Z → result (list (list (list (list R)))).
Variable weighted_sum : list (list (list (list R))) → list (list (list R)).

Lemma embed_unknown_layer {K} `{Countable K} s sentences lens
    (st st1 : model_state K (pooled R)) out :
  s ∉ layer_pooling_names →
  Embedder.forward encoder sentences lens st = (Ok out, st1) →
  Embedder.embed encoder weighted_sum (LPStr s) sentences lens st
  = (Raise (ValueError ("Unknown pooling mechanism: " +:+ s)), st1).
Proof.
  intros Hs Hfwd. destruct (unknown_layer_name s Hs) as (H1 & H2 & H3 & H4 & H5).
  unfold Embedder.embed. cbv [mbind M_bind bind]. rewrite Hfwd.
  cbv [lift]. by rewrite H1, H2, H3, H4, H5.
Qed.

Lemma embed_pass_raises {K} `{Countable K} lp sentences lens
    (st st1 : model_state K (pooled R)) e :
  Embedder.forward encoder sentences lens st = (Raise e, st1) →
  Embedder.embed encoder weighted_sum lp sentences lens st = (Raise e, st1).
Proof.
  intros Hfwd. unfold Embedder.embed. cbv [mbind M_bind bind]. by rewrite Hfwd.
Qed.

End UnknownNames.

(** C9 (as amended).  On the batches of which the code makes tensors
    (rows of one length, ids and lengths within [int64]), the encoder pass
    of [Embedder.forward] fails on a batch without rows before the encoder
    is called, and otherwise calls the encoder once and fails when the
    encoder does.  When the pass
    returns, an unrecognised layer-pooling name that reaches
    [Embedder.embed] fails with a value error whose message names it, and
    when the pass fails its error is raised instead; this is what
    [TransformerForSequenceTagging.forward] does with a known subword
    pooling, on a cache miss for the five cached ones.  An unrecognised
    subword-pooling name fails in both [forward] methods with the key error
    of the table lookup, which carries the name: at once in
    [TransformerForSequenceTagging], and in [SentenceRepresentationProber]
    once the encoder pass has returned and the layer has been selected, the
    failure of the selection coming first. *)
Theorem unknown_pooling_names_fail {R : Type} `{Scalar R} {Pred : Type}
    (hidden_size : nat)
    (encoder : list (list Z) → list Z → result (list (list (list (list R)))))
    (weighted_sum : list (list (list (list R))) → list (list (list R)))
    (head : pooled R → result Pred) :
  (∀ {K} `{Countable K} sentences lens (st : model_state K (pooled R)),
     tensor_rows sentences = true → forallb in_int64 lens = true →
     Embedder.forward encoder sentences lens st
     = match sentences with
       | [] => (Raise IndexError, st)
       | _ :: _ => (encoder sentences lens, after_encoder_call st)
       end)
  ∧ (∀ {K} `{Countable K} s sentences lens (st st1 : model_state K (pooled R)),
       s ∉ layer_pooling_names →
       tensor_rows sentences = true → forallb in_int64 lens = true →
       (∀ out, Embedder.forward encoder sentences lens st = (Ok out, st1) →
          Embedder.embed encoder weighted_sum (LPStr s) sentences lens st
          = (Raise (ValueError ("Unknown pooling mechanism: " +:+ s)), st1))
       ∧ (∀ e, Embedder.forward encoder sentences lens st = (Raise e, st1) →
            Embedder.embed encoder weighted_sum (LPStr s) sentences lens st
            = (Raise e, st1)))
  ∧ (∀ sp s pool_stacked pool_uncached batch st st1,
       sp ∈ subword_pooling_names →
       s ∉ layer_pooling_names →
       (sp ∈ ["first"; "last"; "max"; "avg"; "sum"] →
        cache st !! flat (b_input batch) = None) →
       tensor_batch batch = true →
       (∀ out, Embedder.forward encoder (b_input batch) (b_input_len batch) st
               = (Ok out, st1) →
          TransformerForSequenceTagging.forward hidden_size encoder weighted_sum sp
            (LPStr s) pool_stacked pool_uncached head batch st
          = (Raise (ValueError ("Unknown pooling mechanism: " +:+ s)), st1))
       ∧ (∀ e, Embedder.forward encoder (b_input batch) (b_input_len batch) st
               = (Raise e, st1) →
            TransformerForSequenceTagging.forward hidden_size encoder weighted_sum sp
              (LPStr s) pool_stacked pool_uncached head batch st
            = (Raise e, st1)))
  ∧ (∀ sp layer_pooling pool_stacked pool_uncached batch st,
       sp ∉ subword_pooling_names →
       TransformerForSequenceTagging.forward hidden_size encoder weighted_sum sp
         layer_pooling pool_stacked pool_uncached head batch st
       = (Raise (KeyError sp), st))
  ∧ (∀ sp layer_pooling shift_target str_index_error apply_layer_weights pool_other
       batch st st1,
       sp ∉ subword_pooling_names →
       tensor_batch batch = true →
       (∀ out, Embedder.forward encoder (b_input batch) (b_input_len batch) st
               = (Ok out, st1) →
          SentenceRepresentationProber.forward hidden_size encoder weighted_sum sp
            layer_pooling shift_target str_index_error apply_layer_weights pool_other
            head batch st
          = (Raise (match stack out
                            ≫= λ layers, SentenceRepresentationProber.select_layer
                                           layer_pooling str_index_error (E4 layers) with
                    | Ok _ => KeyError sp
                    | Raise e => e
                    end),
             st1))
       ∧ (∀ e, Embedder.forward encoder (b_input batch) (b_input_len batch) st
               = (Raise e, st1) →
            SentenceRepresentationProber.forward hidden_size encoder weighted_sum sp
              layer_pooling shift_target str_index_error apply_layer_weights
              pool_other head batch st
            = (Raise e, st1))).
Proof.
  split_and!.
  - intros K ? ? sentences lens st _ _. apply forward_eq.
  - intros K ? ? s sentences lens st st1 Hs _ _. split.
    + intros out Hfwd. by eapply embed_unknown_layer.
    + intros e Hfwd. by apply embed_pass_raises.
  - intros sp s pool_stacked pool_uncached batch st st1 Hsp Hs Hmiss _.
    assert (∀ r, Embedder.embed encoder weighted_sum (LPStr s) (b_input batch)
                   (b_input_len batch) st = (Raise r, st1) →
              TransformerForSequenceTagging.forward hidden_size encoder weighted_sum
                sp (LPStr s) pool_stacked pool_uncached head batch st
              = (Raise r, st1)) as Hfail.
    { intros r Hembed.
      unfold TransformerForSequenceTagging.forward, TransformerForSequenceTagging.pool,
        TransformerForSequenceTagging._forward_with_cache,
        TransformerForSequenceTagging._forward_uncached.
      unfold subword_pooling_names in Hsp. rewrite !elem_of_cons, elem_of_nil in Hsp.
      destruct Hsp as [->|[->|[->|[->|[->|[->|[->|[->|[->|[]]]]]]]]]];
        cbv [mbind M_bind bind lift cache_lookup pooling_func String.eqb Ascii.eqb
               Bool.eqb];
        try (rewrite Hmiss by (rewrite !elem_of_cons; tauto));
        rewrite Hembed; reflexivity. }
    split.
    + intros out Hfwd. apply Hfail. by eapply embed_unknown_layer.
    + intros e Hfwd. apply Hfail. by apply embed_pass_raises.
  - intros sp layer_pooling pool_stacked pool_uncached batch st Hsp.
    unfold TransformerForSequenceTagging.forward, TransformerForSequenceTagging.pool.
    cbv [mbind M_bind bind lift]. by rewrite (unknown_subword_name sp Hsp).
  - intros sp layer_pooling shift_target str_index_error apply_layer_weights pool_other
      batch st st1 Hsp _.
    assert (sp ∉ ["first"; "last"]) as Hfl.
    { intros Hin. apply Hsp. unfold subword_pooling_names.
      rewrite !elem_of_cons, elem_of_nil in Hin. rewrite !elem_of_cons. tauto. }
    split.
    + intros out Hfwd.
      unfold SentenceRepresentationProber.forward, SentenceRepresentationProber.pool.
      rewrite (not_first_last sp Hfl).
      unfold SentenceRepresentationProber._forward_uncached, Embedder.embed.
      cbv [mbind M_bind bind]. rewrite Hfwd.
      cbv [lift result_bind String.eqb Ascii.eqb Bool.eqb fmap result_fmap].
      rewrite (unknown_subword_name sp Hsp).
      destruct (stack out) as [layers|]; [|reflexivity].
      destruct (SentenceRepresentationProber.select_layer _ _ _); reflexivity.
    + intros e Hfwd.
      unfold SentenceRepresentationProber.forward, SentenceRepresentationProber.pool.
      rewrite (not_first_last sp Hfl).
      unfold SentenceRepresentationProber._forward_uncached.
      cbv [mbind M_bind bind].
      by rewrite (embed_pass_raises encoder weighted_sum _ _ _ _ _ _ Hfwd).
Qed.

Lemma median_is_unknown : "median" ∉ subword_pooling_names.
Proof.
  unfold subword_pooling_names. intros Hin.
  repeat (apply elem_of_cons in Hin as [Hin|Hin]; [discriminate|]).
  by apply elem_of_nil in Hin.
Qed.

Lemma median_is_no_layer_pooling : "median" ∉ layer_pooling_names.
Proof.
  unfold layer_pooling_names. intros Hin.
  repeat (apply elem_of_cons in Hin as [Hin|Hin]; [discriminate|]).
  by apply elem_of_nil in Hin.
Qed.

Lemma unknown_pooling_names_fail_witness :
  TransformerForSequenceTagging.forward 2 ex_encoder ex_weighted_sum "max"
    (LPStr "median") no_pool4 no_pool_e Ok ex_batch empty_state
  = (Raise (ValueError ("Unknown pooling mechanism: " +:+ "median")),
     after_encoder_call empty_state).
Proof.
  refine (proj1 (proj1 (proj2 (proj2
            (unknown_pooling_names_fail 2 ex_encoder ex_weighted_sum Ok)))
          "max" "median" no_pool4 no_pool_e ex_batch empty_state
          (after_encoder_call empty_state) _ _ _ _) [ex_embedded] _).
  - unfold subword_pooling_names. rewrite !elem_of_cons. tauto.
  - exact median_is_no_layer_pooling.
  - intros _. reflexivity.
  - reflexivity.
  - reflexivity.
Defined.

(** C9 as stated fails for the subword pooling: with the unknown name
    "median" both [forward] methods raise the key error of the dictionary
    lookup, not a value error, the prober after having run the encoder. *)
Lemma unknown_subword_pooling_raises_key_error :
  TransformerForSequenceTagging.forward 2 ex_encoder ex_weighted_sum "median"
    (LPStr "last") no_pool4 no_pool_e Ok ex_batch empty_state
  = (Raise (KeyError "median"), empty_state)
  ∧ SentenceRepresentationProber.forward 2 ex_encoder ex_weighted_sum "median"
      (LPInt 0) 0 (λ _, IndexError) id no_pool3 Ok ex_batch empty_state
    = (Raise (KeyError "median"), after_encoder_call empty_state)
  ∧ ∀ msg, KeyError "median" ≠ ValueError msg.
Proof.
  split_and!; [vm_compute; reflexivity..|]. intros msg. discriminate.
Qed.

(** ** What the unused computation of the bag-of-words branch yields *)

Lemma Sorted_le_seq j n : Sorted le (seq j n).
Proof.
  revert j; induction n as [|n IH]; intros j; simpl; [constructor|].
  constructor; [apply IH|]. destruct n; simpl; constructor. lia.
Qed.

Lemma argsort_insert_sorted (a : list nat) i l :
  Sorted le ((a !!!.) <$> l) → Sorted le ((a !!!.) <$> argsort_insert a i l).
Proof.
  induction l as [|j l IH]; simpl; intros Hs.
  - repeat constructor.
  - destruct (Nat.leb_spec (a !!! j) (a !!! i)) as [Hle|Hgt]; simpl.
    + apply Sorted_inv in Hs as [Hs Hhd].
      constructor; [by apply IH|].
      destruct l as [|k l]; simpl.
      * by constructor.
      * destruct (Nat.leb_spec (a !!! k) (a !!! i)); simpl; constructor; [|done].
        by inversion Hhd.
    + constructor; [done|]. constructor. lia.
Qed.

Lemma argsort_fold_sorted (a : list nat) l acc :
  Sorted le ((a !!!.) <$> acc) →
  Sorted le ((a !!!.) <$> foldl (λ acc i, argsort_insert a i acc) acc l).
Proof.
  revert acc; induction l as [|i l IH]; intros acc Hs; simpl; [done|].
  by apply IH, argsort_insert_sorted.
Qed.

Lemma fmap_lookup_total_seq (a : list nat) : (a !!!.) <$> seq 0 (length a) = a.
Proof.
  apply list_eq. intros i. rewrite list_lookup_fmap.
  destruct (a !! i) as [x|] eqn:Hx.
  - assert (i < length a) by (apply lookup_lt_is_Some; eauto).
    rewrite (proj2 (lookup_seq 0 (length a) i i)) by (split; [done|lia]). simpl.
    f_equal. by apply list_lookup_total_correct.
  - apply lookup_ge_None in Hx.
    by rewrite (proj2 (lookup_ge_None (seq 0 (length a)) i)) by (rewrite length_seq; lia).
Qed.

(** On a shuffled [arange], [argsort] is the inverse permutation. *)
Lemma argsort_inverse (p : list nat) i t :
  p ≡ₚ seq 0 (length p) →
  argsort p !! i = Some t → p !! t = Some i.
Proof.
  intros Hperm Ht.
  assert ((p !!!.) <$> argsort p = seq 0 (length p)) as Hkeys.
  { apply (Sorted_unique le).
    - apply argsort_fold_sorted. constructor.
    - apply Sorted_le_seq.
    - rewrite argsort_perm, fmap_lookup_total_seq. done. }
  assert (((p !!!.) <$> argsort p) !! i = Some (p !!! t)) as Hkey
    by (by rewrite list_lookup_fmap, Ht).
  rewrite Hkeys in Hkey. apply lookup_seq in Hkey as [Hkey _]. simpl in Hkey.
  pose proof (argsort_bound _ _ _ Ht) as Hlt.
  destruct (lookup_lt_is_Some_2 p t Hlt) as [x Hx].
  rewrite (list_lookup_total_correct _ _ _ Hx) in Hkey. by subst.
Qed.

Section BagOfWords.

Variable tokenize : string → list string.
Variable MASK : string.
Variable py_int : string → result Z.

(** X9.  With [bow] set, the value of the local variable [target_idx] when the
    function returns is the start, among the shuffled groups, of the
    pieces of the original target word; the returned sample nevertheless
    records [raw_idx]. *)
Lemma bow_local_target_is_exact mp shuffle line s t :
  (∀ l, shuffle l ≡ₚ l) →
  extract_sample_from_line_full tokenize MASK py_int mp true shuffle line = Ok (s, t) →
  (0 ≤ raw_idx s)%Z →
  let tokenized := tokenize_words tokenize MASK mp (raw_idx s)
                     (split space (raw_sentence s)) in
  target_idx s = raw_idx s
  ∧ ∃ j g,
      shuffle (seq 0 (length tokenized)) !! j = Some (Z.to_nat (raw_idx s))
      ∧ tokenized !! Z.to_nat (raw_idx s) = Some g
      ∧ token_starts s !! j = Some t
      ∧ slice t (t + length g) (tokens s) = g.
Proof.
  intros Hperm. unfold extract_sample_from_line_full.
  destruct (take 3 (split tab (rstrip_nl line)))
    as [|sent [|tgt [|idx [|? ?]]]] eqn:Hfd; simpl; try done.
  destruct (py_int idx) as [k|] eqn:Hk; simpl; [|done].
  set (tokenized := tokenize_words tokenize MASK mp k (split space sent)).
  set (all_idx := shuffle (seq 0 (length tokenized))).
  destruct (rmapM _ all_idx) as [tokenized'|] eqn:Hmap; simpl; [|done].
  destruct (py_index (argsort all_idx) k) as [j|] eqn:Hj; simpl; [|done].
  rewrite merge_pieces_spec.
  destruct (py_index (offsets 0 tokenized') _) as [t'|] eqn:Ht; simpl; [|done].
  intros [= <- <-]; simpl. intros Hk0. split; [done|].
  assert (all_idx ≡ₚ seq 0 (length all_idx)) as Hall.
  { unfold all_idx. by rewrite Hperm, length_seq. }
  rewrite <- (Z2Nat.id k Hk0) in Hj. apply py_index_Ok_lookup in Hj.
  apply (argsort_inverse _ _ _ Hall) in Hj as Hpos.
  apply py_index_Ok_lookup in Ht.
  assert (j < length tokenized') as Hlt.
  { apply lookup_lt_Some in Ht. by rewrite length_offsets in Ht. }
  destruct (lookup_lt_is_Some_2 tokenized' j Hlt) as [g Hg].
  destruct (rmapM_lookup _ _ _ _ _ Hmap Hg) as (i & Hi & Hgi).
  rewrite Hpos in Hi. injection Hi as <-.
  apply py_index_Ok_lookup in Hgi.
  exists j, g. split_and!; try done.
  rewrite offsets_lookup in Ht by done. simpl in Ht. injection Ht as <-.
  pose proof (slice_concat_group tokenized' j g Hg) as Hslice.
  rewrite (concat_take_S _ _ _ Hg), length_app in Hslice. done.
Qed.

End BagOfWords.

(** * Further properties *)

(** ** Character offsets of the mid-sentence variant *)

Lemma split_nonempty sep s : split sep s ≠ [].
Proof.
  destruct s as [|c s]; simpl; [done|].
  destruct (Ascii.eqb c sep); [done|]. by destruct (split sep s).
Qed.

Lemma split_join_chars sep s :
  join_chars sep (split sep s) = list_ascii_of_string s.
Proof.
  induction s as [|c s IH]; simpl; [done|].
  destruct (Ascii.eqb_spec c sep) as [->|Hne].
  - pose proof (split_nonempty sep s).
    destruct (split sep s) as [|w ws]; [done|]. simpl in *. by rewrite IH.
  - pose proof (split_nonempty sep s).
    destruct (split sep s) as [|w ws]; [done|].
    rewrite <- IH. by destruct ws.
Qed.

Lemma join_chars_offset sep (ws : list string) k w :
  ws !! k = Some w →
  ∃ rest, drop (sum_len (take k ws) + k) (join_chars sep ws)
          = list_ascii_of_string w ++ rest.
Proof.
  revert k; induction ws as [|v ws IH]; intros k Hk; [done|].
  destruct k as [|k]; simpl in *.
  - injection Hk as ->.
    destruct ws; simpl; [exists []; by rewrite app_nil_r | eexists; reflexivity].
  - destruct (IH k Hk) as [rest Hrest].
    destruct ws as [|v' ws]; [done|].
    exists rest. unfold sum_len in *. simpl in *.
    replace (String.length v + sum_list_with String.length (take k (v' :: ws)) + S k)
      with (length (list_ascii_of_string v)
            + S (sum_list_with String.length (take k (v' :: ws)) + k)).
    + rewrite drop_app_add. simpl. exact Hrest.
    + assert (length (list_ascii_of_string v) = String.length v) as ->; [|lia].
      clear. induction v; simpl; [done|]. by f_equal.
Qed.

Lemma length_list_ascii (s : string) :
  length (list_ascii_of_string s) = String.length s.
Proof. induction s; simpl; [done|]. by f_equal. Qed.

(** X1.  In the mid-sentence variant, for a target index that designates
    a word of the sentence, the recorded character offset is where that
    word begins in the character sequence when the first character is
    probed; when the last one is probed and the target field is that word
    (not empty), the offset is that of the word's last character. *)
Theorem mid_target_offset_designates_word (py_int : string → result Z)
    (probe_first_char : bool) (line : string) (s : MidSequenceProberFields)
    (w : string) :
  Mid_extract_sample_from_line py_int probe_first_char line = Ok s →
  (0 ≤ mid_raw_idx s)%Z →
  split space (mid_raw_sentence s) !! Z.to_nat (mid_raw_idx s) = Some w →
  mid_input_len s = String.length (mid_raw_sentence s)
  ∧ (probe_first_char = true →
       (0 ≤ mid_target_idx s)%Z
       ∧ ∃ rest, drop (Z.to_nat (mid_target_idx s)) (mid_input s)
                 = list_ascii_of_string w ++ rest)
  ∧ (probe_first_char = false → mid_raw_target s = w → w ≠ EmptyString →
       (0 ≤ mid_target_idx s)%Z
       ∧ mid_input s !! Z.to_nat (mid_target_idx s) = last (list_ascii_of_string w)).
Proof.
  unfold Mid_extract_sample_from_line.
  destruct (take 3 (split tab (rstrip_nl line)))
    as [|sent [|tgt [|idx [|? ?]]]] eqn:Hfd; simpl; try done.
  destruct (py_int idx) as [k|] eqn:Hk; simpl; [|done].
  intros [= <-]; simpl. intros Hk0 Hw.
  assert (py_take k (split space sent) = take (Z.to_nat k) (split space sent)) as Htake.
  { unfold py_take. destruct (Z.ltb_spec k 0); [lia|done]. }
  rewrite Htake.
  destruct (join_chars_offset space _ _ _ Hw) as [rest Hrest].
  rewrite split_join_chars in Hrest.
  split_and!.
  - apply length_list_ascii.
  - intros ->. split; [lia|]. exists rest. rewrite <- Hrest. f_equal. lia.
  - intros -> -> Hne. split.
    + destruct w; [done|]. simpl. lia.
    + set (off := sum_len (take (Z.to_nat k) (split space sent)) + Z.to_nat k) in *.
      assert (String.length w ≠ 0) by (by destruct w).
      replace (Z.to_nat _) with (off + (String.length w - 1)) by (unfold off; lia).
      rewrite <- lookup_drop, Hrest.
      rewrite lookup_app_l by (rewrite length_list_ascii; lia).
      rewrite last_lookup, length_list_ascii. f_equal. lia.
Qed.

Lemma mid_target_offset_designates_word_witness :
  (0 ≤ 2)%Z
  ∧ ∃ rest, drop (Z.to_nat 2) (list_ascii_of_string "a bb ccc")
            = list_ascii_of_string "bb" ++ rest.
Proof.
  refine (proj1 (proj2 (mid_target_offset_designates_word decimal_int true mid_line
           {| mid_raw_sentence := "a bb ccc"; mid_raw_target := "bb"; mid_raw_idx := 1;
              mid_input := list_ascii_of_string "a bb ccc"; mid_input_len := 8;
              mid_target_idx := 2; mid_label := None |} "bb" _ _ _)) eq_refl).
  - vm_compute. reflexivity.
  - simpl. lia.
  - reflexivity.
Defined.

(** ** The embedding after loading *)

Section EmbeddingLoad.

Context {F : Type}.
Variable py_float : string → result F.

Lemma emb_loop_app flt (e : Embedding F) a b :
  emb_loop py_float flt e (a ++ b)
  = emb_loop py_float flt e a ≫= λ e', emb_loop py_float flt e' b.
Proof.
  revert e; induction a as [|l a IH]; intros e; simpl; [done|].
  destruct (emb_step py_float flt e l); simpl; [apply IH|done].
Qed.

Lemma emb_step_vocab flt (e e' : Embedding F) line :
  emb_step py_float flt e line = Ok e' →
  if loaded_line flt line
  then emb_vocab e' = <[emb_word line := length (emb_mtx e)]> (emb_vocab e)
  else e' = e.
Proof.
  unfold emb_step, loaded_line, emb_word.
  destruct (length _ =? 2); simpl; [by intros [= <-]|].
  destruct (filtered_out _ _); simpl; [by intros [= <-]|].
  destruct (rmapM _ _) as [row|]; simpl; [|done].
  by intros [= <-].
Qed.

Lemma emb_step_in_range flt (e e' : Embedding F) line :
  emb_step py_float flt e line = Ok e' → vocab_in_range e → vocab_in_range e'.
Proof.
  intros Hstep Hin.
  pose proof (emb_step_loaded _ _ _ _ _ Hstep) as Hm.
  pose proof (emb_step_vocab _ _ _ _ Hstep) as Hv.
  destruct (loaded_line flt line); [|by subst].
  destruct Hm as (row & _ & Hm). intros w i. rewrite Hv, Hm, length_app. simpl.
  destruct (decide (emb_word line = w)) as [->|Hne].
  - rewrite lookup_insert_eq. intros [= <-]. lia.
  - rewrite lookup_insert_ne by done. intros Hw. apply Hin in Hw. lia.
Qed.

Lemma emb_loop_in_range flt stream (e e' : Embedding F) :
  emb_loop py_float flt e stream = Ok e' → vocab_in_range e → vocab_in_range e'.
Proof.
  revert e; induction stream as [|l stream IH]; intros e; simpl.
  - by intros [= <-].
  - destruct (emb_step py_float flt e l) as [e1|] eqn:Hstep; simpl; [|done].
    intros Hloop Hin. eapply IH; [done|]. by eapply emb_step_in_range.
Qed.

(** A word stays bound to its row as long as no later loaded line carries
    the same word. *)
Lemma emb_loop_keeps flt stream (e e' : Embedding F) w i row :
  emb_loop py_float flt e stream = Ok e' →
  (∀ l, l ∈ stream → loaded_line flt l = true → emb_word l ≠ w) →
  emb_vocab e !! w = Some i → emb_mtx e !! i = Some row →
  emb_vocab e' !! w = Some i ∧ emb_mtx e' !! i = Some row.
Proof.
  revert e; induction stream as [|l stream IH]; intros e; simpl.
  - by intros [= <-].
  - destruct (emb_step py_float flt e l) as [e1|] eqn:Hstep; simpl; [|done].
    intros Hloop Hfresh Hw Hrow.
    apply (IH e1 Hloop).
    + intros l' Hl'. apply Hfresh. by right.
    + pose proof (emb_step_vocab _ _ _ _ Hstep) as Hv.
      destruct (loaded_line flt l) eqn:Hl; [|by subst].
      rewrite Hv, lookup_insert_ne; [done|]. apply Hfresh; [left|done].
    + pose proof (emb_step_loaded _ _ _ _ _ Hstep) as Hm.
      destruct (loaded_line flt l); [|by subst].
      destruct Hm as (r & _ & ->). rewrite lookup_app_l; [done|].
      by eapply lookup_lt_Some.
Qed.

End EmbeddingLoad.

(** X2.  After [Embedding.load_stream] every word of the vocabulary is
    bound to a row of the matrix, so [__getitem__] never raises for a known
    word; the matrix has one row per loaded line, a line being loaded
    unless its stripped text splits on single spaces into exactly two fields
    or a non-empty filter lacks its first field (so a blank line is loaded,
    as the empty word without numbers, and a word followed by a single
    number is skipped like the header). *)
Theorem embedding_known_words_have_rows {F : Type} (py_float : string → result F)
    (flt : option (gset string)) (stream : list string) (e : Embedding F) :
  Embedding_load_stream py_float flt stream = Ok e →
  length (emb_mtx e) = length (filter (λ l, loaded_line flt l = true) stream)
  ∧ ∀ key, is_Some (emb_vocab e !! key) →
      ∃ row, Embedding_getitem e key = Ok row ∧ row ∈ emb_mtx e.
Proof.
  intros Hload. split.
  - destruct (emb_loop_rows py_float flt stream _ e Hload) as (rows & Hrows & Hmtx).
    simpl in Hmtx. rewrite Hmtx. by apply rmapM_length in Hrows.
  - intros key [i Hi].
    assert (vocab_in_range e) as Hin.
    { eapply emb_loop_in_range; [exact Hload|]. intros w j. simpl.
      by rewrite lookup_empty. }
    unfold Embedding_getitem. rewrite Hi, py_index_nat.
    destruct (lookup_lt_is_Some_2 (emb_mtx e) i (Hin _ _ Hi)) as [row Hrow].
    rewrite Hrow. exists row. split; [done|]. by eapply list_elem_of_lookup_2.
Qed.

Lemma embedding_known_words_have_rows_witness :
  ∃ e : Embedding Z,
    Embedding_load_stream decimal_int None emb_file_example = Ok e
    ∧ length (emb_mtx e) = 3.
Proof.
  eexists. split; [vm_compute; reflexivity|].
  refine (proj1 (embedding_known_words_have_rows decimal_int None emb_file_example _ _)).
  vm_compute. reflexivity.
Defined.

(** X3.  When a word occurs on several loaded lines, the last one wins:
    [__getitem__] returns the vector of the last loaded line that carries
    the word. *)
Theorem embedding_last_occurrence_wins {F : Type} (py_float : string → result F)
    (flt : option (gset string)) (pre post : list string) (line : string)
    (e : Embedding F) :
  Embedding_load_stream py_float flt (pre ++ line :: post) = Ok e →
  loaded_line flt line = true →
  (∀ l, l ∈ post → loaded_line flt l = true → emb_word l ≠ emb_word line) →
  ∃ row, rmapM py_float (tail (split space (strip line))) = Ok row
         ∧ Embedding_getitem e (emb_word line) = Ok row.
Proof.
  unfold Embedding_load_stream. rewrite emb_loop_app.
  destruct (emb_loop py_float flt _ pre) as [e1|]; simpl; [|done].
  destruct (emb_step py_float flt e1 line) as [e2|] eqn:Hstep; simpl; [|done].
  intros Hloop Hline Hfresh.
  pose proof (emb_step_loaded _ _ _ _ _ Hstep) as Hm.
  pose proof (emb_step_vocab _ _ _ _ _ Hstep) as Hv.
  rewrite Hline in Hm, Hv. destruct Hm as (row & Hrow & Hm).
  destruct (emb_loop_keeps py_float flt post e2 e (emb_word line)
              (length (emb_mtx e1)) row Hloop Hfresh) as [Hw Hr].
  - by rewrite Hv, lookup_insert_eq.
  - rewrite Hm. by rewrite list_lookup_middle.
  - exists row. split; [done|].
    unfold Embedding_getitem. by rewrite Hw, py_index_nat, Hr.
Qed.

Lemma embedding_last_occurrence_wins_witness :
  ∃ row, rmapM decimal_int (tail (split space (strip "cat 5 6"))) = Ok row
         ∧ Embedding_getitem
             {| emb_mtx := [[1; 2]; [3; 4]; [5; 6]]%Z;
                emb_vocab := <["cat" := 2]> (<["dog" := 1]> (<["cat" := 0]> ∅)) |}
             (emb_word "cat 5 6") = Ok row.
Proof.
  refine (embedding_last_occurrence_wins decimal_int None
            ["2 2"; "cat 1 2"; "dog 3 4"] [] "cat 5 6" _ _ _ _).
  - vm_compute. reflexivity.
  - vm_compute. reflexivity.
  - intros l Hl. by apply elem_of_nil in Hl.
Defined.

(** ** Batches partition the data *)

Lemma concat_Permutation_proper {A} (l1 l2 : list (list A)) :
  l1 ≡ₚ l2 → concat l1 ≡ₚ concat l2.
Proof.
  induction 1 as [|x l1 l2 _ IH|x y l|l1 l2 l3 _ IH1 _ IH2]; simpl.
  - done.
  - by rewrite IH.
  - rewrite !app_assoc. f_equiv. apply Permutation_app_comm.
  - by rewrite IH1.
Qed.

Lemma concat_chunks {A} (bs c : nat) (l : list A) :
  length l ≤ c * bs →
  concat ((λ k, slice (k * bs) (k * bs + bs) l) <$> seq 0 c) = l.
Proof.
  revert l; induction c as [|c IH]; intros l Hlen.
  - simpl in *. by destruct l; [|simpl in Hlen; lia].
  - simpl seq. rewrite fmap_cons. simpl concat.
    rewrite <- fmap_S_seq, <- list_fmap_compose.
    erewrite (list_fmap_ext _ (λ k, slice (k * bs) (k * bs + bs) (drop bs l))).
    + rewrite IH by (rewrite length_drop; lia).
      unfold slice. simpl. replace (bs - 0) with bs by lia. rewrite drop_0.
      apply take_drop.
    + intros i k _. simpl. unfold slice. rewrite drop_drop.
      f_equal; try lia; f_equal; lia.
Qed.

Lemma range_step_covers n bs : 0 < bs → n ≤ (n + bs - 1) / bs * bs.
Proof.
  intros Hbs.
  pose proof (Nat.div_mod_eq (n + bs - 1) bs) as Hdm.
  pose proof (Nat.mod_upper_bound (n + bs - 1) bs ltac:(lia)) as Hmod.
  nia.
Qed.

(** X4.  When the dataset has as many entries as [len(self)] says, the
    batches of [EmbeddingProberDataset.batched_iter] partition it: each
    batch holds between one and [batch_size] entries with as many labels,
    and together the batches hold every entry exactly once, in the original
    order when nothing is shuffled. *)
Theorem batches_partition_the_data {V L : Type}
    (is_unlabeled shuffle_batches : bool) (shuffle : list nat → list nat)
    (target_word : list V) (label : list L) (batch_size : nat) :
  0 < batch_size →
  (∀ l, shuffle l ≡ₚ l) →
  length label = length target_word →
  ∃ ys,
    EmbeddingProberDataset_batched_iter (length target_word) is_unlabeled
      shuffle_batches shuffle target_word label batch_size = Ok ys
    ∧ concat (fst <$> ys) ≡ₚ target_word
    ∧ concat (snd <$> ys) ≡ₚ label
    ∧ (negb is_unlabeled && shuffle_batches = false →
       concat (fst <$> ys) = target_word ∧ concat (snd <$> ys) = label)
    ∧ ∀ y, y ∈ ys →
        1 ≤ length y.1 ∧ length y.1 ≤ batch_size ∧ length y.2 = length y.1.
Proof.
  intros Hbs Hperm Hlen.
  unfold EmbeddingProberDataset_batched_iter.
  destruct batch_size as [|bs]; [lia|].
  set (n := length target_word) in *.
  set (starts := range_step n (S bs)).
  set (f := λ start : nat, (slice start (start + S bs) target_word,
                            slice start (start + S bs) label)).
  assert (concat (fst <$> (f <$> starts)) = target_word) as Hw.
  { unfold starts, range_step. rewrite <- !list_fmap_compose.
    apply (concat_chunks (S bs)). by apply range_step_covers. }
  assert (concat (snd <$> (f <$> starts)) = label) as Hl.
  { unfold starts, range_step. rewrite <- !list_fmap_compose.
    apply (concat_chunks (S bs)). rewrite Hlen. by apply range_step_covers. }
  set (starts' := if negb is_unlabeled && shuffle_batches then shuffle starts else starts).
  assert (starts' ≡ₚ starts) as Hst.
  { unfold starts'. destruct (negb is_unlabeled && shuffle_batches); [apply Hperm|done]. }
  exists (f <$> starts'). split_and!.
  - done.
  - transitivity (concat (fst <$> (f <$> starts))); [|by rewrite Hw].
    apply concat_Permutation_proper. by rewrite Hst.
  - transitivity (concat (snd <$> (f <$> starts))); [|by rewrite Hl].
    apply concat_Permutation_proper. by rewrite Hst.
  - intros Hno. unfold starts'. rewrite Hno. by split.
  - intros y Hy. apply list_elem_of_fmap in Hy as (start & -> & Hin).
    rewrite Hst in Hin. apply elem_of_range_step in Hin as (k & -> & Hk); [|lia].
    unfold f, slice. simpl. rewrite !length_take, !length_drop. fold n. lia.
Qed.

Lemma batches_partition_the_data_witness :
  ∃ ys,
    EmbeddingProberDataset_batched_iter 5 false true reverse
      ["a"; "b"; "c"; "d"; "e"] [1; 2; 3; 4; 5] 2 = Ok ys
    ∧ concat (fst <$> ys) ≡ₚ ["a"; "b"; "c"; "d"; "e"].
Proof.
  destruct (batches_partition_the_data false true reverse
              ["a"; "b"; "c"; "d"; "e"] [1; 2; 3; 4; 5] 2
              ltac:(lia) (@reverse_Permutation nat) eq_refl)
    as (ys & Hys & Hw & _).
  exists ys. split; [exact Hys | exact Hw].
Defined.

(** ** Padding twice *)

Lemma max_list_const (l : list nat) m :
  l ≠ [] → (∀ x, x ∈ l → x = m) → max_list l = m.
Proof.
  intros Hne Hall. apply Nat.le_antisymm.
  - pose proof (max_list_attained l Hne) as Hin. by rewrite (Hall _ Hin).
  - destruct l as [|x l]; [done|]. rewrite <- (Hall x) by left.
    apply max_list_elem_of_le. left.
Qed.

Lemma pad_rectangle (rows : list (list nat)) m :
  rows ≠ [] → (∀ r, r ∈ rows → length r = m) → pad_token_starts rows = Ok rows.
Proof.
  intros Hne Hrect. unfold pad_token_starts.
  assert (max_list (length <$> rows) = m) as ->.
  { apply max_list_const; [by destruct rows|].
    intros x Hx. apply list_elem_of_fmap in Hx as (r & -> & Hr). by apply Hrect. }
  destruct rows as [|r rows'] eqn:Hrows; [done|]. f_equal.
  rewrite <- (list_fmap_id (r :: rows')) at 2.
  apply list_fmap_ext. intros i r' Hr'. simpl.
  rewrite Hrect by (by eapply list_elem_of_lookup_2).
  by rewrite Nat.sub_diag, app_nil_r.
Qed.

(** X5.  The padded token starts of a batch form a rectangle whose
    width is the longest array of the batch, and padding them again changes
    nothing. *)
Theorem padding_is_idempotent (batch rows : list (list nat)) :
  pad_token_starts batch = Ok rows →
  (∀ r, r ∈ rows → length r = max_list (length <$> batch))
  ∧ pad_token_starts rows = Ok rows.
Proof.
  unfold pad_token_starts at 1.
  destruct batch as [|b batch]; [done|].
  set (m := max_list (length <$> b :: batch)).
  intros [= <-].
  assert (∀ r, r ∈ (λ s, s ++ replicate (m - length s) pad) <$> b :: batch →
               length r = m) as Hrect.
  { intros r Hr. apply list_elem_of_fmap in Hr as (s & -> & Hs).
    rewrite length_app, length_replicate.
    assert (length s ≤ m); [|lia].
    apply max_list_elem_of_le, list_elem_of_fmap. eauto. }
  split; [exact Hrect|].
  by apply (pad_rectangle _ m).
Qed.

Lemma padding_is_idempotent_witness :
  pad_token_starts [[0; 1; 2]; [0; 1; 1000]] = Ok [[0; 1; 2]; [0; 1; 1000]].
Proof.
  apply (proj2 (padding_is_idempotent [[0; 1; 2]; [0; 1]] _ eq_refl)).
Defined.

(** ** What a loaded sample looks like *)

Section LoadedSamples.

Variable tokenize : string → list string.
Variable max_samples : option Z.

Lemma append_sample_ok raw sent :
  sent ≠ [] → Forall (loaded_ok tokenize) raw →
  Forall (loaded_ok tokenize) (append_sample tokenize raw sent).
Proof.
  intros Hne Hraw. unfold append_sample, ignore_sample.
  destruct (Nat.ltb_spec 500 (sc_sentence_subword_len
                                (create_sentence_from_lines tokenize sent))); [done|].
  apply Forall_app. split; [done|]. apply Forall_singleton.
  exists sent. split_and!; [done|done|lia].
Qed.

Lemma load_loop_ok stream raw sent :
  Forall (loaded_ok tokenize) raw →
  Forall (loaded_ok tokenize) (finish tokenize max_samples
                      (load_stream_loop tokenize max_samples stream raw sent)).
Proof.
  revert raw sent; induction stream as [|line stream IH]; intros raw sent Hraw; simpl.
  - unfold finish; simpl. destruct sent as [|l sent]; [done|].
    destruct (max_samples_room _ _); [|done]. by apply append_sample_ok.
  - destruct (blank line).
    + destruct sent as [|l sent]; [by apply IH|].
      pose proof (append_sample_ok raw (l :: sent) ltac:(done) Hraw) as Hok.
      destruct (max_samples_reached _ _); [|by apply IH].
      unfold finish; simpl.
      destruct (max_samples_room _ _); [by apply append_sample_ok|done].
    + by apply IH.
Qed.

End LoadedSamples.

Lemma length_concat_take_le {A} (gs : list (list A)) i :
  length (concat (take i gs)) ≤ length (concat gs).
Proof.
  rewrite <- (take_drop i gs) at 2. rewrite concat_app, length_app. lia.
Qed.

(** X6.  Whatever the sample limit, every sample that [load_stream] keeps
    comes from a non-empty block: it has at least one word, at most 500
    subwords, one token start more than words, and no token start above
    500, so that every start shifted by one stays below the padding value
    1000. *)
Theorem loaded_samples_are_well_formed (tokenize : string → list string)
    (max_samples : option Z) (stream : list string)
    (s : SequenceClassificationWithSubwordsDataFields) :
  s ∈ load_stream tokenize max_samples stream →
  1 ≤ sc_sentence_len s
  ∧ sc_sentence_subword_len s ≤ 500
  ∧ length (sc_raw_sentence s) = sc_sentence_len s
  ∧ length (sc_token_starts s) = sc_sentence_len s + 1
  ∧ ∀ t, t ∈ sc_token_starts s → t ≤ 500 ∧ t + 1 < pad.
Proof.
  intros Hin.
  pose proof (load_loop_ok tokenize max_samples stream [] [] (Forall_nil_2 _)) as Hall.
  rewrite Forall_forall in Hall. destruct (Hall s Hin) as (b & Hb & -> & Hlen).
  destruct (create_sentence_spec tokenize b) as (Hs & Ht & Hts & Hl & Hn).
  set (gs := (λ l, tokenize (line_word l)) <$> b) in *.
  split_and!.
  - rewrite Hl. destruct b; [done|simpl; lia].
  - done.
  - by rewrite Hs, length_fmap.
  - rewrite Hts, Hl, length_app, length_offsets. unfold gs. by rewrite length_fmap.
  - intros t Hin'. rewrite Hts in Hin'.
    apply list_elem_of_lookup in Hin' as [i Hi].
    assert (i ≤ length gs) as Hi'.
    { apply lookup_lt_Some in Hi. rewrite length_app, length_offsets in Hi.
      simpl in Hi. lia. }
    rewrite offsets_closed_lookup in Hi by done. injection Hi as <-.
    pose proof (length_concat_take_le gs i) as Hle.
    rewrite Hn, Ht in Hlen. unfold pad. lia.
Qed.

Lemma loaded_samples_are_well_formed_witness :
  1 ≤ sc_sentence_len (create_sentence_from_lines char_tokenizer ["a"; "bb"]).
Proof.
  refine (proj1 (loaded_samples_are_well_formed char_tokenizer None
                   ["a"; "bb"; ""; ""; "c"] _ _)).
  vm_compute. apply list_elem_of_here.
Defined.

(** ** Mask positions *)

(** X7.  Without bag of words, the span of each word of the sentence in
    the subword sequence (from its token start to the next one, the last
    word ending at [num_tokens]) holds the single mask symbol when the
    word's offset from the target is a mask position, and the tokenizer's
    pieces of the word otherwise; the recorded target index is [raw_idx]. *)
Theorem masked_words_become_one_mask_token (tokenize : string → list string)
    (MASK : string) (py_int : string → result Z) (mp : gset Z)
    (shuffle : list nat → list nat) (line : string)
    (s : TokenInSequenceProberFields) (i : nat) (w : string) :
  extract_sample_from_line tokenize MASK py_int mp false shuffle line = Ok s →
  split space (raw_sentence s) !! i = Some w →
  target_idx s = raw_idx s
  ∧ ∃ a b,
      (token_starts s ++ [num_tokens s]) !! i = Some a
      ∧ (token_starts s ++ [num_tokens s]) !! S i = Some b
      ∧ slice a b (tokens s)
        = if decide ((Z.of_nat i - raw_idx s)%Z ∈ mp) then [MASK] else tokenize w.
Proof.
  unfold extract_sample_from_line, extract_sample_from_line_full.
  destruct (take 3 (split tab (rstrip_nl line)))
    as [|sent [|tgt [|idx [|? ?]]]] eqn:Hfd; simpl; try done.
  destruct (py_int idx) as [k|] eqn:Hk; simpl; [|done].
  set (tokenized := tokenize_words tokenize MASK mp k (split space sent)).
  rewrite merge_pieces_spec.
  destruct (py_index (offsets 0 tokenized) _); simpl; [|done].
  intros [= <-]; simpl. intros Hw. split; [done|].
  assert (tokenized !! i
          = Some (if decide ((Z.of_nat i - k)%Z ∈ mp) then [MASK] else tokenize w)) as Hg.
  { unfold tokenized, tokenize_words. by rewrite list_lookup_imap, Hw. }
  assert (i < length tokenized) by (by eapply lookup_lt_Some).
  exists (length (concat (take i tokenized))), (length (concat (take (S i) tokenized))).
  rewrite !offsets_closed_lookup by lia.
  split_and!; [done|done|]. by apply slice_concat_group.
Qed.

Lemma masked_words_become_one_mask_token_witness :
  ∃ a b,
    ([0; 1; 2] ++ [5]) !! 1 = Some a
    ∧ ([0; 1; 2] ++ [5]) !! 2 = Some b
    ∧ slice a b ["[MASK]"; "[MASK]"; "c"; "c"; "c"]
      = if decide ((Z.of_nat 1 - 1)%Z ∈ ({[ 0%Z; (-1)%Z ]} : gset Z))
        then ["[MASK]"] else char_tokenizer "bb".
Proof.
  refine (proj2 (masked_words_become_one_mask_token char_tokenizer "[MASK]" decimal_int
            {[ 0%Z; (-1)%Z ]} id sample_line
            {| raw_sentence := "a bb ccc"; raw_target := "bb"; raw_idx := 1;
               tokens := ["[MASK]"; "[MASK]"; "c"; "c"; "c"]; num_tokens := 5;
               target_idx := 1; label := None; token_starts := [0; 1; 2] |}
            1 "bb" _ _)).
  - vm_compute. reflexivity.
  - reflexivity.
Defined.

(** ** Printing a sample and reading it back *)

Lemma split_no_sep sep s : has_char sep s = false → split sep s = [s].
Proof.
  induction s as [|c s IH]; simpl; [done|].
  intros Hc. apply orb_false_iff in Hc as [-> Hs]. by rewrite IH.
Qed.

Lemma split_app_sep sep a b :
  has_char sep a = false →
  split sep (a +:+ String sep b) = a :: split sep b.
Proof.
  induction a as [|c a IH]; simpl.
  - intros _. by rewrite Ascii.eqb_refl.
  - intros Hc. apply orb_false_iff in Hc as [-> Ha]. by rewrite IH.
Qed.

Lemma split_fields_no_sep sep s f : f ∈ split sep s → has_char sep f = false.
Proof.
  revert f; induction s as [|c s IH]; simpl; intros f Hf.
  - apply list_elem_of_singleton in Hf as ->. done.
  - destruct (Ascii.eqb c sep) eqn:Hc.
    + apply elem_of_cons in Hf as [->|Hf]; [done|by apply IH].
    + pose proof (split_nonempty sep s).
      destruct (split sep s) as [|w ws]; [done|].
      apply elem_of_cons in Hf as [->|Hf].
      * simpl. rewrite Hc. apply IH. left.
      * apply IH. by right.
Qed.

Lemma rstrip_nl_no_newline s : has_char newline s = false → rstrip_nl s = s.
Proof.
  induction s as [|c s IH]; simpl; [done|].
  intros Hc. apply orb_false_iff in Hc as [-> Hs]. by rewrite IH.
Qed.

Lemma rstrip_nl_prefix x y :
  rstrip_nl y = y → y ≠ EmptyString → rstrip_nl (x +:+ y) = x +:+ y.
Proof.
  intros Hy Hne. induction x as [|c x IH]; [done|].
  change (String c x +:+ y) with (String c (x +:+ y)). simpl. rewrite IH.
  destruct (x +:+ y) eqn:Hxy.
  - destruct x; [done|discriminate].
  - simpl. by rewrite andb_false_r.
Qed.

Lemma rstrip_nl_snoc s : rstrip_nl (s +:+ newline_s) = rstrip_nl s.
Proof.
  induction s as [|c s IH]; [reflexivity|].
  change (String c s +:+ newline_s) with (String c (s +:+ newline_s)).
  simpl. by rewrite IH.
Qed.

Lemma string_app_assoc (a b c : string) : (a +:+ b) +:+ c = a +:+ (b +:+ c).
Proof.
  induction a as [|x a IH]; [reflexivity|].
  change ((String x a +:+ b) +:+ c) with (String x ((a +:+ b) +:+ c)).
  by rewrite IH.
Qed.

Lemma String_app c (a b : string) : String c a +:+ b = String c (a +:+ b).
Proof. reflexivity. Qed.

Lemma tab_s_app (a : string) : tab_s +:+ a = String tab a.
Proof. reflexivity. Qed.

Lemma split_tab_join fs :
  fs ≠ [] → (∀ f, f ∈ fs → has_char tab f = false) → split tab (tab_join fs) = fs.
Proof.
  induction fs as [|f fs IH]; [done|]. intros _ Hfs.
  destruct fs as [|g fs].
  - simpl. apply split_no_sep, Hfs. left.
  - change (tab_join (f :: g :: fs)) with (f +:+ String tab (tab_join (g :: fs))).
    rewrite split_app_sep by (apply Hfs; left).
    rewrite IH; [done|done|]. intros h Hh. apply Hfs. by right.
Qed.

Lemma rstrip_nl_String c s :
  rstrip_nl s = s → c ≠ newline → rstrip_nl (String c s) = String c s.
Proof.
  intros Hs Hc. simpl. rewrite Hs.
  destruct (Ascii.eqb_spec c newline); [done|]. done.
Qed.

Lemma rstrip_nl_tab_join fs :
  has_char newline (default EmptyString (last fs)) = false →
  rstrip_nl (tab_join fs) = tab_join fs.
Proof.
  induction fs as [|f fs IH]; [done|]. intros Hlast.
  destruct fs as [|g fs].
  - simpl in *. by apply rstrip_nl_no_newline.
  - change (tab_join (f :: g :: fs)) with (f +:+ String tab (tab_join (g :: fs))).
    apply rstrip_nl_prefix; [|done].
    apply rstrip_nl_String; [by apply IH|done].
Qed.

Section PrintExtract.

Variable tokenize : string → list string.
Variable MASK : string.
Variable py_int : string → result Z.
Variable py_str : Z → string.

Lemma print_sample_tab_join (s : TokenInSequenceProberFields) :
  SentenceProberDataset_print_sample py_str s
  = tab_join [raw_sentence s; raw_target s; py_str (raw_idx s); format_label (label s)]
    +:+ newline_s.
Proof.
  unfold SentenceProberDataset_print_sample. simpl tab_join.
  rewrite !tab_s_app, !string_app_assoc, !String_app, !string_app_assoc.
  by rewrite !String_app, !string_app_assoc.
Qed.

(** The fields a returned sample was built from. *)
Lemma extract_sample_fields mp bow shuffle line s :
  extract_sample_from_line tokenize MASK py_int mp bow shuffle line = Ok s →
  ∃ idx rest,
    split tab (rstrip_nl line) = raw_sentence s :: raw_target s :: idx :: rest
    ∧ py_int idx = Ok (raw_idx s) ∧ label s = head rest.
Proof.
  unfold extract_sample_from_line, extract_sample_from_line_full.
  destruct (split tab (rstrip_nl line)) as [|sent [|tgt [|idx rest]]] eqn:Hfd;
    simpl; try done.
  destruct (py_int idx) as [k|] eqn:Hk; simpl; [|done].
  destruct (if bow then _ else _) as [[tk t0]|]; simpl; [|done].
  destruct (merge_pieces tk) as [merged ts].
  destruct (py_index ts t0); simpl; [|done].
  intros [= <-]; simpl. exists idx, rest. split_and!; try done. by destruct rest.
Qed.

(** Two lines with the same first three fields give the same sample, up to
    the label. *)
Lemma extract_sample_same_fields mp bow shuffle line line' s sent tgt idx idx' rest rest' :
  split tab (rstrip_nl line) = sent :: tgt :: idx :: rest →
  split tab (rstrip_nl line') = sent :: tgt :: idx' :: rest' →
  py_int idx' = py_int idx →
  extract_sample_from_line tokenize MASK py_int mp bow shuffle line = Ok s →
  extract_sample_from_line tokenize MASK py_int mp bow shuffle line'
  = Ok (with_label s (head rest')).
Proof.
  intros Hfd Hfd' Hint.
  unfold extract_sample_from_line, extract_sample_from_line_full.
  rewrite Hfd, Hfd'. simpl. rewrite Hint.
  destruct (py_int idx) as [k|] eqn:Hk; simpl; [|done].
  destruct (if bow then _ else _) as [[tk t0]|]; simpl; [|done].
  destruct (merge_pieces tk) as [merged ts].
  destruct (py_index ts t0); simpl; [|done].
  intros [= <-]. unfold with_label. simpl. by destruct rest'.
Qed.

End PrintExtract.

(** X8.  Reading back the line that [SentenceProberDataset.print_sample]
    writes for an extracted sample yields the same sample, with the label
    as it was written: a labelled sample comes back unchanged, an unlabelled
    one comes back with the label "None".  The rendering of the index must
    parse back to it and hold no tab, and the label no newline; under bag of
    words the shuffle is taken to give the same order both times. *)
Theorem printed_sample_reads_back (tokenize : string → list string) (MASK : string)
    (py_int : string → result Z) (py_str : Z → string) (mp : gset Z) (bow : bool)
    (shuffle : list nat → list nat) (line : string)
    (s : TokenInSequenceProberFields) :
  extract_sample_from_line tokenize MASK py_int mp bow shuffle line = Ok s →
  py_int (py_str (raw_idx s)) = Ok (raw_idx s) →
  has_char tab (py_str (raw_idx s)) = false →
  has_char newline (format_label (label s)) = false →
  extract_sample_from_line tokenize MASK py_int mp bow shuffle
    (SentenceProberDataset_print_sample py_str s)
  = Ok (with_label s (Some (format_label (label s)))).
Proof.
  intros Hs Hint Htab Hnl.
  destruct (extract_sample_fields _ _ _ _ _ _ _ _ Hs) as (idx & rest & Hfd & Hidx & Hlab).
  assert (∀ f, f ∈ split tab (rstrip_nl line) → has_char tab f = false) as Hno
    by (intros f; apply split_fields_no_sep).
  rewrite Hfd in Hno.
  apply (extract_sample_same_fields tokenize MASK py_int mp bow shuffle line _ s
           (raw_sentence s) (raw_target s) idx (py_str (raw_idx s)) rest
           [format_label (label s)]); [done| |congruence|done].
  rewrite print_sample_tab_join, rstrip_nl_snoc.
  rewrite rstrip_nl_tab_join by done.
  apply split_tab_join; [done|].
  intros f Hf. rewrite !elem_of_cons, elem_of_nil in Hf.
  destruct Hf as [->|[->|[->|[->|[]]]]].
  - apply Hno. left.
  - apply Hno. right. left.
  - done.
  - unfold format_label. rewrite Hlab. destruct rest as [|l rest]; [done|].
    simpl. apply Hno. do 3 right. left.
Qed.

Lemma printed_sample_reads_back_witness :
  extract_sample_from_line char_tokenizer "[MASK]" decimal_int ∅ false id
    (SentenceProberDataset_print_sample digit_str
       {| raw_sentence := "a bb ccc"; raw_target := "bb"; raw_idx := 1;
          tokens := ["a"; "b"; "b"; "c"; "c"; "c"]; num_tokens := 6;
          target_idx := 1; label := None; token_starts := [0; 1; 3] |})
  = Ok {| raw_sentence := "a bb ccc"; raw_target := "bb"; raw_idx := 1;
          tokens := ["a"; "b"; "b"; "c"; "c"; "c"]; num_tokens := 6;
          target_idx := 1; label := Some "None"; token_starts := [0; 1; 3] |}.
Proof.
  refine (printed_sample_reads_back char_tokenizer "[MASK]" decimal_int digit_str ∅
            false id sample_line _ _ _ _ _).
  - vm_compute. reflexivity.
  - vm_compute. reflexivity.
  - vm_compute. reflexivity.
  - vm_compute. reflexivity.
Defined.

(** * The cache over all strategies and outcomes *)

Lemma cache_step_refl {K} `{Countable K} {C} (key : K) (st : model_state K C) :
  cache_step key st st.
Proof. unfold cache_step. split_and!; [lia|lia|done|done]. Qed.

Lemma cache_step_call {K} `{Countable K} {C} (key : K) (st : model_state K C) :
  cache_step key st (after_encoder_call st).
Proof. unfold cache_step. simpl. split_and!; [lia|lia|done|done]. Qed.

Lemma cache_step_store {K} `{Countable K} {C} (key : K) (st : model_state K C) v :
  cache st !! key = None →
  cache_step key st {| cache := <[key := v]> (cache st);
                       encoder_calls := S (encoder_calls st) |}.
Proof.
  intros Hmiss. unfold cache_step. simpl. split_and!; [lia|lia| |].
  - intros k w Hk. rewrite lookup_insert_ne; [done|]. intros <-. congruence.
  - intros k Hk. by rewrite lookup_insert_ne.
Qed.

Section CacheDiscipline.

Context {R : Type} `{Scalar R}.
Variable hidden_size : nat.
Variable encoder : list (list Z) → list Z → result (list (list (list (list R)))).
Variable weighted_sum : list (list (list (list R))) → list (list (list R)).

Lemma embed_steps {K} `{Countable K} lp sentences lens
    (st st' : model_state K (pooled R)) r :
  Embedder.embed encoder weighted_sum lp sentences lens st = (r, st') →
  (st' = st ∧ r = Raise IndexError) ∨ st' = after_encoder_call st.
Proof.
  intros Hembed.
  apply embed_cases in Hembed as [(_ & -> & ->)|(_ & ->)]; [by left|by right].
Qed.

Lemma tagger_with_cache_steps lp pool_stacked s batch st r st' :
  TransformerForSequenceTagging._forward_with_cache hidden_size encoder weighted_sum
    lp pool_stacked s batch st = (r, st') →
  cache_step (flat (b_input batch)) st st'
  ∧ (cache st' = cache st
     ∨ ∃ out, r = Ok out ∧ cache st' = <[flat (b_input batch) := out]> (cache st)).
Proof.
  unfold TransformerForSequenceTagging._forward_with_cache.
  cbv [mbind M_bind bind cache_lookup cache_get lift cache_store mret M_ret ret].
  destruct (cache st !! flat (b_input batch)) as [v|] eqn:Hhit.
  - rewrite Hhit. intros [= <- <-]. split; [apply cache_step_refl|by left].
  - destruct (Embedder.embed _ _ _ _ _ st) as [[e|err] st1] eqn:Hembed;
      apply embed_steps in Hembed as [[-> Herr]| ->]; try done.
    + destruct (match e with E3 _ => _ | E4 _ => _ end) as [out|err]; simpl.
      * rewrite lookup_insert_eq. intros [= <- <-].
        split; [by apply cache_step_store|right; eauto].
      * intros [= <- <-]. split; [apply cache_step_call|by left].
    + intros [= <- <-]. split; [apply cache_step_refl|by left].
    + intros [= <- <-]. split; [apply cache_step_call|by left].
Qed.

Lemma tagger_uncached_steps lp pool_uncached s batch st r st' :
  TransformerForSequenceTagging._forward_uncached encoder weighted_sum
    lp pool_uncached s batch st = (r, st') →
  cache_step (flat (b_input batch)) st st' ∧ cache st' = cache st.
Proof.
  unfold TransformerForSequenceTagging._forward_uncached.
  cbv [mbind M_bind bind lift].
  destruct (Embedder.embed _ _ _ _ _ st) as [[e|err] st2] eqn:Hembed;
    apply embed_steps in Hembed as [[-> Herr]| ->]; try done; intros [= <- <-];
    (split; [first [apply cache_step_call|apply cache_step_refl]|done]).
Qed.

Lemma tagger_pool_steps sp lp pool_stacked pool_uncached batch st r st' :
  TransformerForSequenceTagging.pool hidden_size encoder weighted_sum sp lp
    pool_stacked pool_uncached batch st = (r, st') →
  cache_step (flat (b_input batch)) st st'
  ∧ (cache st' = cache st
     ∨ ∃ out, r = Ok out ∧ cache st' = <[flat (b_input batch) := out]> (cache st)).
Proof.
  unfold TransformerForSequenceTagging.pool. cbv [mbind M_bind bind lift].
  destruct (pooling_func sp) as [s|err].
  - destruct s; intros Hp;
      first [ by apply tagger_with_cache_steps in Hp
            | apply tagger_uncached_steps in Hp as [? ?]; split; [done|by left] ].
  - intros [= <- <-]. split; [apply cache_step_refl|by left].
Qed.

End CacheDiscipline.

(** X11.  Whatever the subword pooling, the layer pooling and the
    outcome, a call of [TransformerForSequenceTagging.forward] invokes the
    encoder at most once, changes or removes no entry of the cache and adds
    none except under the flattened token ids of the batch; the cache is
    either left as it was, or it gains the pooled tensor that the head was
    then applied to. *)
Theorem tagger_forward_keeps_cache {R : Type} `{Scalar R} {Pred : Type}
    (hidden_size : nat)
    (encoder : list (list Z) → list Z → result (list (list (list (list R)))))
    (weighted_sum : list (list (list (list R))) → list (list (list R)))
    (subword_pooling : string) (layer_pooling : layer_pooling)
    (pool_stacked : strategy → list (list (list (list R))) → ModelBatch → result (pooled R))
    (pool_uncached : strategy → embedded R → ModelBatch → result (pooled R))
    (head : pooled R → result Pred) (batch : ModelBatch)
    (st st' : model_state (list Z) (pooled R)) (r : result Pred) :
  TransformerForSequenceTagging.forward hidden_size encoder weighted_sum
    subword_pooling layer_pooling pool_stacked pool_uncached head batch st = (r, st') →
  cache_step (flat (b_input batch)) st st'
  ∧ (cache st' = cache st
     ∨ ∃ out, cache st' = <[flat (b_input batch) := out]> (cache st) ∧ r = head out).
Proof.
  unfold TransformerForSequenceTagging.forward.
  cbv [mbind M_bind bind lift].
  destruct (TransformerForSequenceTagging.pool _ _ _ _ _ _ _ _ st)
    as [[out|err] st1] eqn:Hp;
    apply tagger_pool_steps in Hp as [Hstep Hcache]; intros [= <- <-];
    (split; [done|]).
  - destruct Hcache as [->|(out' & [= <-] & ->)]; [by left|right; eauto].
  - destruct Hcache as [->|(out' & [=] & _)]. by left.
Qed.

Lemma tagger_forward_keeps_cache_witness :
  cache_step (flat (b_input ex_batch)) (empty_state (K := list Z))
    {| cache := {[ flat (b_input ex_batch) := P2 [[3; 5]%Q] ]}; encoder_calls := 1 |}.
Proof.
  refine (proj1 (tagger_forward_keeps_cache 2 ex_encoder ex_weighted_sum "max"
                   (LPStr "last") no_pool4 no_pool_e Ok ex_batch empty_state _
                   (Ok (P2 [[3; 5]%Q])) _)).
  vm_compute. reflexivity.
Defined.

Section ProberCacheDiscipline.

Context {R : Type} `{Scalar R}.
Variable hidden_size : nat.
Variable encoder : list (list Z) → list Z → result (list (list (list (list R)))).
Variable weighted_sum : list (list (list (list R))) → list (list (list R)).
Variable subword_pooling : string.
Variable layer_pooling : layer_pooling.
Variable shift_target : Z.
Variable str_index_error : string → exn.
Variable apply_layer_weights : pooled R → pooled R.
Variable pool_other : strategy → list (list (list R)) → ModelBatch → result (pooled R).

Lemma prober_first_last_steps batch st r st' :
  SentenceRepresentationProber._forward_first_last encoder weighted_sum
    subword_pooling layer_pooling shift_target str_index_error apply_layer_weights
    batch st = (r, st') →
  cache_step (flat (b_input batch), b_probe_target_idx batch) st st'
  ∧ (cache st' = cache st
     ∨ ∃ v, r = Ok (SentenceRepresentationProber.finish_layers layer_pooling
                      apply_layer_weights v)
            ∧ cache st' = <[(flat (b_input batch), b_probe_target_idx batch) := v]>
                            (cache st)).
Proof.
  unfold SentenceRepresentationProber._forward_first_last.
  cbv [mbind M_bind bind cache_lookup cache_get lift cache_store mret M_ret ret].
  destruct (cache st !! _) as [v|] eqn:Hhit.
  - rewrite Hhit. intros [= <- <-]. split; [apply cache_step_refl|by left].
  - destruct (Embedder.embed _ _ _ _ _ st) as [[e|err] st1] eqn:Hembed;
      apply (embed_steps encoder weighted_sum) in Hembed as [[-> Herr]| ->];
      try done.
    + match goal with
      | |- context [match ?x with Ok _ => _ | Raise _ => _ end] =>
          destruct x as [v|err]; simpl
      end.
      * rewrite lookup_insert_eq. intros [= <- <-].
        split; [by apply cache_step_store|right; eauto].
      * intros [= <- <-]. split; [apply cache_step_call|by left].
    + intros [= <- <-]. split; [apply cache_step_refl|by left].
    + intros [= <- <-]. split; [apply cache_step_call|by left].
Qed.

Lemma prober_pool_steps batch st r st' :
  SentenceRepresentationProber.pool hidden_size encoder weighted_sum
    subword_pooling layer_pooling shift_target str_index_error apply_layer_weights
    pool_other batch st = (r, st') →
  cache_step (flat (b_input batch), b_probe_target_idx batch) st st'
  ∧ (cache st' = cache st
     ∨ ∃ v, r = Ok (SentenceRepresentationProber.finish_layers layer_pooling
                      apply_layer_weights v)
            ∧ cache st' = <[(flat (b_input batch), b_probe_target_idx batch) := v]>
                            (cache st)).
Proof.
  unfold SentenceRepresentationProber.pool.
  destruct (_ || _).
  - cbv [mbind M_bind bind lift].
    destruct (pooling_func subword_pooling) as [s|err].
    + apply prober_first_last_steps.
    + intros [= <- <-]. split; [apply cache_step_refl|by left].
  - intros Hun.
    apply prober_uncached_calls_encoder in Hun as (Hcache & Hcalls & Hnil).
    split; [|by left]. unfold cache_step. rewrite Hcache.
    destruct (decide (b_input batch = [])) as [Hb|Hb].
    + destruct (Hnil Hb) as [_ ->]. split_and!; [lia|lia|done|done].
    + rewrite (Hcalls Hb). split_and!; [lia|lia|done|done].
Qed.

End ProberCacheDiscipline.

(** X12.  Whatever the configuration and the outcome, a call of
    [SentenceRepresentationProber.forward] invokes the encoder at most once,
    changes or removes no entry of the cache and adds none except under the
    pair of the flattened token ids and the target indices of the batch; the
    cache is either left as it was, or it gains the target vectors from
    which the result was computed. *)
Theorem prober_forward_keeps_cache {R : Type} `{Scalar R} {Pred : Type}
    (hidden_size : nat)
    (encoder : list (list Z) → list Z → result (list (list (list (list R)))))
    (weighted_sum : list (list (list (list R))) → list (list (list R)))
    (subword_pooling : string) (layer_pooling : layer_pooling) (shift_target : Z)
    (str_index_error : string → exn) (apply_layer_weights : pooled R → pooled R)
    (pool_other : strategy → list (list (list R)) → ModelBatch → result (pooled R))
    (head : pooled R → result Pred) (batch : ModelBatch)
    (st st' : model_state (list Z * list Z) (pooled R)) (r : result Pred) :
  SentenceRepresentationProber.forward hidden_size encoder weighted_sum
    subword_pooling layer_pooling shift_target str_index_error apply_layer_weights
    pool_other head batch st = (r, st') →
  cache_step (flat (b_input batch), b_probe_target_idx batch) st st'
  ∧ (cache st' = cache st
     ∨ ∃ v, cache st' = <[(flat (b_input batch), b_probe_target_idx batch) := v]>
                          (cache st)
            ∧ r = head (SentenceRepresentationProber.finish_layers layer_pooling
                          apply_layer_weights v)).
Proof.
  unfold SentenceRepresentationProber.forward.
  cbv [mbind M_bind bind lift].
  destruct (SentenceRepresentationProber.pool _ _ _ _ _ _ _ _ _ _ st)
    as [[out|err] st1] eqn:Hp;
    apply prober_pool_steps in Hp as [Hstep Hcache]; intros [= <- <-];
    (split; [done|]).
  - destruct Hcache as [->|(v & [= ->] & ->)]; [by left|right; eauto].
  - destruct Hcache as [->|(v & [=] & _)]. by left.
Qed.

Lemma prober_forward_keeps_cache_witness :
  cache_step (flat (b_input ex_batch), b_probe_target_idx ex_batch)
    (empty_state (K := list Z * list Z))
    {| cache := {[ (flat (b_input ex_batch), b_probe_target_idx ex_batch)
                   := P2 [[3; 2]%Q] ]};
       encoder_calls := 1 |}.
Proof.
  refine (proj1 (prober_forward_keeps_cache 2 ex_encoder ex_weighted_sum "last"
                   (LPInt 0) 0 (λ _, IndexError) id no_pool3 Ok ex_batch empty_state _
                   (Ok (P2 [[3; 2]%Q])) _)).
  vm_compute. reflexivity.
Defined.

(** * The shifted target position *)

Lemma foldl_Zmax_le (ms : list Z) (m x : Z) :
  x ∈ m :: ms → (x ≤ foldl Z.max m ms)%Z.
Proof.
  revert m x; induction ms as [|y ms IH]; intros m x Hx; simpl.
  - apply list_elem_of_singleton in Hx as ->. lia.
  - assert (Z.max m y ≤ foldl Z.max (Z.max m y) ms)%Z by (apply IH; left).
    apply elem_of_cons in Hx as [->|Hx]; [lia|].
    apply elem_of_cons in Hx as [->|Hx]; [lia|].
    apply IH. by right.
Qed.

(** X13.  When [shift_target] is applied to one index per sentence, on
    [int64] indices and lengths and with no empty sentence, each resulting
    index lies among the positions of its own sentence,
    [0 .. input_len - 1]: it is the shifted index, as the [int64] addition
    yields it, clamped to them; when the sum of index and shift does not
    leave [int64], it is that sum clamped. *)
Theorem shifted_index_stays_in_sentence (shift_target : Z)
    (idx input_len idx' : list Z) :
  SentenceRepresentationProber.shift_and_clamp shift_target idx input_len = Ok idx' →
  length idx = length input_len →
  (∀ j, j ∈ idx → (int64_min ≤ j ≤ int64_max)%Z) →
  (∀ n, n ∈ input_len → (1 ≤ n ≤ int64_max)%Z) →
  (int64_min ≤ shift_target ≤ int64_max)%Z
  ∧ length idx' = length idx
  ∧ ∀ i j n, idx !! i = Some j → input_len !! i = Some n →
      ∃ x, idx' !! i = Some x
           ∧ (0 ≤ x ≤ n - 1)%Z
           ∧ x = Z.max 0 (Z.min (wrap_int64 (j + shift_target)) (n - 1))
           ∧ ((int64_min ≤ j + shift_target ≤ int64_max)%Z →
              x = Z.max 0 (Z.min (j + shift_target) (n - 1))).
Proof.
  unfold SentenceRepresentationProber.shift_and_clamp, broadcast2.
  intros Hres Hlen _ Hpos.
  destruct (in_int64 shift_target) eqn:Hshift; [|done].
  cbv [mbind result_bind] in Hres.
  rewrite !length_fmap, Hlen, Nat.eqb_refl in Hres.
  set (shift_max := (λ n, wrap_int64 (n - 1)) <$> input_len) in *.
  destruct shift_max as [|m ms] eqn:Hsm; [done|].
  injection Hres as <-.
  split; [|split].
  - unfold in_int64 in Hshift. apply andb_true_iff in Hshift as [H1 H2].
    apply Z.leb_le in H1, H2. done.
  - rewrite !length_fmap, length_zip, length_fmap. rewrite <- Hsm.
    unfold shift_max. rewrite length_fmap. lia.
  - intros i j n Hj Hn.
    set (top := foldl Z.max m ms).
    assert (1 ≤ n ≤ int64_max)%Z as Hnr
      by (apply Hpos; by eapply list_elem_of_lookup_2).
    assert (wrap_int64 (n - 1) = n - 1)%Z as Hwrap.
    { apply wrap_int64_id. unfold int64_min, int64_max in *. lia. }
    assert (n - 1 ≤ top)%Z as Htop.
    { apply foldl_Zmax_le. rewrite <- Hsm. unfold shift_max.
      apply list_elem_of_fmap. exists n. split; [done|].
      by eapply list_elem_of_lookup_2. }
    assert ((m :: ms) !! i = Some (n - 1)%Z) as Hsmi.
    { rewrite <- Hsm. unfold shift_max. by rewrite list_lookup_fmap, Hn, <- Hwrap. }
    eexists. split.
    + rewrite !list_lookup_fmap, lookup_zip_with, !list_lookup_fmap, Hj. simpl.
      rewrite Hsmi. simpl. reflexivity.
    + simpl. split_and!; [lia|lia|lia|].
      intros Hsum. rewrite (wrap_int64_id _ Hsum). lia.
Qed.

Lemma shifted_index_stays_in_sentence_witness :
  ∃ x, [2; 0]%Z !! 0 = Some x
       ∧ (0 ≤ x ≤ 3 - 1)%Z
       ∧ x = Z.max 0 (Z.min (wrap_int64 (1 + 5)) (3 - 1))
       ∧ ((int64_min ≤ 1 + 5 ≤ int64_max)%Z → x = Z.max 0 (Z.min (1 + 5) (3 - 1))).
Proof.
  refine (proj2 (proj2 (shifted_index_stays_in_sentence 5 [1; -9]%Z [3; 4]%Z
                          [2; 0]%Z _ _ _ _))
            0 1%Z 3%Z eq_refl eq_refl).
  - vm_compute. reflexivity.
  - reflexivity.
  - intros j Hj. rewrite !elem_of_cons, elem_of_nil in Hj.
    unfold int64_min, int64_max. destruct Hj as [->|[->|[]]]; lia.
  - intros n Hn. rewrite !elem_of_cons, elem_of_nil in Hn.
    unfold int64_max. destruct Hn as [->|[->|[]]]; lia.
Defined.

(** The in-place addition wraps around: with the largest [int64] value as
    shift, the index 1 of a sentence of five subwords becomes negative and
    is clipped to 0. *)
Example shift_wraps_in_int64 :
  SentenceRepresentationProber.shift_and_clamp int64_max [1%Z] [5%Z] = Ok [0%Z].
Proof. vm_compute. reflexivity. Qed.

(** * Witnesses for the general lemmas on pooling and bag of words *)

Lemma Q_smax_either (a b : Q) : smax a b = a ∨ smax a b = b.
Proof. simpl. destruct (Qle_bool a b); auto. Qed.

Lemma Q_smax_l (a b : Q) : (a <= smax a b)%Q.
Proof.
  simpl. destruct (Qle_bool a b) eqn:Hab.
  - by apply Qle_bool_iff.
  - apply Qle_refl.
Qed.

Lemma Q_smax_r (a b : Q) : (b <= smax a b)%Q.
Proof.
  simpl. destruct (Qle_bool a b) eqn:Hab.
  - apply Qle_refl.
  - apply Qlt_le_weak, Qnot_le_lt. intros Hle.
    apply Qle_bool_iff in Hle. congruence.
Qed.

Lemma tagger_max_is_span_max_witness :
  ∃ outs : list (list (list Q)),
    [[3; 5]%Q] = concat outs ∧ length outs = length (b_input ex_batch).
Proof.
  destruct (tagger_max_is_span_max Qle Qle_refl Qle_trans Q_smax_either Q_smax_l
              Q_smax_r 2 ex_embedded ex_batch [[3; 5]%Q] eq_refl)
    as (outs & Hrows & Hlen & _).
  exists outs. split; [exact Hrows | exact Hlen].
Defined.

Lemma prober_max_is_mean_witness :
  SentenceRepresentationProber._forward_elementwise_pool 2 "avg" ex_embedded ex_batch
  = Ok (P2 [[4 # 2; 7 # 2]%Q]).
Proof.
  apply (prober_max_is_mean 2 ex_embedded ex_batch (P2 [[4 # 2; 7 # 2]%Q])).
  vm_compute. reflexivity.
Defined.

Lemma bow_local_target_is_exact_witness :
  ∃ j g,
    reverse (seq 0 2) !! j = Some 0
    ∧ [["a"]; ["b"; "b"]] !! 0 = Some g
    ∧ [0; 2] !! j = Some 2
    ∧ slice 2 (2 + length g) ["b"; "b"; "a"] = g.
Proof.
  refine (proj2 (bow_local_target_is_exact char_tokenizer "[MASK]" decimal_int ∅ reverse
            bow_line
            {| raw_sentence := "a bb"; raw_target := "a"; raw_idx := 0;
               tokens := ["b"; "b"; "a"]; num_tokens := 3; target_idx := 0;
               label := None; token_starts := [0; 2] |} 2
            (@reverse_Permutation nat) _ _)).
  - vm_compute. reflexivity.
  - simpl. lia.
Defined.

(** * One vector of the hidden size per target *)

Section Shapes.

Context {R : Type} `{Scalar R}.
Variable h : nat.

Lemma length_foldl_zip (f : R → R → R) (rows : list (list R)) (acc : list R) :
  length acc = h → (∀ v, v ∈ rows → length v = h) →
  length (foldl (zip_with f) acc rows) = h.
Proof.
  revert acc; induction rows as [|v rows IH]; intros acc Hacc Hrows; simpl; [done|].
  apply IH.
  - rewrite length_zip_with, Hacc, (Hrows v) by left. lia.
  - intros w Hw. apply Hrows. by right.
Qed.

Lemma length_sum0 rows : (∀ v, v ∈ rows → length v = h) → length (sum0 h rows) = h.
Proof. intros Hrows. apply length_foldl_zip; [apply length_replicate|done]. Qed.

Lemma length_mean0 rows : (∀ v, v ∈ rows → length v = h) → length (mean0 h rows) = h.
Proof. intros Hrows. unfold mean0. by rewrite length_fmap, length_sum0. Qed.

Lemma length_max0 rows r :
  (∀ v, v ∈ rows → length v = h) → max0 rows = Ok r → length r = h.
Proof.
  destruct rows as [|v rows]; simpl; [done|]. intros Hrows [= <-].
  apply length_foldl_zip; [apply Hrows; left|]. intros w Hw. apply Hrows. by right.
Qed.

Lemma slice_well_shaped (e : list (list (list R))) sent a b v :
  well_shaped h e → sent ∈ e → v ∈ slice a b sent → length v = h.
Proof.
  intros He Hsent Hv. apply (He sent v Hsent).
  unfold slice in Hv. by eapply subseteq_drop, subseteq_take.
Qed.

End Shapes.

Lemma rmapM_elem_of {A B} (f : A → result B) xs ys y :
  rmapM f xs = Ok ys → y ∈ ys → ∃ x, x ∈ xs ∧ f x = Ok y.
Proof.
  intros Hm Hy. apply list_elem_of_lookup in Hy as [i Hi].
  destruct (rmapM_lookup _ _ _ _ _ Hm Hi) as (x & Hx & Hfx).
  exists x. split; [by eapply list_elem_of_lookup_2|done].
Qed.

(** X16.  Whatever the name of the subword pooling, when
    [_forward_elementwise_pool] returns it returns one vector per sentence
    of the batch, and on a tensor whose vectors all have [hidden_size]
    entries each returned vector has [hidden_size] entries too, also for an
    empty span. *)
Theorem prober_pool_gives_one_vector_per_sentence {R : Type} `{Scalar R}
    (hidden_size : nat) (subword_pooling : string) (e : list (list (list R)))
    (batch : ModelBatch) (rows : list (list R)) :
  SentenceRepresentationProber._forward_elementwise_pool hidden_size subword_pooling
    e batch = Ok (P2 rows) →
  well_shaped hidden_size e →
  length rows = length e ∧ 1 ≤ length e
  ∧ ∀ row, row ∈ rows → length row = hidden_size.
Proof.
  unfold SentenceRepresentationProber._forward_elementwise_pool.
  destruct (index2 _ _ (_ <$> _)) as [last|]; simpl; [|done].
  destruct (index2 _ _ _) as [first|]; simpl; [|done].
  destruct (rmapM _ (seq 0 (length e))) as [tv|] eqn:Htv; simpl; [|done].
  destruct (stack tv) as [tv'|] eqn:Hstack; simpl; [|done].
  intros [= <-] Hshape.
  assert (tv' = tv ∧ tv ≠ []) as [-> Hne].
  { unfold stack in Hstack. destruct tv; [done|]. injection Hstack as <-. by split. }
  pose proof (rmapM_length _ _ _ Htv) as Hlen. rewrite length_seq in Hlen.
  split_and!; [done|destruct tv; [done|simpl in Hlen; lia]|].
  intros row Hrow.
  destruct (rmapM_elem_of _ _ _ _ Htv Hrow) as (wi & _ & Hbody). simpl in Hbody.
  destruct (py_index first _); simpl in Hbody; [|done].
  destruct (py_index last _); simpl in Hbody; [|done].
  destruct (py_index e _) as [sent|] eqn:Hsent; simpl in Hbody; [|done].
  apply py_index_Ok_lookup, list_elem_of_lookup_2 in Hsent.
  destruct (if String.eqb subword_pooling "max" then _ else _); simpl in Hbody; [|done].
  injection Hbody as <-.
  destruct (String.eqb subword_pooling "sum");
    [apply length_sum0 | apply length_mean0];
    intros v Hv; by eapply slice_well_shaped.
Qed.

Lemma prober_pool_gives_one_vector_per_sentence_witness :
  length [[4 # 2; 7 # 2]%Q] = length ex_embedded ∧ 1 ≤ length ex_embedded
  ∧ ∀ row, row ∈ [[4 # 2; 7 # 2]%Q] → length row = 2.
Proof.
  refine (prober_pool_gives_one_vector_per_sentence 2 "max" ex_embedded ex_batch
            [[4 # 2; 7 # 2]%Q] _ _).
  - vm_compute. reflexivity.
  - intros sent v Hs Hv. unfold ex_embedded in Hs.
    apply list_elem_of_singleton in Hs as ->.
    rewrite !elem_of_cons, elem_of_nil in Hv.
    destruct Hv as [->|[->|[->|[->|[]]]]]; reflexivity.
Defined.

Lemma elem_of_concat {A} (x : A) (ls : list (list A)) :
  x ∈ concat ls → ∃ l, x ∈ l ∧ l ∈ ls.
Proof.
  induction ls as [|l ls IH]; simpl; [by intros ?%elem_of_nil|].
  intros [Hx|Hx]%elem_of_app.
  - exists l. split; [done|left].
  - destruct (IH Hx) as (l' & ? & ?). exists l'. split; [done|by right].
Qed.

Lemma length_concat_sum {A} (ls : list (list A)) :
  length (concat ls) = sum_list (length <$> ls).
Proof. induction ls as [|l ls IH]; simpl; [done|]. by rewrite length_app, IH. Qed.

(** X17.  For 'max', 'avg' and 'sum' the pooling loop of
    [TransformerForSequenceTagging._forward_with_cache], when it returns,
    returns exactly one vector per word of the batch (the sentence lengths
    of its sentences added up, at least one), and on a tensor whose vectors
    all have [hidden_size] entries each returned vector has that length. *)
Theorem tagger_pool_gives_one_vector_per_word {R : Type} `{Scalar R}
    (hidden_size : nat) (s : strategy) (e : list (list (list R)))
    (batch : ModelBatch) (rows : list (list R)) :
  TransformerForSequenceTagging.pool_span hidden_size s e batch = Ok (P2 rows) →
  well_shaped hidden_size e →
  length (b_input batch) ≤ length (b_sentence_len batch)
  ∧ length rows = sum_list (take (length (b_input batch)) (b_sentence_len batch))
  ∧ 1 ≤ length rows
  ∧ ∀ row, row ∈ rows → length row = hidden_size.
Proof.
  unfold TransformerForSequenceTagging.pool_span.
  destruct (rmapM _ (seq 0 (length (b_input batch)))) as [outs|] eqn:Houts;
    simpl; [|done].
  destruct (stack (concat outs)) as [rows'|] eqn:Hstack; simpl; [|done].
  intros [= <-] Hshape.
  assert (rows' = concat outs ∧ concat outs ≠ []) as [-> Hne].
  { unfold stack in Hstack. destruct (concat outs); [done|].
    injection Hstack as <-. by split. }
  pose proof (rmapM_length _ _ _ Houts) as Hlen. rewrite length_seq in Hlen.
  assert (∀ bi o, outs !! bi = Some o →
            b_sentence_len batch !! bi = Some (length o)
            ∧ ∀ row, row ∈ o → length row = hidden_size) as Hinner.
  { intros bi o Ho.
    destruct (rmapM_lookup _ _ _ _ _ Houts Ho) as (bi' & Hbi & Hbody).
    apply lookup_seq in Hbi as [-> _]. simpl in Hbody.
    destruct (py_index (b_sentence_len batch) _) as [slen|] eqn:Hsl;
      simpl in Hbody; [|done].
    apply py_index_Ok_lookup in Hsl.
    pose proof (rmapM_length _ _ _ Hbody) as Hlo. rewrite length_seq in Hlo.
    split; [by rewrite Hlo|].
    intros row Hrow.
    destruct (rmapM_elem_of _ _ _ _ Hbody Hrow) as (ti & _ & Hti). simpl in Hti.
    destruct (py_index (b_token_starts batch) _) as [ts|]; simpl in Hti; [|done].
    destruct (py_index ts (Z.of_nat (ti + 1))) as [first|]; simpl in Hti; [|done].
    destruct (py_index ts (Z.of_nat (ti + 2))) as [last|]; simpl in Hti; [|done].
    destruct (py_index e _) as [sent|] eqn:Hsent; simpl in Hti; [|done].
    apply py_index_Ok_lookup, list_elem_of_lookup_2 in Hsent.
    assert (∀ v, v ∈ slice first last sent → length v = hidden_size) as Hsl'
      by (intros v Hv; by eapply slice_well_shaped).
    destruct s; try done.
    - by eapply length_max0.
    - injection Hti as <-. by apply length_sum0.
    - injection Hti as <-. by apply length_mean0. }
  assert (length <$> outs = take (length (b_input batch)) (b_sentence_len batch)) as Hls.
  { apply list_eq. intros i. rewrite list_lookup_fmap.
    destruct (outs !! i) as [o|] eqn:Ho; simpl.
    - rewrite lookup_take_lt by (apply lookup_lt_Some in Ho; lia).
      symmetry. by apply Hinner.
    - symmetry. apply lookup_take_ge. apply lookup_ge_None in Ho. lia. }
  split_and!.
  - destruct (decide (length (b_input batch) = 0)) as [->|Hpos]; [lia|].
    destruct (lookup_lt_is_Some_2 outs (length (b_input batch) - 1)) as [o Ho]; [lia|].
    apply Hinner in Ho as [Ho _]. apply lookup_lt_Some in Ho. lia.
  - by rewrite length_concat_sum, Hls.
  - destruct (concat outs); [done|simpl; lia].
  - intros row Hrow. apply elem_of_concat in Hrow as (o & Hrow & Ho).
    apply list_elem_of_lookup in Ho as [bi Hbi]. by apply (Hinner bi o Hbi).
Qed.

Lemma tagger_pool_gives_one_vector_per_word_witness :
  length (b_input ex_batch) ≤ length (b_sentence_len ex_batch)
  ∧ length [[3; 5]%Q] = sum_list (take (length (b_input ex_batch)) (b_sentence_len ex_batch))
  ∧ 1 ≤ length [[3; 5]%Q]
  ∧ ∀ row, row ∈ [[3; 5]%Q] → length row = 2.
Proof.
  refine (tagger_pool_gives_one_vector_per_word 2 Max ex_embedded ex_batch
            [[3; 5]%Q] _ _).
  - vm_compute. reflexivity.
  - intros sent v Hs Hv. unfold ex_embedded in Hs.
    apply list_elem_of_singleton in Hs as ->.
    rewrite !elem_of_cons, elem_of_nil in Hv.
    destruct Hv as [->|[->|[->|[->|[]]]]]; reflexivity.
Defined.

(** * Layer-pooling names in the prober *)

(** X18.  [SentenceRepresentationProber] takes the layer pooling from
    the configuration as it is and indexes the stack of layers with it.  For
    the strategies other than 'first' and 'last', a layer-pooling name other
    than 'sum' therefore makes every forward call (on a batch of which the
    code makes tensors) fail and leave the cache as it is: with the error of the encoder pass when that fails, and once
    the pass has returned with the error of indexing a tensor by a string,
    or with that of stacking no layer at all.  For 'first' and 'last', a
    name other than 'sum' and 'weighted_sum' makes every call on a batch
    that is not cached fail, and nothing is cached. *)
Theorem prober_layer_name_fails {R : Type} `{Scalar R} {Pred : Type}
    (hidden_size : nat)
    (encoder : list (list Z) → list Z → result (list (list (list (list R)))))
    (weighted_sum : list (list (list (list R))) → list (list (list R)))
    (shift_target : Z) (str_index_error : string → exn)
    (apply_layer_weights : pooled R → pooled R)
    (pool_other : strategy → list (list (list R)) → ModelBatch → result (pooled R))
    (head : pooled R → result Pred) (sp s : string) (batch : ModelBatch)
    (st : model_state (list Z * list Z) (pooled R)) :
  let forward :=
    SentenceRepresentationProber.forward hidden_size encoder weighted_sum sp
      (LPStr s) shift_target str_index_error apply_layer_weights pool_other head in
  (sp ∉ ["first"; "last"] → s ≠ "sum" → tensor_batch batch = true →
   (∃ e st', forward batch st = (Raise e, st') ∧ cache st' = cache st)
   ∧ (∀ out st1,
        Embedder.forward encoder (b_input batch) (b_input_len batch) st
        = (Ok out, st1) →
        forward batch st
        = (Raise (match stack out with
                  | Ok _ => str_index_error s
                  | Raise e => e
                  end), st1))
   ∧ (∀ e st1,
        Embedder.forward encoder (b_input batch) (b_input_len batch) st
        = (Raise e, st1) →
        forward batch st = (Raise e, st1)))
  ∧ (sp ∈ ["first"; "last"] → s ∉ ["sum"; "weighted_sum"] →
     tensor_batch batch = true →
     cache st !! (flat (b_input batch), b_probe_target_idx batch) = None →
     ∃ e st', forward batch st = (Raise e, st') ∧ cache st' = cache st).
Proof.
  intros forward. subst forward. split.
  - intros Hsp Hs _.
    assert (∀ out st1,
              Embedder.forward encoder (b_input batch) (b_input_len batch) st
              = (Ok out, st1) →
              SentenceRepresentationProber.forward hidden_size encoder weighted_sum sp
                (LPStr s) shift_target str_index_error apply_layer_weights pool_other
                head batch st
              = (Raise (match stack out with
                        | Ok _ => str_index_error s
                        | Raise e => e
                        end), st1)) as Hok.
    { intros out st1 Hfwd.
      unfold SentenceRepresentationProber.forward, SentenceRepresentationProber.pool.
      rewrite (not_first_last sp Hsp).
      unfold SentenceRepresentationProber._forward_uncached, Embedder.embed,
        SentenceRepresentationProber.select_layer.
      cbv [mbind M_bind bind]. rewrite Hfwd.
      cbv [lift result_bind String.eqb Ascii.eqb Bool.eqb fmap result_fmap].
      destruct (stack out) as [layers|]; [|reflexivity].
      apply String.eqb_neq in Hs. unfold String.eqb in Hs.
      cbv [Ascii.eqb Bool.eqb] in Hs. by rewrite Hs. }
    assert (∀ e st1,
              Embedder.forward encoder (b_input batch) (b_input_len batch) st
              = (Raise e, st1) →
              SentenceRepresentationProber.forward hidden_size encoder weighted_sum sp
                (LPStr s) shift_target str_index_error apply_layer_weights pool_other
                head batch st
              = (Raise e, st1)) as Hraise.
    { intros e st1 Hfwd.
      unfold SentenceRepresentationProber.forward, SentenceRepresentationProber.pool.
      rewrite (not_first_last sp Hsp).
      unfold SentenceRepresentationProber._forward_uncached.
      cbv [mbind M_bind bind].
      by rewrite (embed_pass_raises encoder weighted_sum _ _ _ _ _ _ Hfwd). }
    split_and!; [|exact Hok|exact Hraise].
    destruct (Embedder.forward encoder (b_input batch) (b_input_len batch) st)
      as [[out|e] st1] eqn:Hfwd.
    + rewrite (Hok _ _ eq_refl). do 2 eexists. split; [reflexivity|].
      rewrite forward_eq in Hfwd. destruct (b_input batch); by simplify_eq.
    + rewrite (Hraise _ _ eq_refl). do 2 eexists. split; [reflexivity|].
      rewrite forward_eq in Hfwd. destruct (b_input batch); by simplify_eq.
  - intros Hsp Hs _ Hmiss.
    assert (String.eqb s "weighted_sum" = false ∧ String.eqb s "sum" = false)
      as [Hws Hsum].
    { rewrite !elem_of_cons, elem_of_nil in Hs.
      split; apply String.eqb_neq; intros ->; tauto. }
    assert (∀ tv, SentenceRepresentationProber.pool_layers (LPStr s) str_index_error tv
                  = Raise (str_index_error s)) as Hpl.
    { intros tv. unfold SentenceRepresentationProber.pool_layers.
      by rewrite Hws, Hsum. }
    unfold SentenceRepresentationProber.forward, SentenceRepresentationProber.pool.
    assert (String.eqb sp "first" || String.eqb sp "last" = true
            ∧ ∃ st0, pooling_func sp = Ok st0) as [-> [st0 Hst0]].
    { rewrite !elem_of_cons, elem_of_nil in Hsp.
      destruct Hsp as [->|[->|[]]]; (split; [done|by eexists]). }
    unfold SentenceRepresentationProber._forward_first_last.
    cbv [mbind M_bind bind lift cache_lookup cache_store cache_get mret M_ret ret].
    rewrite Hst0, Hmiss.
    destruct (Embedder.embed _ _ _ _ _ st) as [[e|err] st1] eqn:Hembed;
      apply (embed_cases encoder weighted_sum) in Hembed
        as [(_ & Herr & ->)|(_ & ->)]; try done; [|by do 2 eexists..].
    destruct (match e with E4 _ => _ | E3 _ => _ end) as [layers|];
      [|by do 2 eexists].
    cbv [result_bind].
    destruct (py_index layers 0) as [fl|]; [|by do 2 eexists].
    destruct (if String.eqb sp "first" then _ else _) as [idx|]; [|by do 2 eexists].
    destruct (if (shift_target =? 0)%Z then _ else _) as [idx'|]; [|by do 2 eexists].
    destruct (rmapM _ layers) as [tv|]; [|by do 2 eexists].
    rewrite Hpl. by do 2 eexists.
Qed.

Lemma prober_layer_name_fails_witness :
  SentenceRepresentationProber.forward 2 ex_encoder ex_weighted_sum "max"
    (LPStr "last") 0 (λ _, TypeError "string index") id no_pool3 Ok ex_batch
    empty_state
  = (Raise (TypeError "string index"), after_encoder_call empty_state).
Proof.
  refine (proj1 (proj2 (proj1 (prober_layer_name_fails 2 ex_encoder ex_weighted_sum 0
                   (λ _, TypeError "string index") id no_pool3 Ok "max" "last"
                   ex_batch empty_state) _ _ _))
            [ex_embedded] (after_encoder_call empty_state) _).
  - intros Hin. rewrite !elem_of_cons, elem_of_nil in Hin.
    destruct Hin as [?|[?|[]]]; discriminate.
  - discriminate.
  - reflexivity.
  - reflexivity.
Defined.

(** * First and last pooling in the tagger *)

Lemma rmapM_app {A B} (f : A → result B) xs1 xs2 ys :
  rmapM f (xs1 ++ xs2) = Ok ys →
  ∃ ys1 ys2, ys = ys1 ++ ys2 ∧ rmapM f xs1 = Ok ys1 ∧ rmapM f xs2 = Ok ys2.
Proof.
  revert ys; induction xs1 as [|x xs1 IH]; intros ys; simpl.
  - intros Hys. exists [], ys. by split_and!.
  - destruct (f x) as [y|]; simpl; [|done].
    destruct (rmapM f (xs1 ++ xs2)) as [ys'|] eqn:Hrest; simpl; [|done].
    intros [= <-]. destruct (IH _ eq_refl) as (ys1 & ys2 & -> & -> & ->).
    exists (y :: ys1), ys2. by split_and!.
Qed.

Lemma rmapM_zip_concat {A B C} (g : A * B → result C)
    (ids : list (list A * list B)) rows :
  (∀ p, p ∈ ids → length p.1 = length p.2) →
  rmapM g (zip (concat (fst <$> ids)) (concat (snd <$> ids))) = Ok rows →
  ∃ outs, rows = concat outs ∧ length outs = length ids
          ∧ ∀ i p o, ids !! i = Some p → outs !! i = Some o →
              rmapM g (zip p.1 p.2) = Ok o.
Proof.
  revert rows; induction ids as [|[a b] ids IH]; intros rows Hlen; simpl.
  - intros [= <-]. exists []. by split_and!.
  - rewrite zip_with_app by (apply (Hlen (a, b)); left).
    intros Hrows. apply rmapM_app in Hrows as (o1 & rest & -> & Ho1 & Hrest).
    destruct (IH rest) as (outs & -> & Hl & Houts);
      [intros p Hp; apply Hlen; by right|done|].
    exists (o1 :: outs). split_and!; [done|simpl; by rewrite Hl|].
    intros [|i] p o; simpl.
    + by intros [= <-] [= <-].
    + apply Houts.
Qed.

(** X19.  On a batch whose token-start rows reach two entries
    beyond the words of their sentences, the branch for 'first' and 'last'
    of [_forward_with_cache], when it returns, returns one vector per word,
    sentence after sentence: for word [ti] of sentence [bi], with the token
    starts [f] and [l] at [ti+1] and [ti+2], the vector at position [f] for
    'first' and at position [l - 1] for 'last', that is the two ends of the
    span that 'max', 'avg' and 'sum' reduce. *)
Theorem tagger_first_last_pick_span_ends {R : Type} `{Scalar R}
    (last : bool) (e : list (list (list R))) (batch : ModelBatch)
    (rows : list (list R)) :
  TransformerForSequenceTagging.pool_first_last last e batch = Ok (P2 rows) →
  (∀ bi sl ts, bi < length (b_input batch) → b_sentence_len batch !! bi = Some sl →
     b_token_starts batch !! bi = Some ts → sl + 2 ≤ length ts) →
  ∃ outs : list (list (list R)),
    rows = concat outs
    ∧ length outs = length (b_input batch)
    ∧ ∀ bi o, outs !! bi = Some o →
        b_sentence_len batch !! bi = Some (length o)
        ∧ ∀ ti v, o !! ti = Some v →
            ∃ ts f l sent,
              b_token_starts batch !! bi = Some ts
              ∧ ts !! (ti + 1) = Some f
              ∧ ts !! (ti + 2) = Some l
              ∧ e !! bi = Some sent
              ∧ py_index sent (if last then Z.of_nat l - 1 else Z.of_nat f)%Z = Ok v.
Proof.
  unfold TransformerForSequenceTagging.pool_first_last.
  destruct (rmapM _ (seq 0 (length (b_input batch)))) as [ids|] eqn:Hids;
    simpl; [|done].
  intros Hres Hwf.
  assert (∀ i p, ids !! i = Some p →
            ∃ sl ts, b_sentence_len batch !! i = Some sl
                     ∧ b_token_starts batch !! i = Some ts
                     ∧ i < length (b_input batch)
                     ∧ p = (replicate sl (Z.of_nat i),
                            if last
                            then (λ t, Z.of_nat t - 1)%Z <$> slice 2 (sl + 2) ts
                            else Z.of_nat <$> slice 1 (sl + 1) ts)) as Hid.
  { intros i p Hp.
    destruct (rmapM_lookup _ _ _ _ _ Hids Hp) as (i' & Hi & Hbody).
    apply lookup_seq in Hi as [-> Hlt]. simpl in *.
    destruct (py_index (b_sentence_len batch) _) as [sl|] eqn:Hsl;
      simpl in Hbody; [|done].
    destruct (py_index (b_token_starts batch) _) as [ts|] eqn:Hts;
      simpl in Hbody; [|done].
    injection Hbody as <-. exists sl, ts.
    split_and!; try done; by apply py_index_Ok_lookup. }
  assert (∀ p, p ∈ ids → length p.1 = length p.2) as Hlens.
  { intros p Hp. apply list_elem_of_lookup in Hp as [i Hi].
    destruct (Hid i p Hi) as (sl & ts & Hsl & Hts & Hlt & ->).
    pose proof (Hwf i sl ts Hlt Hsl Hts). simpl. rewrite length_replicate.
    destruct last; rewrite length_fmap; unfold slice;
      rewrite length_take, length_drop; lia. }
  assert (length (concat (fst <$> ids)) = length (concat (snd <$> ids))) as Hcat.
  { clear -Hlens. induction ids as [|p ids IH]; simpl; [done|].
    rewrite !length_app, (Hlens p) by left. f_equal.
    apply IH. intros q Hq. apply Hlens. by right. }
  destruct ids as [|p0 ids0] eqn:Hids0; [done|]. rewrite <- Hids0 in *.
  unfold index2, broadcast2 in Hres. rewrite Hcat, Nat.eqb_refl in Hres.
  simpl in Hres.
  destruct (rmapM _ (zip _ _)) as [rows'|] eqn:Hrows; simpl in Hres; [|done].
  injection Hres as <-.
  destruct (rmapM_zip_concat _ _ _ Hlens Hrows) as (outs & -> & Hlen & Houts).
  pose proof (rmapM_length _ _ _ Hids) as Hidlen. rewrite length_seq in Hidlen.
  exists outs. split_and!; [done|lia|].
  intros bi o Ho.
  destruct (lookup_lt_is_Some_2 ids bi) as [p Hp];
    [apply lookup_lt_Some in Ho; lia|].
  destruct (Hid bi p Hp) as (sl & ts & Hsl & Hts & Hlt & ->).
  pose proof (Houts bi _ o Hp Ho) as Hgather. simpl in Hgather.
  pose proof (Hwf bi sl ts Hlt Hsl Hts) as Hlong.
  pose proof (rmapM_length _ _ _ Hgather) as Hol.
  rewrite length_zip, length_replicate in Hol.
  assert (length o = sl) as Hosl.
  { rewrite Hol. destruct last; rewrite length_fmap; unfold slice;
      rewrite length_take, length_drop; lia. }
  split; [by rewrite Hosl|].
  intros ti v Hv.
  destruct (rmapM_lookup _ _ _ _ _ Hgather Hv) as ([b t] & Hbt & Hg).
  apply lookup_zip_with_Some in Hbt as (b' & t' & [= <- <-] & Hb & Ht).
  apply lookup_replicate in Hb as [-> Hti].
  simpl in Hg.
  destruct (py_index e (Z.of_nat bi)) as [sent|] eqn:Hsent; simpl in Hg; [|done].
  apply py_index_Ok_lookup in Hsent.
  destruct (lookup_lt_is_Some_2 ts (ti + 1)) as [f Hf]; [lia|].
  destruct (lookup_lt_is_Some_2 ts (ti + 2)) as [l Hl]; [lia|].
  exists ts, f, l, sent. split_and!; try done.
  destruct last; rewrite list_lookup_fmap in Ht; unfold slice in Ht;
    rewrite lookup_take_lt, lookup_drop in Ht by lia.
  - replace (2 + ti) with (ti + 2) in Ht by lia. rewrite Hl in Ht.
    injection Ht as <-. done.
  - replace (1 + ti) with (ti + 1) in Ht by lia. rewrite Hf in Ht.
    injection Ht as <-. done.
Qed.

Lemma tagger_first_last_pick_span_ends_witness :
  ∃ outs : list (list (list Q)),
    [[3; 2]%Q] = concat outs ∧ length outs = length (b_input ex_batch).
Proof.
  destruct (tagger_first_last_pick_span_ends true ex_embedded ex_batch [[3; 2]%Q])
    as (outs & Hrows & Hlen & _).
  - vm_compute. reflexivity.
  - intros bi sl ts Hbi Hsl Hts. simpl in Hbi.
    assert (bi = 0) as -> by lia. simpl in Hsl, Hts.
    injection Hsl as <-. injection Hts as <-. simpl. lia.
  - exists outs. split; [exact Hrows | exact Hlen].
Defined.

(** * The 'last2' pooling *)

Lemma slice_lookup {A} (a b : nat) (l : list A) i :
  i < b - a → slice a b l !! i = l !! (a + i).
Proof. intros Hi. unfold slice. by rewrite lookup_take_lt, lookup_drop. Qed.

Lemma length_slice {A} (a b : nat) (l : list A) :
  b ≤ length l → length (slice a b l) = b - a.
Proof. intros Hb. unfold slice. rewrite length_take, length_drop. lia. Qed.

Section Last2Facts.

Context {R : Type} `{Scalar R}.

Lemma last_two_span (sent : list (list R)) (f l : nat) x :
  f < l → sent !! (l - 1) = Some x →
  last_two (slice f l sent)
  = Some (x ++ (if decide (l = f + 1) then replicate (length x) szero
                else default [] (sent !! (l - 2)))).
Proof.
  intros Hfl Hx.
  assert (l ≤ length sent) as Hl by (apply lookup_lt_Some in Hx; lia).
  pose proof (length_slice f l sent Hl) as Hlen.
  unfold last_two.
  destruct (reverse (slice f l sent)) as [|x' rest] eqn:Hrev.
  { apply (f_equal length) in Hrev. rewrite length_reverse, Hlen in Hrev.
    simpl in Hrev. lia. }
  assert (x' = x) as ->.
  { assert (reverse (slice f l sent) !! 0 = Some x') as H0 by by rewrite Hrev.
    rewrite reverse_lookup, Hlen, slice_lookup in H0 by lia.
    replace (f + (l - f - 1)) with (l - 1) in H0 by lia. congruence. }
  destruct rest as [|y rest].
  - apply (f_equal length) in Hrev. rewrite length_reverse, Hlen in Hrev.
    simpl in Hrev. rewrite decide_True by lia. done.
  - assert (2 ≤ l - f) as H2.
    { apply (f_equal length) in Hrev. rewrite length_reverse, Hlen in Hrev.
      simpl in Hrev. lia. }
    assert (reverse (slice f l sent) !! 1 = Some y) as H1 by by rewrite Hrev.
    rewrite reverse_lookup, Hlen, slice_lookup in H1 by lia.
    replace (f + (l - f - 2)) with (l - 2) in H1 by lia.
    rewrite decide_False by lia. by rewrite H1.
Qed.

(** X20.  [SentenceRepresentationProber._forward_last2], when it
    returns, returns one vector per sentence; for a sentence whose target
    word has a non-empty span of subwords, between the token starts [f] at
    the target index and [l] at the index after it, the vector is the last
    vector of the span followed by the one before it, or followed by as many
    zeros when the span has a single vector. *)
Theorem prober_last2_is_span_tail (e : list (list (list R))) (batch : ModelBatch)
    (rows : list (list R)) (firsts lasts : list nat) :
  prober_forward_last2 e batch = Ok (P2 rows) →
  index2 (b_token_starts batch) (arange (length e)) (b_probe_target_idx batch)
    = Ok firsts →
  index2 (b_token_starts batch) (arange (length e))
    ((λ t, t + 1)%Z <$> b_probe_target_idx batch) = Ok lasts →
  length rows = length e
  ∧ ∀ wi f l sent v,
      firsts !! wi = Some f → lasts !! wi = Some l → e !! wi = Some sent →
      rows !! wi = Some v → f < l →
      last_two (slice f l sent) = Some v.
Proof.
  unfold prober_forward_last2. intros Hres Hfirst Hlast.
  rewrite Hfirst, Hlast in Hres. simpl in Hres.
  destruct (rmapM _ (seq 0 (length e))) as [tv|] eqn:Htv; simpl in Hres; [|done].
  destruct (stack tv) as [rows'|] eqn:Hstack; simpl in Hres; [|done].
  injection Hres as <-.
  assert (rows' = tv) as -> by (unfold stack in Hstack; destruct tv; by simplify_eq).
  split.
  { apply rmapM_length in Htv. by rewrite length_seq in Htv. }
  intros wi f l sent v Hf Hl Hsent Hv Hfl.
  destruct (rmapM_lookup _ _ _ _ _ Htv Hv) as (wi' & Hwi & Hbody).
  apply lookup_seq in Hwi as [-> _]. simpl in Hbody.
  rewrite !py_index_nat, !list_lookup_fmap, Hf, Hl, Hsent in Hbody.
  simpl in Hbody.
  replace (Z.of_nat l - 1)%Z with (Z.of_nat (l - 1)) in Hbody by lia.
  rewrite py_index_nat in Hbody.
  destruct (sent !! (l - 1)) as [x|] eqn:Hx; simpl in Hbody; [|done].
  rewrite (last_two_span sent f l x Hfl Hx).
  destruct (Z.of_nat f =? Z.of_nat (l - 1))%Z eqn:Heq.
  - apply Z.eqb_eq in Heq. simpl in Hbody. injection Hbody as <-.
    rewrite decide_True by lia. done.
  - apply Z.eqb_neq in Heq.
    replace (Z.of_nat (l - 1) - 1)%Z with (Z.of_nat (l - 2)) in Hbody by lia.
    rewrite py_index_nat in Hbody.
    destruct (sent !! (l - 2)) as [y|] eqn:Hy; simpl in Hbody; [|done].
    injection Hbody as <-. rewrite decide_False by lia. done.
Qed.

(** X21.  The loop of [TransformerForSequenceTagging._forward_last2],
    when it returns, returns the vectors of the words sentence after
    sentence; the vector of word [ti] of sentence [bi], whose span of
    subwords between the token starts at [ti+1] and [ti+2] is not empty, is
    the last vector of the span followed by the one before it, or by
    [hidden_size] zeros when the span has a single vector: on a tensor whose
    vectors have [hidden_size] entries this is what the prober's
    [_forward_last2] yields for the same span. *)
Theorem tagger_last2_is_span_tail (hidden_size : nat) (e : list (list (list R)))
    (batch : ModelBatch) (rows : list (list R)) :
  tagger_forward_last2 hidden_size e batch = Ok (P2 rows) →
  well_shaped hidden_size e →
  ∃ outs : list (list (list R)),
    rows = concat outs
    ∧ length outs = length e
    ∧ ∀ bi o, outs !! bi = Some o →
        b_sentence_len batch !! bi = Some (length o)
        ∧ ∀ ti v, o !! ti = Some v →
            ∃ ts f l sent,
              b_token_starts batch !! bi = Some ts
              ∧ ts !! (ti + 1) = Some f
              ∧ ts !! (ti + 2) = Some l
              ∧ e !! bi = Some sent
              ∧ (f < l → last_two (slice f l sent) = Some v).
Proof.
  unfold tagger_forward_last2. intros Hres Hshape.
  destruct (rmapM _ (seq 0 (length e))) as [outs|] eqn:Houts;
    simpl in Hres; [|done].
  destruct (stack (concat outs)) as [rows'|] eqn:Hstack; simpl in Hres; [|done].
  injection Hres as <-. exists outs. split_and!.
  - unfold stack in Hstack. destruct (concat outs); by simplify_eq.
  - apply rmapM_length in Houts. by rewrite length_seq in Houts.
  - intros bi o Ho.
    destruct (rmapM_lookup _ _ _ _ _ Houts Ho) as (bi' & Hbi & Hinner).
    apply lookup_seq in Hbi as [-> _]. simpl in Hinner.
    destruct (py_index (b_sentence_len batch) _) as [slen|] eqn:Hslen;
      simpl in Hinner; [|done].
    apply py_index_Ok_lookup in Hslen.
    pose proof (rmapM_length _ _ _ Hinner) as Hol. rewrite length_seq in Hol.
    split; [by rewrite Hol|].
    intros ti v Hv.
    destruct (rmapM_lookup _ _ _ _ _ Hinner Hv) as (ti' & Hti & Hbody).
    apply lookup_seq in Hti as [-> _]. simpl in Hbody.
    destruct (py_index (b_token_starts batch) _) as [ts|] eqn:Hts;
      simpl in Hbody; [|done].
    apply py_index_Ok_lookup in Hts.
    destruct (py_index ts (Z.of_nat (ti + 1))) as [f|] eqn:Hf;
      simpl in Hbody; [|done].
    apply py_index_Ok_lookup in Hf.
    destruct (py_index ts (Z.of_nat (ti + 2))) as [l|] eqn:Hl;
      simpl in Hbody; [|done].
    apply py_index_Ok_lookup in Hl.
    destruct (py_index e _) as [sent|] eqn:Hsent; simpl in Hbody; [|done].
    apply py_index_Ok_lookup in Hsent.
    exists ts, f, l, sent. split_and!; try done.
    intros Hfl.
    replace (Z.of_nat l - 1)%Z with (Z.of_nat (l - 1)) in Hbody by lia.
    destruct (py_index sent (Z.of_nat (l - 1))) as [x|] eqn:Hx;
      simpl in Hbody; [|done].
    apply py_index_Ok_lookup in Hx.
    rewrite (last_two_span sent f l x Hfl Hx).
    assert (length x = hidden_size) as Hxl.
    { apply (Hshape sent x); by eapply list_elem_of_lookup_2. }
    destruct (Z.of_nat f =? Z.of_nat (l - 1))%Z eqn:Heq.
    + apply Z.eqb_eq in Heq. injection Hbody as <-.
      rewrite decide_True by lia. by rewrite Hxl.
    + apply Z.eqb_neq in Heq.
      replace (Z.of_nat (l - 1) - 1)%Z with (Z.of_nat (l - 2)) in Hbody by lia.
      destruct (py_index sent (Z.of_nat (l - 2))) as [y|] eqn:Hy;
        simpl in Hbody; [|done].
      apply py_index_Ok_lookup in Hy.
      injection Hbody as <-. rewrite decide_False by lia. by rewrite Hy.
Qed.

End Last2Facts.

Lemma prober_last2_is_span_tail_witness :
  length [[3; 2; 1; 5]%Q] = length ex_embedded.
Proof.
  refine (proj1 (prober_last2_is_span_tail ex_embedded ex_batch [[3; 2; 1; 5]%Q]
                   [1] [3] _ _ _)).
  - vm_compute. reflexivity.
  - vm_compute. reflexivity.
  - vm_compute. reflexivity.
Defined.

Lemma tagger_last2_is_span_tail_witness :
  ∃ outs : list (list (list Q)),
    [[3; 2; 1; 5]%Q] = concat outs ∧ length outs = length ex_embedded.
Proof.
  destruct (tagger_last2_is_span_tail 2 ex_embedded ex_batch [[3; 2; 1; 5]%Q])
    as (outs & Hrows & Hlen & _).
  - vm_compute. reflexivity.
  - intros sent v Hsent Hv. unfold ex_embedded in Hsent.
    apply list_elem_of_singleton in Hsent as ->.
    repeat (apply elem_of_cons in Hv as [->|Hv]; [reflexivity|]).
    by apply elem_of_nil in Hv.
  - exists outs. split; [exact Hrows | exact Hlen].
Defined.

(** * Decoding the output of the tagger *)

Section DecodeFacts.

Context {Row : Type}.
Variable label_of : Row → result string.

Lemma decode_rows (out : list Row) (off a n : nat) ls :
  rmapM (λ ti : nat, row ← py_index out (Z.of_nat (off + ti)); label_of row)
    (seq a n) = Ok ls →
  rmapM label_of (take n (drop (off + a) out)) = Ok ls.
Proof.
  revert a ls; induction n as [|n IH]; intros a ls; simpl.
  - by intros [= <-].
  - rewrite py_index_nat.
    destruct (out !! (off + a)) as [row|] eqn:Hrow; simpl; [|done].
    destruct (label_of row) as [lab|] eqn:Hlab; simpl; [|done].
    destruct (rmapM _ (seq (S a) n)) as [ls'|] eqn:Hrest; simpl; [|done].
    intros [= <-].
    rewrite (drop_S _ _ _ Hrow). simpl. rewrite Hlab. simpl.
    apply IH in Hrest. replace (off + S a) with (S (off + a)) in Hrest by lia.
    by rewrite Hrest.
Qed.

Lemma decode_loop_spec (out : list Row) (k : nat)
    (raw raw' : list SequenceClassificationWithSubwordsDataFields) :
  decode_loop label_of out k raw = Ok raw' →
  length raw' = length raw
  ∧ ∀ si s s', raw !! si = Some s → raw' !! si = Some s' →
      let off := k + sum_list (sc_sentence_len <$> take si raw) in
      ∃ ls, s' = set_labels s ls
            ∧ length ls = sc_sentence_len s
            ∧ rmapM label_of (slice off (off + sc_sentence_len s) out) = Ok ls.
Proof.
  revert k raw'; induction raw as [|s0 raw IH]; intros k raw'; simpl.
  - intros [= <-]. split; [done|]. intros si s s' Hs. done.
  - destruct (rmapM _ (seq 0 (sc_sentence_len s0))) as [ls0|] eqn:Hls0;
      simpl; [|done].
    destruct (decode_loop label_of out (k + sc_sentence_len s0) raw)
      as [rest|] eqn:Hrest; simpl; [|done].
    intros [= <-]. destruct (IH _ _ Hrest) as [Hlen Hspec].
    split; [simpl; by rewrite Hlen|].
    intros [|si] s s'; simpl.
    + intros [= <-] [= <-]. exists ls0. split_and!; [done| |].
      * apply rmapM_length in Hls0. by rewrite length_seq in Hls0.
      * apply decode_rows in Hls0. unfold slice.
        rewrite !Nat.add_0_r in *.
        replace (k + sc_sentence_len s0 - k) with (sc_sentence_len s0) by lia.
        done.
    + intros Hs Hs'. destruct (Hspec si s s' Hs Hs') as (ls & -> & Hl & Hrows).
      exists ls. split_and!; [done|done|].
      rewrite !Nat.add_assoc. exact Hrows.
Qed.

(** X10.  [SequenceClassificationWithSubwords.decode], when it
    completes, has given every sample as many labels as the sentence has
    words, and changed nothing else; the labels of sample [si] are those of
    the rows of the output that begin after one row for every word of the
    samples before it: the rows are read in the order in which the tagger
    emits its vectors and in which [batched_iter] concatenates the labels,
    word after word and sentence after sentence. *)
Theorem decode_reads_rows_in_word_order (model_output : list Row)
    (raw raw' : list SequenceClassificationWithSubwordsDataFields) :
  SequenceClassificationWithSubwords_decode label_of model_output raw = Ok raw' →
  length raw' = length raw
  ∧ sum_list (sc_sentence_len <$> raw) ≤ length model_output
  ∧ ∀ si s s', raw !! si = Some s → raw' !! si = Some s' →
      let off := sum_list (sc_sentence_len <$> take si raw) in
      ∃ ls, s' = set_labels s ls
            ∧ length ls = sc_sentence_len s
            ∧ rmapM label_of (slice off (off + sc_sentence_len s) model_output)
              = Ok ls.
Proof.
  unfold SequenceClassificationWithSubwords_decode. intros Hdec.
  destruct (decode_loop_spec _ _ _ _ Hdec) as [Hlen Hspec].
  split_and!; [done| |exact Hspec].
  assert (∀ n, n ≤ length raw →
            sum_list (sc_sentence_len <$> take n raw) ≤ length model_output) as Hle.
  { induction n as [|n IHn]; intros Hn; [simpl; lia|].
    destruct (lookup_lt_is_Some_2 raw n) as [s Hs]; [lia|].
    destruct (lookup_lt_is_Some_2 raw' n) as [s' Hs']; [lia|].
    destruct (Hspec n s s' Hs Hs') as (ls & _ & Hl & Hrows).
    simpl in Hrows. apply rmapM_length in Hrows.
    rewrite (take_S_r _ _ _ Hs), fmap_app, sum_list_with_app. simpl.
    unfold slice in Hrows. rewrite length_take, length_drop in Hrows.
    specialize (IHn ltac:(lia)). lia. }
  specialize (Hle (length raw) ltac:(lia)). by rewrite firstn_all in Hle.
Qed.

End DecodeFacts.

Lemma decode_reads_rows_in_word_order_witness :
  sum_list (sc_sentence_len <$> decode_example) ≤ length ["X"; "Y"; "Z"].
Proof.
  pose proof (decode_reads_rows_in_word_order Ok ["X"; "Y"; "Z"] decode_example
    [ {| sc_raw_sentence := ["a"; "b"]; sc_labels := Some ["X"; "Y"];
         sc_sentence_len := 2; sc_tokens := ["[CLS]"; "a"; "b"; "[SEP]"];
         sc_sentence_subword_len := 4; sc_token_starts := [0; 1; 2; 3] |};
      {| sc_raw_sentence := ["c"]; sc_labels := Some ["Z"]; sc_sentence_len := 1;
         sc_tokens := ["[CLS]"; "c"; "[SEP]"]; sc_sentence_subword_len := 3;
         sc_token_starts := [0; 1; 2] |} ] eq_refl) as (_ & Hle & _).
  exact Hle.
Defined.
